(** * The PostgreSQL data store of APScheduler

    A shallow embedding of [apscheduler/datastores/postgresql.py]: the rows of
    the [schedules] and [jobs] tables are finite maps keyed by their primary
    key, every SQL statement of the store is a function on those maps, and
    the methods of [PostgresqlDataStore] are computations in a small
    state-and-exception monad over the world the store acts on (tables,
    wall clock, published events, notifications, log).

    Idealisations, stated once:
    - a point in time is an integer (microseconds since the epoch, the
      resolution of [datetime]); [lock_expiration_delay] is an integer number
      of microseconds, so the float arithmetic of
      [now.timestamp() + lock_expiration_delay] is exact here;
    - a Python [str] is a list of code points below 256;
    - the order in which the engine returns rows without an ORDER BY is the
      order of [map_to_list]. *)

From Stdlib.Strings Require Import Byte Ascii String.
From stdpp Require Import gmap strings list fin_maps sorting.
From Stdlib Require Import ZArith Lia OrdersEx.

Local Open Scope Z_scope.

(** ** Data model *)

Definition bytes := list byte.

Global Instance byte_eq_dec : EqDecision byte := Byte.byte_eq_dec.

(** Modelled from the spec: [abc.Schedule] is imported by the store but its
    declaration is not part of the sources at hand.  The store reads exactly
    three attributes of it; everything else a schedule carries (trigger,
    arguments, ...) is the opaque [schedule_state]. *)
Record Schedule := mkSchedule {
  schedule_id : string;
  schedule_task_id : string;
  schedule_next_fire_time : option Z;
  schedule_state : string
}.

(** Modelled from the spec: [abc.Job]; the store reads [id], [task_id],
    [schedule_id] and [tags]. *)
Record Job := mkJob {
  job_id : N;
  job_task_id : string;
  job_schedule_id : option string;
  job_tags : list string;
  job_state : string
}.

Global Instance Schedule_eq_dec : EqDecision Schedule.
Proof. solve_decision. Defined.

(** A row of [schedules], without its primary key [id] (the key of the map). *)
Record ScheduleRow := mkScheduleRow {
  task_id : string;
  serialized_data : bytes;
  next_fire_time : option Z;
  acquired_by : option string;
  acquired_until : option Z
}.

(** A row of [jobs], without its primary key. *)
Record JobRow := mkJobRow {
  job_row_serialized_data : bytes;
  job_row_task_id : string;
  job_row_tags : list string;
  job_row_created_at : Z;
  job_row_acquired_by : option string;
  job_row_acquired_until : option Z
}.

Global Instance ScheduleRow_eq_dec : EqDecision ScheduleRow.
Proof. solve_decision. Defined.

Global Instance JobRow_eq_dec : EqDecision JobRow.
Proof. solve_decision. Defined.

(** Modelled from the spec: the event classes of [events.py]. *)
Inductive Event :=
| ScheduleAdded (timestamp : Z) (sid : string) (fire : option Z)
| ScheduleUpdated (timestamp : Z) (sid : string) (fire : option Z)
| ScheduleRemoved (timestamp : Z) (sid : string)
| JobAdded (timestamp : Z) (jid : N) (task : string) (sid : option string).

Global Instance Event_eq_dec : EqDecision Event.
Proof. solve_decision. Defined.

(** Modelled from the spec: [policies.ConflictPolicy].  [add_schedule] tests
    for [exception] and [replace] with an if/elif that has no else, so a third
    member that falls through both tests is kept. *)
Inductive ConflictPolicy := replace | do_nothing | exception.

(** Modelled from the spec: the exceptions of [exceptions.py] and of asyncpg
    that the store raises, catches or lets through. *)
Inductive Exn :=
| ConflictingIdError (sid : string)
| SerializationError
| DeserializationError
| UniqueViolationError
| PostgresError (sqlstate : string)
| RuntimeError (message : string).

Global Instance Exn_eq_dec : EqDecision Exn.
Proof. solve_decision. Defined.

(** The keyword arguments of [__init__] the modelled methods read. *)
Record Config := mkConfig {
  schema : string;
  notify_channel : option string;
  lock_expiration_delay : Z;
  start_from_scratch : bool
}.

(** [if self.notify_channel:] - [None] and the empty string are falsy. *)
Definition truthy (channel : option string) : bool :=
  match channel with
  | Some (String _ _) => true
  | _ => false
  end.

(** Modelled from the spec: the [Serializer] capability of [abc.py],
    [serialize(object) -> bytes] and [deserialize(bytes) -> object]; [None]
    stands for the [SerializationError] resp. [DeserializationError] raised. *)
Class Serializer := {
  serialize : Schedule → option bytes;
  deserialize : bytes → option Schedule
}.

(** ** Python's [repr] of a [str]

    [release_schedules] formats the owner into its UPDATE statement with
    [{scheduler_id!r}]; what reaches the engine is this text. *)

Definition squote : ascii := "'"%char.
Definition dquote : ascii := "034"%char.
Definition backslash : ascii := "\"%char.

Definition contains (c : ascii) (s : string) : bool :=
  existsb (Ascii.eqb c) (list_ascii_of_string s).

Definition hex_digit (n : N) : ascii :=
  nth (N.to_nat n) (list_ascii_of_string "0123456789abcdef") "0"%char.

(** [Py_UNICODE_ISPRINTABLE] restricted to code points below 256: the
    controls, DEL, the C1 block, the no-break space and the soft hyphen are
    not printable. *)
Definition py_printable (c : ascii) : bool :=
  let n := N_of_ascii c in
  ((32 <=? n) && (n <? 127) || (161 <=? n) && negb (n =? 173))%N.

Definition py_escape_char (quote c : ascii) : string :=
  if Ascii.eqb c quote || Ascii.eqb c backslash then String backslash (String c EmptyString)
  else if Ascii.eqb c "009"%char then "\t"
  else if Ascii.eqb c "010"%char then "\n"
  else if Ascii.eqb c "013"%char then "\r"
  else if py_printable c then String c EmptyString
  else let n := N_of_ascii c in
       String backslash (String "x" (String (hex_digit (n / 16)) (String (hex_digit (n mod 16)) EmptyString))).

Fixpoint py_escape (quote : ascii) (s : string) : string :=
  match s with
  | EmptyString => EmptyString
  | String c rest => py_escape_char quote c +:+ py_escape quote rest
  end.

(** Single quotes, unless the text has a single quote and no double quote. *)
Definition py_quote (s : string) : ascii :=
  if contains squote s && negb (contains dquote s) then dquote else squote.

Definition py_repr (s : string) : string :=
  let q := py_quote s in
  String q (py_escape q s +:+ String q EmptyString).

(** ** How the engine reads an interpolated owner

    With [standard_conforming_strings] on (the default of every PostgreSQL
    release asyncpg supports) a string constant is a single quote, any text
    without a single quote, and a single quote; backslashes stand for
    themselves.  Any other text is not one string constant: [None]. *)
Fixpoint quote_free_body (t : string) : option string :=
  match t with
  | EmptyString => None
  | String c rest =>
      if Ascii.eqb c squote then
        match rest with EmptyString => Some EmptyString | _ => None end
      else option_map (String c) (quote_free_body rest)
  end.

Definition sql_string_constant (text : string) : option string :=
  match text with
  | String c rest => if Ascii.eqb c squote then quote_free_body rest else None
  | EmptyString => None
  end.

(** ** The world of the store and the monad of its methods *)

Abbreviation ScheduleTable := (gmap string ScheduleRow).
Abbreviation JobTable := (gmap N JobRow).

(** One row of the argument list of [executemany]:
    [(serialized_data, schedule.next_fire_time, schedule.id)]. *)
Definition UpdateArg : Type := bytes * option Z * string.

(** A value bound to a [$n] placeholder. *)
Inductive Param :=
| PText (s : string)
| PBytes (b : bytes)
| PTime (t : option Z)
| PInt (n : Z)
| PTextArray (l : list string)
| PUuidArray (l : list N).

(** What goes over the wire for one call of [execute], [fetch] or
    [executemany]: the query text and one list of bound values per
    execution. *)
Record Statement := mkStatement {
  text : string;
  bound : list (list Param)
}.

Inductive Outcome (A : Type) :=
| Ok (a : A)
| Raise (e : Exn).
Arguments Ok {A} a.
Arguments Raise {A} e.

(** What the engine does with an UPDATE whose owner fragment is not one
    string constant (it may reject the text, or read part of the owner as
    SQL) is not fixed by the store: every new table and every error code
    (an SQLSTATE) is allowed. *)
Class Engine := {
  execute_other_text : string → list UpdateArg → ScheduleTable → ScheduleTable + string
}.

Record World := mkWorld {
  schedules : ScheduleTable;
  jobs : JobTable;
  clock : nat → Z;          (* the n-th answer of [datetime.now(timezone.utc)] *)
  clock_reads : nat;
  published : list Event;   (* oldest first *)
  sent : list Statement;    (* oldest first *)
  logged : list string
}.

Definition M (A : Type) : Type := World → Outcome A * World.

Definition ret {A} (a : A) : M A := λ w, (Ok a, w).

Definition raise {A} (e : Exn) : M A := λ w, (Raise e, w).

Definition bind {A B} (m : M A) (k : A → M B) : M B := λ w,
  match m w with
  | (Ok a, w') => k a w'
  | (Raise e, w') => (Raise e, w')
  end.

Notation "'let*' x := c1 'in' c2" := (bind c1 (λ x, c2))
  (at level 10, x pattern, c1 at level 100, c2 at level 200).

Definition set_schedules (tbl : ScheduleTable) (w : World) : World :=
  mkWorld tbl (jobs w) (clock w) (clock_reads w) (published w) (sent w) (logged w).

Definition set_jobs (tbl : JobTable) (w : World) : World :=
  mkWorld (schedules w) tbl (clock w) (clock_reads w) (published w) (sent w) (logged w).

(** [datetime.now(timezone.utc)] *)
Definition read_clock : M Z := λ w,
  (Ok (clock w (clock_reads w)),
   mkWorld (schedules w) (jobs w) (clock w) (S (clock_reads w)) (published w)
     (sent w) (logged w)).

(** [await self.publish(event)] *)
Definition publish (e : Event) : M unit := λ w,
  (Ok tt,
   mkWorld (schedules w) (jobs w) (clock w) (clock_reads w) (published w ++ [e])
     (sent w) (logged w)).

(** The query text and its bound values leave for the engine. *)
Definition send (query : string) (args : list (list Param)) : M unit := λ w,
  (Ok tt,
   mkWorld (schedules w) (jobs w) (clock w) (clock_reads w) (published w)
     (sent w ++ [mkStatement query args]) (logged w)).

(** [self._logger.exception(..., schedule.id)] *)
Definition log_exception (sid : string) : M unit := λ w,
  (Ok tt,
   mkWorld (schedules w) (jobs w) (clock w) (clock_reads w) (published w)
     (sent w) (logged w ++ [sid])).

(** [async with conn.transaction():] - an exception leaving the block rolls
    both tables back; the clock, the log and what was published stay. *)
Definition transaction {A} (body : M A) : M A := λ w,
  match body w with
  | (Ok a, w') => (Ok a, w')
  | (Raise e, w') => (Raise e, set_jobs (jobs w) (set_schedules (schedules w) w'))
  end.

(** [try: body / except UniqueViolationError: handler / else: orelse] *)
Definition try_unique_violation {A B} (body : M A) (handler : M B) (orelse : A → M B) : M B :=
  λ w,
  match body w with
  | (Ok a, w') => orelse a w'
  | (Raise UniqueViolationError, w') => handler w'
  | (Raise e, w') => (Raise e, w')
  end.

(** [for x in xs: await f(x)] *)
Fixpoint for_each {A} (f : A → M unit) (xs : list A) : M unit :=
  match xs with
  | [] => ret tt
  | x :: rest => let* _ := f x in for_each f rest
  end.

Definition when (b : bool) (m : M unit) : M unit := if b then m else ret tt.

(** Truth value of a Python list. *)
Definition nonempty {A} (l : list A) : bool :=
  match l with [] => false | _ => true end.

(** ** The SQL of the schedule store, on tables *)

(** [next_fire_time IS NOT NULL AND next_fire_time <= $1] *)
Definition fire_due (now : Z) (r : ScheduleRow) : bool :=
  match next_fire_time r with
  | Some t => bool_decide (t ≤ now)
  | None => false
  end.

(** [acquired_until IS NULL OR $1 > acquired_until], which is also
    [acquired_until IS NULL OR acquired_until < $2] of [remove_schedules]. *)
Definition lease_free (now : Z) (r : ScheduleRow) : bool :=
  match acquired_until r with
  | None => true
  | Some u => bool_decide (u < now)
  end.

Definition available (now : Z) (r : ScheduleRow) : bool :=
  fire_due now r && lease_free now r.

(** [ORDER BY next_fire_time]: ascending, NULLs last. *)
Definition fire_le (x y : string * ScheduleRow) : Prop :=
  match next_fire_time x.2, next_fire_time y.2 with
  | Some a, Some b => a ≤ b
  | _, None => True
  | None, Some _ => False
  end.

Global Instance fire_le_dec x y : Decision (fire_le x y).
Proof. unfold fire_le. destruct (next_fire_time x.2), (next_fire_time y.2); apply _. Defined.

(** The rows the inner SELECT sees: available at [$1] and not locked by
    another transaction ([FOR NO KEY UPDATE SKIP LOCKED]). *)
Definition candidate (locked : gset string) (now : Z) (kr : string * ScheduleRow) : Prop :=
  available now kr.2 ∧ kr.1 ∉ locked.

Global Instance candidate_dec locked now kr : Decision (candidate locked now kr).
Proof. unfold candidate. apply _. Defined.

Definition candidates (locked : gset string) (now : Z) (tbl : ScheduleTable) :
  list (string * ScheduleRow) :=
  merge_sort fire_le (filter (candidate locked now) (map_to_list tbl)).

(** The common table expression [schedule_ids]. *)
Definition schedule_ids (locked : gset string) (now : Z) (limit : nat)
  (tbl : ScheduleTable) : list string :=
  (take limit (candidates locked now tbl)).*1.

(** [UPDATE schedules SET acquired_by = $3, acquired_until = $4
     WHERE id IN (SELECT id FROM schedule_ids)] *)
Definition lease_row (owner : string) (until : Z) (r : ScheduleRow) : ScheduleRow :=
  mkScheduleRow (task_id r) (serialized_data r) (next_fire_time r) (Some owner) (Some until).

Definition lease_rows (ids : list string) (owner : string) (until : Z)
  (tbl : ScheduleTable) : ScheduleTable :=
  map_imap (λ k r, Some (if decide (k ∈ ids) then lease_row owner until r else r)) tbl.

(** [RETURNING serialized_data] of that UPDATE. *)
Definition leased_data (ids : list string) (tbl : ScheduleTable) : list bytes :=
  (λ kr : string * ScheduleRow, serialized_data kr.2)
    <$> filter (λ kr : string * ScheduleRow, kr.1 ∈ ids) (map_to_list tbl).

(** [UPDATE schedules SET serialized_data = $2, task_id = $3,
     next_fire_time = $4 WHERE id = $1] *)
Definition replace_row (data : bytes) (task : string) (fire : option Z)
  (r : ScheduleRow) : ScheduleRow :=
  mkScheduleRow task data fire (acquired_by r) (acquired_until r).

(** [WHERE id = any($1::text[])
     AND (acquired_until IS NULL OR acquired_until < $2)] *)
Definition removable (ids : list string) (now : Z) (kr : string * ScheduleRow) : Prop :=
  kr.1 ∈ ids ∧ lease_free now kr.2.

Global Instance removable_dec ids now kr : Decision (removable ids now kr).
Proof. unfold removable. apply _. Defined.

(** One execution of
    [UPDATE schedules SET serialized_data = $1, next_fire_time = $2,
     acquired_by = NULL, acquired_until = NULL
     WHERE id = $3 AND acquired_by = '<owner>'],
    [owner] being the string constant the engine read. *)
Definition update_released (owner : string) (tbl : ScheduleTable) (arg : UpdateArg) :
  ScheduleTable :=
  let '(data, fire, sid) := arg in
  match tbl !! sid with
  | Some r =>
      if decide (acquired_by r = Some owner)
      then <[sid := mkScheduleRow (task_id r) data fire None None]> tbl
      else tbl
  | None => tbl
  end.

(** [WHERE id = any($1::text[]) AND acquired_by = $2] *)
Definition owned_among (ids : list string) (owner : string) (kr : string * ScheduleRow) : Prop :=
  kr.1 ∈ ids ∧ acquired_by kr.2 = Some owner.

Global Instance owned_among_dec ids owner kr : Decision (owned_among ids owner kr).
Proof. unfold owned_among. apply _. Defined.

(** [WHERE acquired_by = $1 AND id = any($2::uuid[])] *)
Definition job_owned_among (owner : string) (ids : list N) (kr : N * JobRow) : Prop :=
  job_row_acquired_by kr.2 = Some owner ∧ kr.1 ∈ ids.

Global Instance job_owned_among_dec owner ids kr : Decision (job_owned_among owner ids kr).
Proof. unfold job_owned_among. apply _. Defined.

(** ** The methods of [PostgresqlDataStore] *)

Section Store.
Context `{Serializer} `{Engine} (cfg : Config).

(** [await self.pool.execute(f"NOTIFY {self.notify_channel}, 'payload'")],
    guarded by [if self.notify_channel:]. *)
Definition notify (payload : string) : M unit :=
  send ("NOTIFY " +:+ default EmptyString (notify_channel cfg) +:+ ", '" +:+ payload +:+ "'") [[]].

(** *** add_schedule *)

Definition insert_text : string :=
  "INSERT INTO " +:+ schema cfg +:+ ".schedules (id, serialized_data, task_id, "
  +:+ "next_fire_time) VALUES ($1, $2, $3, $4)".

Definition replace_text : string :=
  "UPDATE " +:+ schema cfg +:+ ".schedules SET serialized_data = $2, "
  +:+ "task_id = $3, next_fire_time = $4 WHERE id = $1".

Definition schedule_params (sid : string) (data : bytes) (task : string)
  (fire : option Z) : list Param :=
  [PText sid; PBytes data; PText task; PTime fire].

Definition insert_schedule (sid : string) (data : bytes) (task : string)
  (fire : option Z) : M unit :=
  let* _ := send insert_text [schedule_params sid data task fire] in
  λ w, match schedules w !! sid with
       | Some _ => (Raise UniqueViolationError, w)
       | None =>
           (Ok tt,
            set_schedules (<[sid := mkScheduleRow task data fire None None]> (schedules w)) w)
       end.

Definition replace_schedule (sid : string) (data : bytes) (task : string)
  (fire : option Z) : M unit :=
  let* _ := send replace_text [schedule_params sid data task fire] in
  λ w, (Ok tt, set_schedules (alter (replace_row data task fire) sid (schedules w)) w).

Definition add_schedule (schedule : Schedule) (conflict_policy : ConflictPolicy) : M unit :=
  let sid := schedule_id schedule in
  let task := schedule_task_id schedule in
  let fire := schedule_next_fire_time schedule in
  let* serialized_data :=
    match serialize schedule with
    | Some data => ret data
    | None => raise SerializationError
    end in
  let* event :=
    try_unique_violation
      (transaction (insert_schedule sid serialized_data task fire))
      (match conflict_policy with
       | exception => raise (ConflictingIdError sid)
       | replace =>
           let* _ := transaction (replace_schedule sid serialized_data task fire) in
           let* t := read_clock in
           ret (Some (ScheduleUpdated t sid fire))
       | do_nothing => ret None
       end)
      (λ _, let* t := read_clock in ret (Some (ScheduleAdded t sid fire))) in
  let* _ := match event with Some e => publish e | None => ret tt end in
  when (truthy (notify_channel cfg)) (notify "schedule").

(** *** remove_schedules *)

Definition remove_text : string :=
  "DELETE FROM " +:+ schema cfg +:+ ".schedules "
  +:+ "WHERE id = any($1::text[]) "
  +:+ "  AND (acquired_until IS NULL OR acquired_until < $2) "
  +:+ "RETURNING id".

Definition delete_unleased (ids : list string) (now : Z) : M (list string) :=
  let* _ := send remove_text [[PTextArray ids; PTime (Some now)]] in
  λ w, (Ok (filter (removable ids now) (map_to_list (schedules w))).*1,
        set_schedules (filter (λ kr, ¬ removable ids now kr) (schedules w)) w).

Definition remove_schedules (ids : list string) : M unit :=
  let* (now, removed_ids) :=
    transaction (
      let* now := read_clock in
      let* removed_ids := delete_unleased ids now in
      ret (now, removed_ids)) in
  for_each (λ sid, publish (ScheduleRemoved now sid)) removed_ids.

(** *** acquire_schedules *)

Definition acquire_text : string :=
  "
                    WITH schedule_ids AS (
                        SELECT id FROM " +:+ schema cfg +:+ ".schedules
                        WHERE next_fire_time IS NOT NULL AND next_fire_time <= $1
                            AND (acquired_until IS NULL OR $1 > acquired_until)
                        ORDER BY next_fire_time
                        FOR NO KEY UPDATE SKIP LOCKED
                        FETCH FIRST $2 ROWS ONLY
                    )
                    UPDATE " +:+ schema cfg +:+ ".schedules SET acquired_by = $3, acquired_until = $4
                    WHERE id IN (SELECT id FROM schedule_ids)
                    RETURNING serialized_data
                    ".

(** A negative row count is refused by the engine (SQLSTATE 2201W). *)
Definition acquire_statement (now limit : Z) (scheduler_id : string)
  (acquired_until : Z) : M (list bytes) :=
  let* _ := send acquire_text
              [[PTime (Some now); PInt limit; PText scheduler_id;
                PTime (Some acquired_until)]] in
  λ w, if bool_decide (limit < 0)%Z then (Raise (PostgresError "2201W"), w)
       else
         let ids := schedule_ids ∅ now (Z.to_nat limit) (schedules w) in
         let tbl := lease_rows ids scheduler_id acquired_until (schedules w) in
         (Ok (leased_data ids tbl), set_schedules tbl w).

Fixpoint deserialize_all (records : list bytes) : M (list Schedule) :=
  match records with
  | [] => ret []
  | record :: rest =>
      match deserialize record with
      | Some schedule =>
          let* others := deserialize_all rest in ret (schedule :: others)
      | None => raise DeserializationError
      end
  end.

(** The [async with self.pool.acquire() as conn, conn.transaction():] block:
    the clock is read twice, first for the end of the lease, then for [$1]. *)
Definition acquire_transaction (scheduler_id : string) (limit : Z) : M (list bytes) :=
  transaction (
    let* t := read_clock in
    let acquired_until := (t + lock_expiration_delay cfg)%Z in
    let* now := read_clock in
    acquire_statement now limit scheduler_id acquired_until).

(** One turn of the [while True] loop, up to the test [if schedules:]. *)
Definition acquire_cycle (scheduler_id : string) (limit : Z) : M (list Schedule) :=
  let* records := acquire_transaction scheduler_id limit in
  deserialize_all records.

(** The loop, cut after [polls] turns: [None] says that every turn came back
    empty and the caller is still waiting on [_schedules_event]. *)
Fixpoint acquire_schedules (polls : nat) (scheduler_id : string) (limit : Z) :
  M (option (list Schedule)) :=
  match polls with
  | O => ret None
  | S polls' =>
      let* found := acquire_cycle scheduler_id limit in
      if nonempty found then ret (Some found)
      else acquire_schedules polls' scheduler_id limit
  end.

(** *** release_schedules *)

Definition release_update_text (scheduler_id : string) : string :=
  "UPDATE " +:+ schema cfg +:+ ".schedules SET serialized_data = $1, "
  +:+ "next_fire_time = $2, acquired_by = NULL, acquired_until = NULL "
  +:+ "WHERE id = $3 AND acquired_by = " +:+ py_repr scheduler_id.

Definition release_delete_text : string :=
  "DELETE FROM " +:+ schema cfg +:+ ".schedules "
  +:+ "WHERE id = any($1::text[]) AND acquired_by = $2".

Definition update_params (arg : UpdateArg) : list Param :=
  let '(data, fire, sid) := arg in [PBytes data; PTime fire; PText sid].

(** [await conn.executemany(f"UPDATE ... AND acquired_by = {scheduler_id!r}",
    update_args)]: one execution per argument row, in order. *)
Definition executemany_update (scheduler_id : string) (update_args : list UpdateArg) :
  M unit :=
  let* _ := send (release_update_text scheduler_id) (update_params <$> update_args) in
  λ w, match sql_string_constant (py_repr scheduler_id) with
       | Some owner =>
           (Ok tt, set_schedules (foldl (update_released owner) (schedules w) update_args) w)
       | None =>
           match execute_other_text (release_update_text scheduler_id) update_args
                   (schedules w) with
           | inl tbl => (Ok tt, set_schedules tbl w)
           | inr sqlstate => (Raise (PostgresError sqlstate), w)
           end
       end.

Definition delete_owned (ids : list string) (owner : string) : M unit :=
  let* _ := send release_delete_text [[PTextArray ids; PText owner]] in
  λ w, (Ok tt, set_schedules (filter (λ kr, ¬ owned_among ids owner kr) (schedules w)) w).

(** The [for schedule in schedules:] loop with its three accumulators. *)
Fixpoint release_loop (now : Z) (batch : list Schedule)
  (acc : list UpdateArg * list Event * list string) :
  M (list UpdateArg * list Event * list string) :=
  match batch with
  | [] => ret acc
  | schedule :: rest =>
      let '(update_args, update_events, finished_schedule_ids) := acc in
      let sid := schedule_id schedule in
      match schedule_next_fire_time schedule with
      | Some _ =>
          match serialize schedule with
          | None =>
              let* _ := log_exception sid in
              release_loop now rest (update_args, update_events, finished_schedule_ids ++ [sid])
          | Some serialized_data =>
              release_loop now rest
                (update_args ++ [(serialized_data, schedule_next_fire_time schedule, sid)],
                 update_events ++ [ScheduleUpdated now sid (schedule_next_fire_time schedule)],
                 finished_schedule_ids)
          end
      | None =>
          release_loop now rest (update_args, update_events, finished_schedule_ids ++ [sid])
      end
  end.

Definition release_schedules (scheduler_id : string) (batch : list Schedule) : M unit :=
  let* (update_events, finished_schedule_ids) :=
    transaction (
      let* now := read_clock in
      let* (update_args, update_events, finished_schedule_ids) :=
        release_loop now batch ([], [], []) in
      let* _ := when (nonempty update_args) (executemany_update scheduler_id update_args) in
      let* _ := when (nonempty finished_schedule_ids)
                  (delete_owned finished_schedule_ids scheduler_id) in
      ret (update_events, finished_schedule_ids)) in
  let* _ := for_each publish update_events in
  let* _ := when (nonempty update_events && truthy (notify_channel cfg))
              (notify "schedule") in
  for_each (λ sid, let* t := read_clock in publish (ScheduleRemoved t sid))
    finished_schedule_ids.

(** *** release_jobs *)

Definition release_jobs_text : string :=
  "DELETE FROM " +:+ schema cfg +:+ ".jobs WHERE acquired_by = $1 AND id = any($2::uuid[])".

(** [job_ids = {j.id for j in jobs}] and the DELETE, outside any explicit
    transaction. *)
Definition release_jobs (worker_id : string) (batch : list Job) : M unit :=
  let job_ids := remove_dups (job_id <$> batch) in
  let* _ := send release_jobs_text [[PText worker_id; PUuidArray job_ids]] in
  λ w, (Ok tt, set_jobs (filter (λ kr, ¬ job_owned_among worker_id job_ids kr) (jobs w)) w).

End Store.

(** ** Racing acquirers

    [acquire_schedules] run by several owners at once, at the level the
    engine interleaves them under READ COMMITTED: a transaction takes its
    snapshot (the rows that pass the WHERE clause, in ORDER BY order), then
    visits the rows one at a time, and commits.  Visiting a row locked by
    another in-flight transaction skips it (SKIP LOCKED); visiting an unlocked
    row re-checks the WHERE clause on the committed version of the row and
    locks it if it still passes. *)

Record Txn := mkTxn {
  txn_now : Z;                 (* $1 *)
  txn_limit : nat;             (* $2 *)
  txn_until : Z;               (* $4 *)
  txn_todo : list string;      (* snapshot rows not visited yet *)
  txn_locked : list string     (* rows locked so far *)
}.

Record Cluster := mkCluster {
  committed : ScheduleTable;
  inflight : gmap string Txn;            (* by owner *)
  handed_out : list (string * string)    (* (owner, schedule id) returned to a caller *)
}.

Definition locked_by_other (owner : string) (k : string) (c : Cluster) : Prop :=
  ∃ o tx, o ≠ owner ∧ inflight c !! o = Some tx ∧ k ∈ txn_locked tx.

Definition still_available (now : Z) (k : string) (c : Cluster) : Prop :=
  ∃ r, committed c !! k = Some r ∧ available now r.

Definition visit (tx : Txn) (rest : list string) (locked : list string) : Txn :=
  mkTxn (txn_now tx) (txn_limit tx) (txn_until tx) rest locked.

(** The steps of a run in which every statement time is at most [W] and every
    lease granted lasts at least until [W]: no lease granted in the run
    expires during the run. *)
Inductive step (delay W : Z) : Cluster → Cluster → Prop :=
| step_begin c owner t now limit :
    inflight c !! owner = None →
    now ≤ W → W ≤ t + delay →
    step delay W c
      (mkCluster (committed c)
         (<[owner := mkTxn now limit (t + delay)
                       (candidates ∅ now (committed c)).*1 []]> (inflight c))
         (handed_out c))
| step_skip c owner tx k rest :
    inflight c !! owner = Some tx →
    txn_todo tx = k :: rest →
    (length (txn_locked tx) < txn_limit tx)%nat →
    locked_by_other owner k c ∨ ¬ still_available (txn_now tx) k c →
    step delay W c
      (mkCluster (committed c) (<[owner := visit tx rest (txn_locked tx)]> (inflight c))
         (handed_out c))
| step_lock c owner tx k rest :
    inflight c !! owner = Some tx →
    txn_todo tx = k :: rest →
    (length (txn_locked tx) < txn_limit tx)%nat →
    ¬ locked_by_other owner k c →
    still_available (txn_now tx) k c →
    step delay W c
      (mkCluster (committed c)
         (<[owner := visit tx rest (txn_locked tx ++ [k])]> (inflight c))
         (handed_out c))
| step_commit c owner tx :
    inflight c !! owner = Some tx →
    txn_todo tx = [] ∨ length (txn_locked tx) = txn_limit tx →
    step delay W c
      (mkCluster (lease_rows (txn_locked tx) owner (txn_until tx) (committed c))
         (delete owner (inflight c))
         (handed_out c ++ ((λ k, (owner, k)) <$> txn_locked tx)))
| step_abort c owner tx :
    inflight c !! owner = Some tx →
    step delay W c (mkCluster (committed c) (delete owner (inflight c)) (handed_out c)).

Definition quiet (c : Cluster) : Prop := inflight c = ∅ ∧ handed_out c = [].

(** What holds of every state of such a run: a row handed out carries its
    owner and a lease that outlasts the run; no row is locked by two
    transactions; a locked row has not been handed out; locked rows exist. *)
Record race_inv (W : Z) (c : Cluster) : Prop := mkRaceInv {
  inv_handed : ∀ o k, (o, k) ∈ handed_out c →
    ∃ r u, committed c !! k = Some r ∧ acquired_by r = Some o ∧
           acquired_until r = Some u ∧ W ≤ u;
  inv_disjoint : ∀ o1 o2 tx1 tx2 k,
    inflight c !! o1 = Some tx1 → inflight c !! o2 = Some tx2 →
    k ∈ txn_locked tx1 → k ∈ txn_locked tx2 → o1 = o2;
  inv_fresh : ∀ o tx k o',
    inflight c !! o = Some tx → k ∈ txn_locked tx → (o', k) ∉ handed_out c;
  inv_window : ∀ o tx, inflight c !! o = Some tx → txn_now tx ≤ W ∧ W ≤ txn_until tx;
  inv_rows : ∀ o tx k,
    inflight c !! o = Some tx → k ∈ txn_locked tx → is_Some (committed c !! k)
}.

(** The cluster in which [owner] runs the only open transaction. *)
Definition alone (tbl : ScheduleTable) (owner : string) (tx : Txn)
  (out : list (string * string)) : Cluster :=
  mkCluster tbl {[ owner := tx ]} out.

(** ** The notification listener *)

Module Listener.

(** What the listener asks of the connection pool, in order. *)
Inductive Action :=
| Acquire          (* self.pool.acquire() *)
| AddListener      (* conn.add_listener(channel, callback) *)
| Select1          (* conn.execute('SELECT 1') *)
| RemoveListener   (* conn.remove_listener(channel, callback) *)
| Release.         (* leaving [async with self.pool.acquire()] *)

Global Instance Action_eq_dec : EqDecision Action.
Proof. solve_decision. Defined.

(** How a block of statements ends. *)
Inductive Completion :=
| Normal      (* ran to its end *)
| Raised      (* an exception is propagating *)
| Pending.    (* still running when the script of answers ran out *)

(** The state of a run: the answers the backend will give to the next calls
    ([true]: the call succeeds, [false]: it raises) and the calls made. *)
Definition Run : Type := list bool * list Action.

Definition call (a : Action) (st : Run) : Completion * Run :=
  match st.1 with
  | [] => (Pending, st)
  | true :: answers => (Normal, (answers, st.2 ++ [a]))
  | false :: answers => (Raised, (answers, st.2 ++ [a]))
  end.

(** [while True: await sleep(self.max_idle_time); await conn.execute('SELECT 1')] *)
Fixpoint keep_alive (fuel : nat) (st : Run) : Completion * Run :=
  match fuel with
  | O => (Pending, st)
  | S fuel' =>
      match call Select1 st with
      | (Normal, st') => keep_alive fuel' st'
      | stop => stop
      end
  end.

(** [try: body finally: conn.remove_listener(...)]: the finally block runs
    when the body is left, and an exception of its own replaces the one in
    flight. *)
Definition try_finally (body : Run → Completion * Run) (st : Run) : Completion * Run :=
  match body st with
  | (Pending, st') => (Pending, st')
  | (c, st') =>
      match call RemoveListener st' with
      | (Normal, st'') => (c, st'')
      | stop => stop
      end
  end.

(** [async with self.pool.acquire() as conn: body] *)
Definition with_connection (body : Run → Completion * Run) (st : Run) : Completion * Run :=
  match call Acquire st with
  | (Normal, st') =>
      match body st' with
      | (Pending, st'') => (Pending, st'')
      | (c, st'') =>
          match call Release st'' with
          | (Normal, st''') => (c, st''')
          | stop => stop
          end
      end
  | stop => stop
  end.

Definition session (fuel : nat) (st : Run) : Completion * Run :=
  with_connection
    (λ st', match call AddListener st' with
            | (Normal, st'') => try_finally (keep_alive fuel) st''
            | stop => stop
            end) st.

(** The outer [while True:] - its body is run again only if it ended
    normally; an exception leaves the loop and the coroutine. *)
Fixpoint listen_notifications (fuel : nat) (st : Run) : Completion * Run :=
  match fuel with
  | O => (Pending, st)
  | S fuel' =>
      match session fuel st with
      | (Normal, st') => listen_notifications fuel' st'
      | stop => stop
      end
  end.

(** A run on a script: enough fuel for every answer. *)
Definition run (answers : list bool) : Completion * list Action :=
  let r := listen_notifications (S (length answers)) (answers, []) in (r.1, r.2.2).

Definition subscriptions (trace : list Action) : nat :=
  length (filter (λ a, a = AddListener) trace).

End Listener.

(** ** Schema setup *)

Module Schema.

(** The three relations of the store as the engine's catalogue has them: a
    relation that exists has rows and a list of indexed columns. *)
Record Catalog := mkCatalog {
  metadata : option (list Z);                          (* rows of schema_version *)
  schedules_rel : option (ScheduleTable * list string);
  jobs_rel : option (JobTable * list string)
}.

(** [DROP TABLE IF EXISTS] *)
Definition drop_schedules (c : Catalog) : Catalog := mkCatalog (metadata c) None (jobs_rel c).
Definition drop_jobs (c : Catalog) : Catalog := mkCatalog (metadata c) (schedules_rel c) None.
Definition drop_metadata (c : Catalog) : Catalog := mkCatalog None (schedules_rel c) (jobs_rel c).

(** [CREATE TABLE IF NOT EXISTS metadata] *)
Definition create_metadata (c : Catalog) : Catalog :=
  match metadata c with
  | Some _ => c
  | None => mkCatalog (Some []) (schedules_rel c) (jobs_rel c)
  end.

(** [fetchval("SELECT schema_version FROM metadata")]: the first column of
    the first row, [None] without a row. *)
Definition fetch_version (c : Catalog) : option Z :=
  match metadata c with
  | Some (v :: _) => Some v
  | _ => None
  end.

(** [INSERT INTO metadata VALUES (1)] *)
Definition insert_version (v : Z) (c : Catalog) : Catalog :=
  mkCatalog (option_map (λ rows, rows ++ [v]) (metadata c)) (schedules_rel c) (jobs_rel c).

(** [CREATE TABLE schedules (...)], without IF NOT EXISTS: SQLSTATE 42P07
    when the relation is there. *)
Definition create_schedules (c : Catalog) : Outcome Catalog :=
  match schedules_rel c with
  | Some _ => Raise (PostgresError "42P07")
  | None => Ok (mkCatalog (metadata c) (Some (∅, [])) (jobs_rel c))
  end.

Definition create_jobs (c : Catalog) : Outcome Catalog :=
  match jobs_rel c with
  | Some _ => Raise (PostgresError "42P07")
  | None => Ok (mkCatalog (metadata c) (schedules_rel c) (Some (∅, [])))
  end.

(** [CREATE INDEX ON schedules (column)] *)
Definition index_schedules (column : string) (c : Catalog) : Catalog :=
  mkCatalog (metadata c)
    (option_map (λ rel : ScheduleTable * list string, (rel.1, rel.2 ++ [column]))
       (schedules_rel c))
    (jobs_rel c).

Definition index_jobs (column : string) (c : Catalog) : Catalog :=
  mkCatalog (metadata c) (schedules_rel c)
    (option_map (λ rel : JobTable * list string, (rel.1, rel.2 ++ [column])) (jobs_rel c)).

(** The body of the transaction of [_setup]. *)
Definition setup_body (cfg : Config) (c : Catalog) : Outcome Catalog :=
  let c :=
    if start_from_scratch cfg
    then drop_metadata (drop_jobs (drop_schedules c))
    else c in
  let c := create_metadata c in
  match fetch_version c with
  | None =>
      let c := insert_version 1 c in
      match create_schedules c with
      | Raise e => Raise e
      | Ok c =>
          let c := index_schedules "next_fire_time" c in
          match create_jobs c with
          | Raise e => Raise e
          | Ok c => Ok (index_jobs "tags" (index_jobs "task_id" c))
          end
      end
  | Some version =>
      if bool_decide (version > 1)
      then Raise (RuntimeError "Unexpected schema version")
      else Ok c
  end.

(** [_setup]: the body in one transaction; an exception rolls everything
    back. *)
Definition setup (cfg : Config) (c : Catalog) : Outcome unit * Catalog :=
  match setup_body cfg c with
  | Ok c' => (Ok tt, c')
  | Raise e => (Raise e, c)
  end.

(** The catalogue as a completed setup leaves it, whatever rows the two work
    tables have gathered since. *)
Definition installed (c : Catalog) : Prop :=
  ∃ (s : ScheduleTable) (j : JobTable),
    c = mkCatalog (Some [1]) (Some (s, ["next_fire_time"%string]))
          (Some (j, ["task_id"%string; "tags"%string])).

(** The catalogue right after a first setup. *)
Definition fresh : Catalog :=
  mkCatalog (Some [1]) (Some (∅, ["next_fire_time"%string]))
    (Some (∅, ["task_id"%string; "tags"%string])).

(** A database without any of the three relations. *)
Definition blank : Catalog := mkCatalog None None None.

End Schema.

(** ** Vocabulary of the statements below *)

Section Vocabulary.
Context `{Serializer} `{Engine} (cfg : Config).

(** The statements [add_schedule] has sent when it returns normally. *)
Definition add_schedule_sent (texts : list string) (s : Schedule) (data : bytes)
  (w : World) : list Statement :=
  let args := [schedule_params (schedule_id s) data (schedule_task_id s)
                 (schedule_next_fire_time s)] in
  (sent w ++ ((λ q, mkStatement q args) <$> texts))
  ++ (if truthy (notify_channel cfg)
      then [mkStatement
              ("NOTIFY " +:+ default EmptyString (notify_channel cfg) +:+ ", 'schedule'") [[]]]
      else []).

(** The partition of a batch made by [release_schedules]: a schedule is
    still active when it has a next fire time and serializes. *)
Definition still_active (s : Schedule) : bool :=
  match schedule_next_fire_time s, serialize s with
  | Some _, Some _ => true
  | _, _ => false
  end.

(** A schedule with a next fire time that does not serialize. *)
Definition unserializable (s : Schedule) : bool :=
  match schedule_next_fire_time s, serialize s with
  | Some _, None => true
  | _, _ => false
  end.

Definition release_update_args (batch : list Schedule) : list UpdateArg :=
  omap (λ s, if still_active s
             then (λ data, (data, schedule_next_fire_time s, schedule_id s)) <$> serialize s
             else None) batch.

Definition release_update_events (now : Z) (batch : list Schedule) : list Event :=
  (λ s, ScheduleUpdated now (schedule_id s) (schedule_next_fire_time s))
    <$> filter (λ s, still_active s) batch.

Definition release_finished_ids (batch : list Schedule) : list string :=
  schedule_id <$> filter (λ s, ¬ still_active s) batch.

(** [ScheduleRemoved] events stamped with successive clock readings, the
    first being reading number [n]. *)
Definition removed_events (clock : nat → Z) (n : nat) (ids : list string) : list Event :=
  imap (λ i sid, ScheduleRemoved (clock (n + i)%nat) sid) ids.

(** What [release_schedules] publishes when it returns normally, from the
    batch and the clock alone. *)
Definition release_events (clock : nat → Z) (n : nat) (batch : list Schedule) : list Event :=
  release_update_events (clock n) batch
  ++ removed_events clock (S n) (release_finished_ids batch).

(** The table after the two statements of [release_schedules], or the error
    code of the engine. *)
Definition released_table (scheduler_id : string) (batch : list Schedule)
  (tbl : ScheduleTable) : ScheduleTable + string :=
  let update_args := release_update_args batch in
  let finished := release_finished_ids batch in
  let delete (t : ScheduleTable) : ScheduleTable :=
    if nonempty finished
    then filter (λ kr, ¬ owned_among finished scheduler_id kr) t
    else t in
  if nonempty update_args then
    match sql_string_constant (py_repr scheduler_id) with
    | Some owner => inl (delete (foldl (update_released owner) tbl update_args))
    | None =>
        match execute_other_text (release_update_text cfg scheduler_id) update_args tbl with
        | inl t => inl (delete t)
        | inr sqlstate => inr sqlstate
        end
    end
  else inl (delete tbl).

(** The statements [release_schedules] sends when it returns normally. *)
Definition release_statements (scheduler_id : string) (batch : list Schedule) :
  list Statement :=
  let update_args := release_update_args batch in
  let finished := release_finished_ids batch in
  (if nonempty update_args
   then [mkStatement (release_update_text cfg scheduler_id) (update_params <$> update_args)]
   else [])
  ++ (if nonempty finished
      then [mkStatement (release_delete_text cfg) [[PTextArray finished; PText scheduler_id]]]
      else [])
  ++ (if nonempty update_args && truthy (notify_channel cfg)
      then [mkStatement
              ("NOTIFY " +:+ default EmptyString (notify_channel cfg) +:+ ", 'schedule'") [[]]]
      else []).

End Vocabulary.

(** ** A serializer, an engine and a world to run the store on

    Stand-ins for [PickleSerializer] and for a PostgreSQL server, used where
    the model is executed: a schedule whose state is the text
    [unpicklable] does not serialize, and the engine rejects every UPDATE
    text it cannot read (SQLSTATE 42601). *)

Definition sample_serialize (s : Schedule) : option bytes :=
  if String.eqb (schedule_state s) "unpicklable" then None
  else Some (list_byte_of_string (schedule_id s)).

Definition sample_deserialize (b : bytes) : option Schedule :=
  match b with
  | [] => None
  | _ => Some (mkSchedule (string_of_list_byte b) "task" None EmptyString)
  end.

Definition sample_serializer : Serializer :=
  {| serialize := sample_serialize; deserialize := sample_deserialize |}.

Definition strict_engine : Engine :=
  {| execute_other_text := λ _ _ _, inr "42601" |}.

Definition sample_config : Config := mkConfig "public" (Some "apscheduler") 30 false.

Definition sample_row (fire : option Z) (owner : option string) (until : option Z) :
  ScheduleRow :=
  mkScheduleRow "task" [] fire owner until.

(** Three schedules: [s2] is held by [A] until 8, the others are free. *)
Definition sample_schedules : ScheduleTable :=
  <["s1" := sample_row (Some 5) None None]>
    (<["s2" := sample_row (Some 3) (Some "A") (Some 8)]>
       (<["s3" := sample_row (Some 4) None None]> ∅)).

(** The same three schedules, all leased to [A] until 100. *)
Definition held_schedules : ScheduleTable :=
  <["s1" := sample_row (Some 5) (Some "A") (Some 100)]>
    (<["s2" := sample_row (Some 3) (Some "A") (Some 100)]>
       (<["s3" := sample_row (Some 4) (Some "A") (Some 100)]> ∅)).

(** A batch to release: [s2] fires again at 50, [s1] is finished, [s3] has a
    next fire time but does not serialize. *)
Definition sample_batch : list Schedule :=
  [mkSchedule "s2" "task" (Some 50) EmptyString;
   mkSchedule "s1" "task" None EmptyString;
   mkSchedule "s3" "task" (Some 60) "unpicklable"].

(** Two owners whose names differ by one backslash. *)
Definition one_backslash : string := "a\b".
Definition two_backslashes : string := "a\\b".

(** A world whose clock shows 10, 11, 12, ... *)
Definition sample_world (tbl : ScheduleTable) (j : JobTable) : World :=
  mkWorld tbl j (λ n, 10 + Z.of_nat n) 0 [] [] [].

(** The same configuration with [start_from_scratch=True]. *)
Definition scratch (cfg : Config) : Config :=
  mkConfig (schema cfg) (notify_channel cfg) (lock_expiration_delay cfg) true.

(** A database where setup has completed and schedules were added. *)
Definition in_use : Schema.Catalog :=
  Schema.mkCatalog (Some [1]) (Some (sample_schedules, ["next_fire_time"%string]))
    (Some (∅, ["task_id"%string; "tags"%string])).

(** A database of a later release: the same relations, version 2. *)
Definition later_release : Schema.Catalog :=
  Schema.mkCatalog (Some [2]) (Some (sample_schedules, ["next_fire_time"%string]))
    (Some (∅, ["task_id"%string; "tags"%string])).

(** * The rest of the store *)

(** ** The job store *)

(** Modelled from the spec: the [Serializer] capability applied to jobs. *)
Class JobSerializer := {
  serialize_job : Job → option bytes;
  deserialize_job : bytes → option Job
}.

(** [acquired_until IS NULL OR acquired_until < $1] *)
Definition job_lease_free (now : Z) (r : JobRow) : bool :=
  match job_row_acquired_until r with
  | None => true
  | Some u => bool_decide (u < now)
  end.

(** [ORDER BY created_at]; the column is NOT NULL. *)
Definition created_le (x y : N * JobRow) : Prop :=
  job_row_created_at x.2 ≤ job_row_created_at y.2.

Global Instance created_le_dec x y : Decision (created_le x y).
Proof. unfold created_le. apply _. Defined.

Definition job_candidates (now : Z) (tbl : JobTable) : list (N * JobRow) :=
  merge_sort created_le (filter (λ kr, job_lease_free now kr.2) (map_to_list tbl)).

(** [FETCH FIRST $2 ROWS ONLY]: [limit=None] is bound as NULL, which puts no
    bound on the number of rows. *)
Definition fetch_first {A} (limit : option nat) (rows : list A) : list A :=
  match limit with
  | Some n => take n rows
  | None => rows
  end.

(** The common table expression [job_ids]. *)
Definition job_ids (now : Z) (limit : option nat) (tbl : JobTable) : list N :=
  (fetch_first limit (job_candidates now tbl)).*1.

(** [UPDATE jobs SET acquired_by = $3, acquired_until = $4
     WHERE id IN (SELECT id FROM job_ids)] *)
Definition lease_job (owner : string) (until : Z) (r : JobRow) : JobRow :=
  mkJobRow (job_row_serialized_data r) (job_row_task_id r) (job_row_tags r)
    (job_row_created_at r) (Some owner) (Some until).

Definition lease_jobs (ids : list N) (owner : string) (until : Z) (tbl : JobTable) :
  JobTable :=
  map_imap (λ k r, Some (if decide (k ∈ ids) then lease_job owner until r else r)) tbl.

(** [RETURNING serialized_data] of that UPDATE. *)
Definition leased_job_data (ids : list N) (tbl : JobTable) : list bytes :=
  (λ kr : N * JobRow, job_row_serialized_data kr.2)
    <$> filter (λ kr : N * JobRow, kr.1 ∈ ids) (map_to_list tbl).

(** [ORDER BY id] on the UUID column. *)
Definition uuid_le (x y : N * JobRow) : Prop := (x.1 ≤ y.1)%N.

Global Instance uuid_le_dec x y : Decision (uuid_le x y).
Proof. unfold uuid_le. apply _. Defined.

(** [if ids:] - [None] and an empty collection are falsy. *)
Definition some_ids {A} (ids : option (list A)) : bool :=
  match ids with
  | Some (_ :: _) => true
  | _ => false
  end.

(** The WHERE clause that [get_jobs] and [get_schedules] add under
    [if ids:], and no condition otherwise. *)
Definition requested {A} (ids : option (list A)) (k : A) : Prop :=
  if some_ids ids then k ∈ default [] ids else True.

Global Instance requested_dec {A} `{EqDecision A} (ids : option (list A)) (k : A) :
  Decision (requested ids k).
Proof. unfold requested. destruct (some_ids ids); apply _. Defined.

(** The rows a [get_jobs] query returns, in its order. *)
Definition selected_jobs (ids : option (list N)) (tbl : JobTable) : list (N * JobRow) :=
  merge_sort uuid_le (filter (λ kr, requested ids kr.1) (map_to_list tbl)).

(** The order of [ORDER BY id] on the TEXT column [schedules.id] is the
    collation of the database: any decidable total preorder on texts. *)
Class Collation := {
  collate : string → string → Prop;
  collate_dec :: RelDecision collate;
  collate_total :: Total collate;
  collate_trans :: Transitive collate
}.

Definition id_le `{Collation} (x y : string * ScheduleRow) : Prop := collate x.1 y.1.

Global Instance id_le_dec `{Collation} x y : Decision (id_le x y).
Proof. unfold id_le. apply _. Defined.

(** The rows a [get_schedules] query returns, in its order. *)
Definition selected_schedules `{Collation} (ids : option (list string))
  (tbl : ScheduleTable) : list (string * ScheduleRow) :=
  merge_sort id_le (filter (λ kr, requested ids kr.1) (map_to_list tbl)).

Section JobStore.
Context `{Serializer} `{JobSerializer} `{Collation} (cfg : Config).

(** *** clear *)

Definition truncate_schedules_text : string :=
  "TRUNCATE TABLE " +:+ schema cfg +:+ ".schedules".

Definition truncate_jobs_text : string :=
  "TRUNCATE TABLE " +:+ schema cfg +:+ ".jobs".

Definition clear : M unit :=
  transaction (
    let* _ := send truncate_schedules_text [[]] in
    let* _ := (λ w, (Ok tt, set_schedules ∅ w)) in
    let* _ := send truncate_jobs_text [[]] in
    λ w, (Ok tt, set_jobs ∅ w)).

(** *** get_schedules *)

Definition get_schedules_text (ids : option (list string)) : string :=
  "SELECT serialized_data FROM " +:+ schema cfg +:+ ".schedules"
  +:+ (if some_ids ids then " WHERE id = any($1::text[])" else EmptyString)
  +:+ " ORDER BY id".

Definition get_schedules (ids : option (list string)) : M (list Schedule) :=
  let* _ := send (get_schedules_text ids)
              [if some_ids ids then [PTextArray (default [] ids)] else []] in
  let* records :=
    (λ w, (Ok ((λ kr : string * ScheduleRow, serialized_data kr.2)
                 <$> selected_schedules ids (schedules w)), w)) in
  deserialize_all records.

(** *** add_job *)

Definition add_job_text : string :=
  "INSERT INTO " +:+ schema cfg +:+ ".jobs (id, task_id, created_at, serialized_data, "
  +:+ "tags) VALUES($1, $2, $3, $4, $5)".

(** The INSERT of [add_job]; the UUID is bound as the number the model takes
    it for. *)
Definition insert_job (job : Job) (now : Z) (data : bytes) : M unit :=
  let* _ := send add_job_text
              [[PInt (Z.of_N (job_id job)); PText (job_task_id job); PTime (Some now);
                PBytes data; PTextArray (job_tags job)]] in
  λ w, match jobs w !! job_id job with
       | Some _ => (Raise UniqueViolationError, w)
       | None =>
           (Ok tt,
            set_jobs (<[job_id job :=
                          mkJobRow data (job_task_id job) (job_tags job) now None None]>
                        (jobs w)) w)
       end.

(** The arguments of [pool.execute] are evaluated before the call: a job that
    does not serialize raises before anything is sent. *)
Definition add_job (job : Job) : M unit :=
  let* now := read_clock in
  let* data :=
    match serialize_job job with
    | Some data => ret data
    | None => raise SerializationError
    end in
  let* _ := insert_job job now data in
  let* _ := publish (JobAdded now (job_id job) (job_task_id job) (job_schedule_id job)) in
  when (truthy (notify_channel cfg)) (notify cfg "job").

(** *** get_jobs *)

Fixpoint deserialize_jobs (records : list bytes) : M (list Job) :=
  match records with
  | [] => ret []
  | record :: rest =>
      match deserialize_job record with
      | Some job => let* others := deserialize_jobs rest in ret (job :: others)
      | None => raise DeserializationError
      end
  end.

Definition get_jobs_text (ids : option (list N)) : string :=
  "SELECT serialized_data FROM " +:+ schema cfg +:+ ".jobs"
  +:+ (if some_ids ids then " WHERE id = any($1::uuid[])" else EmptyString)
  +:+ " ORDER BY id".

Definition get_jobs (ids : option (list N)) : M (list Job) :=
  let* _ := send (get_jobs_text ids)
              [if some_ids ids then [PUuidArray (default [] ids)] else []] in
  let* records :=
    (λ w, (Ok ((λ kr : N * JobRow, job_row_serialized_data kr.2)
                 <$> selected_jobs ids (jobs w)), w)) in
  deserialize_jobs records.

(** *** acquire_jobs *)

Definition acquire_jobs_text : string :=
  "
                    WITH job_ids AS (
                        SELECT id FROM " +:+ schema cfg +:+ ".jobs
                        WHERE acquired_until IS NULL OR acquired_until < $1
                        ORDER BY created_at
                        FOR NO KEY UPDATE SKIP LOCKED
                        FETCH FIRST $2 ROWS ONLY
                    )
                    UPDATE " +:+ schema cfg +:+ ".jobs SET acquired_by = $3, acquired_until = $4
                    WHERE id IN (SELECT id FROM job_ids)
                    RETURNING serialized_data
                    ".

(** The value bound to [$2]; [None] goes as NULL. *)
Definition limit_param (limit : option Z) : Param :=
  match limit with
  | Some n => PInt n
  | None => PTime None
  end.

Definition acquire_jobs_statement (now : Z) (limit : option Z) (worker_id : string)
  (acquired_until : Z) : M (list bytes) :=
  let* _ := send acquire_jobs_text
              [[PTime (Some now); limit_param limit; PText worker_id;
                PTime (Some acquired_until)]] in
  λ w, if bool_decide (default 0 limit < 0)%Z then (Raise (PostgresError "2201W"), w)
       else
         let ids := job_ids now (Z.to_nat <$> limit) (jobs w) in
         let tbl := lease_jobs ids worker_id acquired_until (jobs w) in
         (Ok (leased_job_data ids tbl), set_jobs tbl w).

(** The transaction of [acquire_jobs]: one clock reading serves both as [$1]
    and as the start of the lease. *)
Definition acquire_jobs_transaction (worker_id : string) (limit : option Z) :
  M (list bytes) :=
  transaction (
    let* now := read_clock in
    let acquired_until := (now + lock_expiration_delay cfg)%Z in
    acquire_jobs_statement now limit worker_id acquired_until).

Definition acquire_jobs_cycle (worker_id : string) (limit : option Z) : M (list Job) :=
  let* records := acquire_jobs_transaction worker_id limit in
  deserialize_jobs records.

(** The loop, cut after [polls] turns as [acquire_schedules] is. *)
Fixpoint acquire_jobs (polls : nat) (worker_id : string) (limit : option Z) :
  M (option (list Job)) :=
  match polls with
  | O => ret None
  | S polls' =>
      let* found := acquire_jobs_cycle worker_id limit in
      if nonempty found then ret (Some found)
      else acquire_jobs polls' worker_id limit
  end.

End JobStore.

(** ** Opening and closing the store *)

Module Lifecycle.

(** What [__aenter__] and [__aexit__] do besides counting, in order. *)
Inductive Did :=
| RanSetup        (* await self._setup() returned *)
| Spawned         (* the task group was entered and the listener spawned *)
| Cancelled.      (* the task group was cancelled and left *)

Global Instance Did_eq_dec : EqDecision Did.
Proof. solve_decision. Defined.

(** The attributes of the store the two methods touch, and the database
    [_setup] acts on.  An event attribute is [None] when the instance has
    none (the class attribute [None] shows), else an [asyncio.Event], set or
    not. *)
Record Handle := mkHandle {
  loans : nat;
  schedules_event : option bool;
  jobs_event : option bool;
  listening : bool;
  database : Schema.Catalog;
  history : list Did
}.

Inductive Failure :=
| NotAsyncio (asynclib : string)   (* RuntimeError: This data store requires asyncio *)
| SetupFailed (e : Exn)            (* whatever [_setup] raised *)
| AssertionError.                  (* assert self._loans *)

(** [sniffio.current_async_library() or '(unknown)'] *)
Definition or_unknown (asynclib : option string) : string :=
  match asynclib with
  | Some (String c rest) => String c rest
  | _ => "(unknown)"
  end.

Definition aenter (cfg : Config) (asynclib : option string) (h : Handle) :
  option Failure * Handle :=
  let lib := or_unknown asynclib in
  if negb (String.eqb lib "asyncio") then (Some (NotAsyncio lib), h)
  else
    let prepared :=
      if decide (loans h = O) then
        let h1 := mkHandle (loans h) (Some false) (Some false) (listening h) (database h)
                    (history h) in
        match Schema.setup cfg (database h) with
        | (Ok _, db) =>
            inl (mkHandle (loans h1) (schedules_event h1) (jobs_event h1) (listening h1) db
                   (history h1 ++ [RanSetup]))
        | (Raise e, _) => inr (e, h1)
        end
      else inl h in
    match prepared with
    | inr (e, h1) => (Some (SetupFailed e), h1)
    | inl h1 =>
        let n := S (loans h1) in
        if bool_decide (n = 1%nat) && truthy (notify_channel cfg)
        then (None, mkHandle n (schedules_event h1) (jobs_event h1) true (database h1)
                      (history h1 ++ [Spawned]))
        else (None, mkHandle n (schedules_event h1) (jobs_event h1) (listening h1)
                      (database h1) (history h1))
    end.

Definition aexit (cfg : Config) (h : Handle) : option Failure * Handle :=
  match loans h with
  | O => (Some AssertionError, h)
  | S n =>
      if bool_decide (n = O) && truthy (notify_channel cfg)
      then (None, mkHandle n None None false (database h) (history h ++ [Cancelled]))
      else (None, mkHandle n (schedules_event h) (jobs_event h) (listening h) (database h)
                    (history h))
  end.

(** A caller's use of the store: [async with store:] blocks entered and
    left. *)
Inductive Use :=
| Enter (asynclib : option string)
| Leave.

(** The uses in order, up to the first that raises. *)
Fixpoint uses (cfg : Config) (us : list Use) (h : Handle) : option Failure * Handle :=
  match us with
  | [] => (None, h)
  | u :: rest =>
      match (match u with Enter lib => aenter cfg lib h | Leave => aexit cfg h end) with
      | (None, h') => uses cfg rest h'
      | failed => failed
      end
  end.

(** A store nobody holds open. *)
Definition closed (h : Handle) : Prop := loans h = O ∧ listening h = false.

End Lifecycle.

(** ** Owners that survive the interpolation

    A text is plain when each of its characters is printable for [repr] and
    is neither a single quote nor a backslash. *)

Definition plain_char (c : ascii) : bool :=
  py_printable c && negb (Ascii.eqb c squote) && negb (Ascii.eqb c backslash).

Fixpoint plain (s : string) : bool :=
  match s with
  | EmptyString => true
  | String c rest => plain_char c && plain rest
  end.

(** ** Stand-ins for the rest of the store

    The byte order of texts (the order of the C collation), a serializer for
    jobs and a few rows, used where the model of the rest of the store is
    executed. *)

Definition byte_order (x y : string) : Prop := String_as_OT.compare x y ≠ Gt.

Global Instance byte_order_dec : RelDecision byte_order.
Proof. intros x y. unfold byte_order. apply _. Defined.

Global Instance byte_order_total : Total byte_order.
Proof.
  intros x y. unfold byte_order.
  destruct (String_as_OT.compare_spec x y) as [Heq|Hlt|Hgt]; [by left|by left|right].
  unfold String_as_OT.lt in Hgt. by rewrite Hgt.
Qed.

Global Instance byte_order_trans : Transitive byte_order.
Proof.
  intros x y z. unfold byte_order.
  destruct (String_as_OT.compare_spec x y) as [->|Hxy|_]; [done| |done].
  destruct (String_as_OT.compare_spec y z) as [<-|Hyz|_]; [|intros _ _|done].
  - intros _ _. unfold String_as_OT.lt in Hxy. by rewrite Hxy.
  - assert (Hxz : String_as_OT.lt x z) by (by etransitivity).
    unfold String_as_OT.lt in Hxz. by rewrite Hxz.
Qed.

Definition c_collation : Collation := {| collate := byte_order |}.

(** A job is stored as one byte for its id followed by its task id; ids
    above 255 and jobs whose state is [unpicklable] do not serialize. *)
Definition sample_serialize_job (j : Job) : option bytes :=
  if String.eqb (job_state j) "unpicklable" then None
  else match Byte.of_N (job_id j) with
       | Some b => Some (b :: list_byte_of_string (job_task_id j))
       | None => None
       end.

Definition sample_deserialize_job (b : bytes) : option Job :=
  match b with
  | [] => None
  | first :: rest =>
      Some (mkJob (Byte.to_N first) (string_of_list_byte rest) None [] EmptyString)
  end.

Definition sample_job_serializer : JobSerializer :=
  {| serialize_job := sample_serialize_job; deserialize_job := sample_deserialize_job |}.

Definition sample_job (id : N) : Job := mkJob id "task" None [] EmptyString.

Definition sample_job_row (id : N) (created : Z) (owner : option string)
  (until : option Z) : JobRow :=
  mkJobRow (default [] (sample_serialize_job (sample_job id))) "task" [] created owner until.

(** Three jobs: job 2 is the oldest and free, job 1 is held by [W] until 100,
    job 3 is the newest and free. *)
Definition sample_jobs : JobTable :=
  <[1%N := sample_job_row 1 4 (Some "W") (Some 100)]>
    (<[2%N := sample_job_row 2 3 None None]>
       (<[3%N := sample_job_row 3 5 None None]> ∅)).

(** A schedule the sample serializer gives back as it was. *)
Definition new_schedule : Schedule := mkSchedule "s9" "task" None EmptyString.

(** ** What a well-kept store looks like

    How often something was done, by the history of a handle; and the
    handle of a store whose listener runs exactly while somebody holds the
    store open with a channel configured: every listener spawned has been
    cancelled, but for the one that is running. *)

Definition times (d : Lifecycle.Did) (l : list Lifecycle.Did) : nat :=
  length (filter (λ x, x = d) l).

Definition well_kept (cfg : Config) (h : Lifecycle.Handle) : Prop :=
  Lifecycle.listening h
    = bool_decide (0 < Lifecycle.loans h)%nat && truthy (notify_channel cfg) ∧
  times Lifecycle.Spawned (Lifecycle.history h)
    = (times Lifecycle.Cancelled (Lifecycle.history h)
       + (if Lifecycle.listening h then 1 else 0))%nat.

(** A store that was never opened, on a blank database. *)
Definition unopened : Lifecycle.Handle :=
  Lifecycle.mkHandle 0 None None false Schema.blank [].

(** A database where the metadata table has its row but no work table
    exists, and one where a work table exists without the row. *)
Definition version_only : Schema.Catalog := Schema.mkCatalog (Some [1]) None None.

Definition tables_only : Schema.Catalog :=
  Schema.mkCatalog None (Some (sample_schedules, ["next_fire_time"%string])) None.

(** * Properties *)

(** Unfolds the plumbing of the monad so that a method applied to a world
    computes. *)
Ltac run_store :=
  unfold bind, ret, raise, transaction, try_unique_violation, when, send,
    read_clock, publish, notify, log_exception, set_schedules, set_jobs; simpl.

Lemma for_each_publish {A} (f : A → Event) (l : list A) (w : World) :
  for_each (λ x, publish (f x)) l w =
  (Ok tt, mkWorld (schedules w) (jobs w) (clock w) (clock_reads w)
            (published w ++ (f <$> l)) (sent w) (logged w)).
Proof.
  revert w. induction l as [|x l IH]; intros w; simpl.
  - unfold ret. rewrite app_nil_r. by destruct w.
  - unfold bind, publish at 1. rewrite IH. simpl. by rewrite <- app_assoc.
Qed.

(** ** add_schedule *)

Section AddSchedule.
Context `{Serializer} `{Engine} (cfg : Config).

Lemma add_schedule_unserializable (s : Schedule) (policy : ConflictPolicy) (w : World) :
  serialize s = None → add_schedule cfg s policy w = (Raise SerializationError, w).
Proof. intros Hser. unfold add_schedule. run_store. by rewrite Hser. Qed.

Lemma add_schedule_exception_run (s : Schedule) (data : bytes) (r : ScheduleRow) (w : World) :
  serialize s = Some data →
  schedules w !! schedule_id s = Some r →
  add_schedule cfg s exception w =
  (Raise (ConflictingIdError (schedule_id s)),
   mkWorld (schedules w) (jobs w) (clock w) (clock_reads w) (published w)
     (sent w ++ [mkStatement (insert_text cfg)
                   [schedule_params (schedule_id s) data (schedule_task_id s)
                      (schedule_next_fire_time s)]])
     (logged w)).
Proof.
  intros Hser Hrow. unfold add_schedule, insert_schedule. run_store.
  rewrite Hser. simpl. by rewrite Hrow.
Qed.

Lemma add_schedule_replace_run (s : Schedule) (data : bytes) (r : ScheduleRow) (w : World) :
  serialize s = Some data →
  schedules w !! schedule_id s = Some r →
  add_schedule cfg s replace w =
  (Ok tt,
   mkWorld
     (alter (replace_row data (schedule_task_id s) (schedule_next_fire_time s))
        (schedule_id s) (schedules w))
     (jobs w) (clock w) (S (clock_reads w))
     (published w ++ [ScheduleUpdated (clock w (clock_reads w)) (schedule_id s)
                        (schedule_next_fire_time s)])
     (add_schedule_sent cfg [insert_text cfg; replace_text cfg] s data w)
     (logged w)).
Proof.
  intros Hser Hrow. unfold add_schedule, insert_schedule, replace_schedule, add_schedule_sent.
  run_store. rewrite Hser. simpl. rewrite Hrow. simpl.
  destruct (truthy (notify_channel cfg)); unfold ret, send; simpl;
    rewrite <- ?app_assoc, ?app_nil_r; simpl; reflexivity.
Qed.

Lemma add_schedule_fresh_run (s : Schedule) (data : bytes) (policy : ConflictPolicy)
  (w : World) :
  serialize s = Some data →
  schedules w !! schedule_id s = None →
  add_schedule cfg s policy w =
  (Ok tt,
   mkWorld
     (<[schedule_id s :=
          mkScheduleRow (schedule_task_id s) data (schedule_next_fire_time s) None None]>
        (schedules w))
     (jobs w) (clock w) (S (clock_reads w))
     (published w ++ [ScheduleAdded (clock w (clock_reads w)) (schedule_id s)
                        (schedule_next_fire_time s)])
     (add_schedule_sent cfg [insert_text cfg] s data w)
     (logged w)).
Proof.
  intros Hser Hrow. unfold add_schedule, insert_schedule, add_schedule_sent.
  run_store. rewrite Hser. simpl. rewrite Hrow. simpl.
  destruct (truthy (notify_channel cfg)); unfold ret, send; simpl;
    rewrite <- ?app_assoc, ?app_nil_r; simpl; reflexivity.
Qed.

(** C3.  For a schedule that serializes: when its id is already in the
    store, policy [exception] raises [ConflictingIdError] with that id and
    leaves the table as it was (nothing is published); policy [replace]
    overwrites payload, task id and next fire time of that row, keeps its
    lease columns and every other row, and publishes exactly one
    [ScheduleUpdated] (no [ScheduleAdded]); when the id is new, the row is
    inserted without a lease under every policy and exactly one
    [ScheduleAdded] is published. *)
Theorem add_schedule_conflict_policy (s : Schedule) (data : bytes) (w : World) :
  serialize s = Some data →
  let sid := schedule_id s in
  let task := schedule_task_id s in
  let fire := schedule_next_fire_time s in
  let t := clock w (clock_reads w) in
  (∀ r, schedules w !! sid = Some r →
     let res := add_schedule cfg s exception w in
     res.1 = Raise (ConflictingIdError sid) ∧
     schedules res.2 = schedules w ∧
     published res.2 = published w) ∧
  (∀ r, schedules w !! sid = Some r →
     let res := add_schedule cfg s replace w in
     res.1 = Ok tt ∧
     schedules res.2 !! sid
       = Some (mkScheduleRow task data fire (acquired_by r) (acquired_until r)) ∧
     (∀ k, k ≠ sid → schedules res.2 !! k = schedules w !! k) ∧
     published res.2 = published w ++ [ScheduleUpdated t sid fire]) ∧
  (∀ policy, schedules w !! sid = None →
     let res := add_schedule cfg s policy w in
     res.1 = Ok tt ∧
     schedules res.2 !! sid = Some (mkScheduleRow task data fire None None) ∧
     (∀ k, k ≠ sid → schedules res.2 !! k = schedules w !! k) ∧
     published res.2 = published w ++ [ScheduleAdded t sid fire]).
Proof.
  intros Hser sid task fire t. subst sid task fire t. split; [|split].
  - intros r Hrow. simpl. by rewrite (add_schedule_exception_run s data r w).
  - intros r Hrow. simpl. rewrite (add_schedule_replace_run s data r w) by done. simpl.
    split; [done|]. split; [by rewrite lookup_alter_eq, Hrow|].
    split; [|done]. intros k Hk. by rewrite lookup_alter_ne.
  - intros policy Hrow. simpl. rewrite (add_schedule_fresh_run s data policy w) by done.
    simpl. split; [done|]. split; [by rewrite lookup_insert_eq|].
    split; [|done]. intros k Hk. by rewrite lookup_insert_ne.
Qed.

End AddSchedule.

Lemma add_schedule_conflict_policy_witness :
  let s := mkSchedule "s1" "other task" (Some 7) EmptyString in
  let w := sample_world sample_schedules ∅ in
  @serialize sample_serializer s = Some (list_byte_of_string "s1") ∧
  (@add_schedule sample_serializer sample_config s exception w).1
    = Raise (ConflictingIdError "s1") ∧
  published (@add_schedule sample_serializer sample_config s replace w).2
    = [ScheduleUpdated 10 "s1" (Some 7)].
Proof.
  intros s w.
  assert (Hser : @serialize sample_serializer s = Some (list_byte_of_string "s1"))
    by reflexivity.
  destruct (@add_schedule_conflict_policy sample_serializer sample_config
              s (list_byte_of_string "s1") w Hser) as (Hexc & Hrep & _).
  split; [exact Hser|]. split.
  - exact (proj1 (Hexc (sample_row (Some 5) None None) eq_refl)).
  - exact (proj2 (proj2 (proj2 (Hrep (sample_row (Some 5) None None) eq_refl)))).
Defined.

(** ** remove_schedules *)

Section RemoveSchedules.
Context `{Serializer} `{Engine} (cfg : Config).

Lemma remove_schedules_run (ids : list string) (w : World) :
  let now := clock w (clock_reads w) in
  remove_schedules cfg ids w =
  (Ok tt,
   mkWorld (filter (λ kr, ¬ removable ids now kr) (schedules w)) (jobs w) (clock w)
     (S (clock_reads w))
     (published w
      ++ (ScheduleRemoved now
            <$> (filter (removable ids now) (map_to_list (schedules w))).*1))
     (sent w ++ [mkStatement (remove_text cfg) [[PTextArray ids; PTime (Some now)]]])
     (logged w)).
Proof.
  intros now. unfold remove_schedules, delete_unleased, bind, transaction, read_clock,
    send, ret. simpl. by rewrite for_each_publish.
Qed.

Lemma removed_ids_spec (ids : list string) (now : Z) (tbl : ScheduleTable) (k : string) :
  k ∈ (filter (removable ids now) (map_to_list tbl)).*1 ↔
  ∃ r, tbl !! k = Some r ∧ k ∈ ids ∧ lease_free now r.
Proof.
  rewrite list_elem_of_fmap. split.
  - intros ([k' r] & -> & Hin). apply list_elem_of_filter in Hin as [[Hk Hfree] Hin].
    apply elem_of_map_to_list in Hin. by exists r.
  - intros (r & Hrow & Hk & Hfree). exists (k, r). split; [done|].
    apply list_elem_of_filter. split; [done|]. by apply elem_of_map_to_list.
Qed.

Lemma removed_ids_NoDup (ids : list string) (now : Z) (tbl : ScheduleTable) :
  NoDup (filter (removable ids now) (map_to_list tbl)).*1.
Proof.
  apply NoDup_fmap_fst; [|apply NoDup_filter, NoDup_map_to_list].
  intros k r1 r2 [_ H1]%list_elem_of_filter [_ H2]%list_elem_of_filter.
  apply elem_of_map_to_list in H1, H2. congruence.
Qed.

(** C5.  [remove_schedules] returns normally; a row is gone afterwards
    exactly when its id was requested and its lease was absent or expired
    at the time read in the transaction, every other row is as before; and
    the events published are one [ScheduleRemoved] per deleted id, each id
    once, and nothing else. *)
Theorem remove_schedules_unleased_only (ids : list string) (w : World) :
  let now := clock w (clock_reads w) in
  let res := remove_schedules cfg ids w in
  res.1 = Ok tt ∧
  (∀ k r, schedules w !! k = Some r →
     schedules res.2 !! k = if decide (k ∈ ids ∧ lease_free now r) then None else Some r) ∧
  (∀ k, schedules w !! k = None → schedules res.2 !! k = None) ∧
  ∃ removed,
    published res.2 = published w ++ (ScheduleRemoved now <$> removed) ∧
    NoDup removed ∧
    ∀ k, k ∈ removed ↔ ∃ r, schedules w !! k = Some r ∧ k ∈ ids ∧ lease_free now r.
Proof.
  intros now res. unfold res. rewrite remove_schedules_run. simpl. fold now.
  split; [done|]. split; [|split].
  - intros k r Hrow. rewrite map_lookup_filter, Hrow. simpl.
    unfold removable. simpl. destruct (decide (k ∈ ids ∧ lease_free now r)) as [Hrem|Hrem].
    + by rewrite option_guard_False by tauto.
    + by rewrite option_guard_True.
  - intros k Hrow. by rewrite map_lookup_filter, Hrow.
  - exists (filter (removable ids now) (map_to_list (schedules w))).*1.
    split; [done|]. split; [apply removed_ids_NoDup|]. intros k. apply removed_ids_spec.
Qed.

End RemoveSchedules.

Lemma remove_schedules_unleased_only_witness :
  let w := sample_world sample_schedules ∅ in
  let res := @remove_schedules sample_config ["s1"; "s2"; "s9"] w in
  schedules res.2 !! "s1" = None ∧ schedules res.2 !! "s3" = Some (sample_row (Some 4) None None).
Proof.
  intros w res.
  destruct (remove_schedules_unleased_only sample_config ["s1"; "s2"; "s9"] w)
    as (_ & Hrows & _).
  split.
  - exact (Hrows "s1" (sample_row (Some 5) None None) eq_refl).
  - exact (Hrows "s3" (sample_row (Some 4) None None) eq_refl).
Defined.

(** ** acquire_schedules *)

Global Instance fire_le_total : Total fire_le.
Proof.
  intros x y. unfold fire_le.
  destruct (next_fire_time x.2), (next_fire_time y.2); try tauto. lia.
Qed.

Global Instance fire_le_trans : Transitive fire_le.
Proof.
  intros x y z. unfold fire_le.
  destruct (next_fire_time x.2), (next_fire_time y.2), (next_fire_time z.2);
    try tauto. lia.
Qed.

Lemma fire_due_spec (now : Z) (r : ScheduleRow) :
  fire_due now r ↔ ∃ f, next_fire_time r = Some f ∧ f ≤ now.
Proof.
  unfold fire_due. destruct (next_fire_time r) as [f|].
  - rewrite bool_decide_spec. split; [intros Hf; by exists f|].
    by intros (f' & [= <-] & Hf).
  - split; [done|]. by intros (f' & Hf' & _).
Qed.

Lemma lease_free_spec (now : Z) (r : ScheduleRow) :
  lease_free now r ↔ acquired_until r = None ∨ ∃ u, acquired_until r = Some u ∧ u < now.
Proof.
  unfold lease_free. destruct (acquired_until r) as [u|].
  - rewrite bool_decide_spec. split; [intros Hu; right; by exists u|].
    by intros [Hu|(u' & [= <-] & Hu)].
  - split; [by left|done].
Qed.

Lemma available_spec (now : Z) (r : ScheduleRow) :
  available now r ↔
  (∃ f, next_fire_time r = Some f ∧ f ≤ now) ∧
  (acquired_until r = None ∨ ∃ u, acquired_until r = Some u ∧ u < now).
Proof.
  unfold available. by rewrite andb_True, fire_due_spec, lease_free_spec.
Qed.

Lemma candidates_elem (locked : gset string) (now : Z) (tbl : ScheduleTable) k r :
  (k, r) ∈ candidates locked now tbl ↔ tbl !! k = Some r ∧ available now r ∧ k ∉ locked.
Proof.
  unfold candidates. rewrite merge_sort_Permutation, list_elem_of_filter, elem_of_map_to_list.
  unfold candidate. simpl. tauto.
Qed.

Lemma candidates_sorted (locked : gset string) (now : Z) (tbl : ScheduleTable) :
  StronglySorted fire_le (candidates locked now tbl).
Proof. apply (StronglySorted_merge_sort fire_le). Qed.

Lemma candidates_NoDup (locked : gset string) (now : Z) (tbl : ScheduleTable) :
  NoDup (candidates locked now tbl).*1.
Proof.
  unfold candidates. rewrite merge_sort_Permutation.
  apply NoDup_fmap_fst; [|apply NoDup_filter, NoDup_map_to_list].
  intros k r1 r2 [_ H1]%list_elem_of_filter [_ H2]%list_elem_of_filter.
  apply elem_of_map_to_list in H1, H2. congruence.
Qed.

Lemma candidates_functional (locked : gset string) (now : Z) (tbl : ScheduleTable) k r1 r2 :
  (k, r1) ∈ candidates locked now tbl → (k, r2) ∈ candidates locked now tbl → r1 = r2.
Proof. rewrite !candidates_elem. intros [H1 _] [H2 _]. congruence. Qed.

Lemma lease_rows_lookup (ids : list string) (owner : string) (until : Z)
  (tbl : ScheduleTable) (k : string) :
  lease_rows ids owner until tbl !! k =
  if decide (k ∈ ids) then lease_row owner until <$> tbl !! k else tbl !! k.
Proof.
  unfold lease_rows. rewrite map_lookup_imap.
  destruct (tbl !! k); simpl; by destruct (decide (k ∈ ids)).
Qed.

(** The payloads the UPDATE returns are those of the selected rows. *)
Lemma leased_data_selected (rows : list (string * ScheduleRow)) (owner : string)
  (until : Z) (tbl : ScheduleTable) :
  NoDup rows.*1 →
  (∀ k r, (k, r) ∈ rows → tbl !! k = Some r) →
  leased_data rows.*1 (lease_rows rows.*1 owner until tbl)
    ≡ₚ (λ kr : string * ScheduleRow, serialized_data kr.2) <$> rows.
Proof.
  intros Hnodup Hrows. unfold leased_data.
  set (g := λ kr : string * ScheduleRow, (kr.1, lease_row owner until kr.2)).
  transitivity ((λ kr : string * ScheduleRow, serialized_data kr.2) <$> (g <$> rows)).
  - apply fmap_Permutation, NoDup_Permutation.
    + apply NoDup_filter, NoDup_map_to_list.
    + apply (NoDup_fmap_1 fst). rewrite <- list_fmap_compose. exact Hnodup.
    + intros [k r']. rewrite list_elem_of_filter, elem_of_map_to_list, lease_rows_lookup.
      simpl. split.
      * intros [Hk Hrow]. rewrite decide_True in Hrow by exact Hk.
        apply list_elem_of_fmap in Hk as ([k0 r0] & -> & Hin). simpl in *.
        rewrite (Hrows _ _ Hin) in Hrow. simpl in Hrow. injection Hrow as <-.
        apply list_elem_of_fmap. by exists (k0, r0).
      * intros ([k0 r0] & [= -> ->] & Hin)%list_elem_of_fmap.
        assert (Hk : k0 ∈ rows.*1) by (apply list_elem_of_fmap; by exists (k0, r0)).
        split; [exact Hk|]. rewrite decide_True by exact Hk.
        by rewrite (Hrows _ _ Hin).
  - rewrite <- list_fmap_compose.
    by rewrite (list_fmap_ext _ (λ kr : string * ScheduleRow, serialized_data kr.2)).
Qed.

Section AcquireSchedules.
Context `{Serializer} `{Engine} (cfg : Config).

Lemma acquire_transaction_run (owner : string) (limit : Z) (w : World) :
  0 ≤ limit →
  let now := clock w (S (clock_reads w)) in
  let until := clock w (clock_reads w) + lock_expiration_delay cfg in
  let ids := schedule_ids ∅ now (Z.to_nat limit) (schedules w) in
  let tbl := lease_rows ids owner until (schedules w) in
  acquire_transaction cfg owner limit w =
  (Ok (leased_data ids tbl),
   mkWorld tbl (jobs w) (clock w) (S (S (clock_reads w))) (published w)
     (sent w ++ [mkStatement (acquire_text cfg)
                   [[PTime (Some now); PInt limit; PText owner; PTime (Some until)]]])
     (logged w)).
Proof.
  intros Hlimit now until ids tbl. unfold acquire_transaction, acquire_statement. run_store.
  by rewrite bool_decide_false by lia.
Qed.

(** A negative limit is refused and the transaction leaves no lease. *)
Lemma acquire_transaction_negative (owner : string) (limit : Z) (w : World) :
  limit < 0 →
  (acquire_transaction cfg owner limit w).1 = Raise (PostgresError "2201W") ∧
  schedules (acquire_transaction cfg owner limit w).2 = schedules w.
Proof.
  intros Hlimit. unfold acquire_transaction, acquire_statement. run_store.
  by rewrite bool_decide_true by lia.
Qed.

(** C1.  One transaction of [acquire_schedules] with a limit that is not
    negative commits, and the rows it leases ([rows], in the order of the
    SELECT) are rows of the table that are available at the time [now] bound
    to [$1]: next fire time set and at most [now], lease end NULL or before
    [now]; they are at most [limit], pairwise distinct, in ascending order of
    next fire time, and an available row is left out only when the limit is
    reached by rows that fire no later; afterwards exactly these rows carry
    the caller as [acquired_by] and the first clock reading plus the lease
    duration as [acquired_until], every other row is as before; the payloads
    returned are those of the leased rows.  In particular a row that is due
    and whose lease ended before [now] is available although another owner
    is still recorded in [acquired_by], and is leased to the caller when the
    limit covers all available rows. *)
Theorem acquire_schedules_leases_available (owner : string) (limit : Z) (w : World) :
  0 ≤ limit →
  let now := clock w (S (clock_reads w)) in
  let until := clock w (clock_reads w) + lock_expiration_delay cfg in
  ∃ (rows : list (string * ScheduleRow)) (data : list bytes) (w' : World),
    acquire_transaction cfg owner limit w = (Ok data, w') ∧
    data ≡ₚ (λ kr : string * ScheduleRow, serialized_data kr.2) <$> rows ∧
    (∀ k r, (k, r) ∈ rows →
       schedules w !! k = Some r ∧
       (∃ f, next_fire_time r = Some f ∧ f ≤ now) ∧
       (acquired_until r = None ∨ ∃ u, acquired_until r = Some u ∧ u < now)) ∧
    (length rows ≤ Z.to_nat limit)%nat ∧
    NoDup rows.*1 ∧
    StronglySorted fire_le rows ∧
    (∀ k r, schedules w !! k = Some r → available now r → k ∉ rows.*1 →
       length rows = Z.to_nat limit ∧ Forall (λ kr, fire_le kr (k, r)) rows) ∧
    (∀ k, schedules w' !! k =
          if decide (k ∈ rows.*1) then lease_row owner until <$> schedules w !! k
          else schedules w !! k) ∧
    (∀ k r other u f,
       schedules w !! k = Some r →
       acquired_by r = Some other → acquired_until r = Some u → u < now →
       next_fire_time r = Some f → f ≤ now →
       available now r ∧
       ((length (candidates ∅ now (schedules w)) ≤ Z.to_nat limit)%nat →
        schedules w' !! k = Some (lease_row owner until r))).
Proof.
  intros Hlimit now until.
  set (cands := candidates ∅ now (schedules w)).
  set (n := Z.to_nat limit).
  pose proof (candidates_sorted ∅ now (schedules w)) as Hsorted. fold cands in Hsorted.
  rewrite <- (take_drop n cands) in Hsorted.
  apply StronglySorted_app in Hsorted as (Hcross & Hsorted & _).
  assert (Hfst : NoDup (take n cands).*1).
  { rewrite fmap_take. eapply sublist_NoDup; [|apply sublist_take].
    apply candidates_NoDup. }
  assert (Hin : ∀ k r, (k, r) ∈ take n cands → (k, r) ∈ cands).
  { intros k r Hk. by apply (subseteq_take n cands). }
  exists (take n cands). eexists. eexists.
  split; [apply acquire_transaction_run; exact Hlimit|]. simpl.
  split; [|split; [|split; [|split; [|split; [|split; [|split]]]]]].
  - apply leased_data_selected; [exact Hfst|]. intros k r Hk.
    apply Hin, candidates_elem in Hk. tauto.
  - intros k r Hk. apply Hin, candidates_elem in Hk as (Hrow & Hav & _).
    split; [done|]. by apply available_spec.
  - rewrite length_take. lia.
  - exact Hfst.
  - exact Hsorted.
  - intros k r Hrow Hav Hout.
    assert (Hc : (k, r) ∈ cands) by (apply candidates_elem; set_solver).
    rewrite <- (take_drop n cands) in Hc. apply elem_of_app in Hc as [Hc|Hc].
    { destruct Hout. apply list_elem_of_fmap. by exists (k, r). }
    split.
    + apply length_take_le. destruct (decide (n ≤ length cands)%nat); [done|].
      rewrite drop_ge in Hc by lia. by apply elem_of_nil in Hc.
    + apply Forall_forall. intros kr Hkr. by apply Hcross.
  - intros k. apply lease_rows_lookup.
  - intros k r other u f Hrow Hby Hu Hexp Hf Hdue.
    assert (Hav : available now r) by (apply available_spec; naive_solver).
    split; [done|]. intros Hall. rewrite lease_rows_lookup, Hrow.
    rewrite decide_True; [done|]. apply list_elem_of_fmap. exists (k, r).
    split; [done|]. rewrite take_ge by done. apply candidates_elem. set_solver.
Qed.

(** The loop returns what the first turn that finds schedules returns, and
    an exception of a turn leaves the loop. *)
Lemma acquire_schedules_turn (polls : nat) (owner : string) (limit : Z) (w : World) :
  acquire_schedules cfg (S polls) owner limit w =
  match acquire_cycle cfg owner limit w with
  | (Ok found, w') =>
      if nonempty found then (Ok (Some found), w')
      else acquire_schedules cfg polls owner limit w'
  | (Raise e, w') => (Raise e, w')
  end.
Proof.
  simpl. unfold bind at 1.
  destruct (acquire_cycle cfg owner limit w) as [[found|e] w']; [|done].
  by destruct (nonempty found).
Qed.

End AcquireSchedules.

Lemma acquire_schedules_leases_available_witness :
  let w := sample_world sample_schedules ∅ in
  0 ≤ 5 ∧
  schedules (acquire_transaction sample_config "B" 5 w).2 !! "s2"
    = Some (sample_row (Some 3) (Some "B") (Some 40)).
Proof.
  intros w. split; [lia|].
  destruct (acquire_schedules_leases_available sample_config "B" 5 w)
    as (rows & data & w' & Hrun & _ & _ & _ & _ & _ & _ & _ & Hexpired); [lia|].
  rewrite Hrun. simpl.
  assert (Hlate : 8 < clock w (S (clock_reads w))) by (vm_compute; reflexivity).
  assert (Hdue : 3 ≤ clock w (S (clock_reads w))) by (vm_compute; discriminate).
  destruct (Hexpired "s2" (sample_row (Some 3) (Some "A") (Some 8)) "A" 8 3
              eq_refl eq_refl eq_refl Hlate eq_refl Hdue) as [_ Hleased].
  apply Hleased. vm_compute. lia.
Defined.

(** ** release_schedules and release_jobs *)

Lemma removed_events_cons (clock : nat → Z) (n : nat) (sid : string) (ids : list string) :
  removed_events clock n (sid :: ids)
  = ScheduleRemoved (clock n) sid :: removed_events clock (S n) ids.
Proof.
  unfold removed_events. simpl. rewrite Nat.add_0_r. f_equal.
  apply imap_ext. intros i x _. simpl. by rewrite Nat.add_succ_r.
Qed.

Lemma for_each_removed (ids : list string) (w : World) :
  for_each (λ sid, let* t := read_clock in publish (ScheduleRemoved t sid)) ids w =
  (Ok tt, mkWorld (schedules w) (jobs w) (clock w) (clock_reads w + length ids)%nat
            (published w ++ removed_events (clock w) (clock_reads w) ids) (sent w) (logged w)).
Proof.
  revert w. induction ids as [|sid ids IH]; intros w; simpl.
  - unfold ret, removed_events. simpl. rewrite app_nil_r, Nat.add_0_r. by destruct w.
  - unfold bind at 1. unfold bind at 1. unfold read_clock at 1. unfold publish at 1.
    rewrite IH. simpl. rewrite removed_events_cons, <- app_assoc. simpl.
    by rewrite Nat.add_succ_r.
Qed.

Section Release.
Context `{Serializer} `{Engine} (cfg : Config).

Lemma release_vocabulary_cons (now : Z) (s : Schedule) (batch : list Schedule) :
  release_update_args (s :: batch)
  = (if still_active s
     then option_list ((λ data, (data, schedule_next_fire_time s, schedule_id s))
                         <$> serialize s)
     else []) ++ release_update_args batch ∧
  release_update_events now (s :: batch)
  = (if still_active s
     then [ScheduleUpdated now (schedule_id s) (schedule_next_fire_time s)] else [])
    ++ release_update_events now batch ∧
  release_finished_ids (s :: batch)
  = (if still_active s then [] else [schedule_id s]) ++ release_finished_ids batch ∧
  schedule_id <$> filter (λ s, unserializable s) (s :: batch)
  = (if unserializable s then [schedule_id s] else [])
    ++ (schedule_id <$> filter (λ s, unserializable s) batch).
Proof.
  unfold release_update_args, release_update_events, release_finished_ids.
  rewrite !filter_cons. simpl.
  destruct (still_active s) eqn:Hact, (unserializable s) eqn:Huns; simpl;
    repeat split; try done.
  all: by destruct (serialize s).
Qed.

Lemma release_loop_run (now : Z) (batch : list Schedule) args events finished (w : World) :
  release_loop now batch (args, events, finished) w =
  (Ok (args ++ release_update_args batch,
       events ++ release_update_events now batch,
       finished ++ release_finished_ids batch),
   mkWorld (schedules w) (jobs w) (clock w) (clock_reads w) (published w) (sent w)
     (logged w ++ (schedule_id <$> filter (λ s, unserializable s) batch))).
Proof.
  revert args events finished w.
  induction batch as [|s batch IH]; intros args events finished w.
  - simpl. unfold ret, release_update_args, release_update_events, release_finished_ids.
    simpl. rewrite !app_nil_r. by destruct w.
  - destruct (release_vocabulary_cons now s batch) as (-> & -> & -> & ->).
    simpl. unfold still_active, unserializable.
    destruct (schedule_next_fire_time s) as [f|] eqn:Hf;
      [destruct (serialize s) as [data|] eqn:Hs|].
    + rewrite IH. simpl. by rewrite <- ?app_assoc, ?app_nil_r.
    + unfold bind, log_exception. rewrite IH. simpl. by rewrite <- ?app_assoc, ?app_nil_r.
    + rewrite IH. simpl. by rewrite <- ?app_assoc, ?app_nil_r.
Qed.

Lemma release_args_events (now : Z) (batch : list Schedule) :
  nonempty (release_update_events now batch) = nonempty (release_update_args batch).
Proof.
  induction batch as [|s batch IH]; [done|].
  destruct (release_vocabulary_cons now s batch) as (-> & -> & _ & _).
  unfold still_active. destruct (schedule_next_fire_time s), (serialize s); simpl; done.
Qed.

Lemma release_schedules_run (scheduler_id : string) (batch : list Schedule) (w : World) :
  let n := clock_reads w in
  let failed := schedule_id <$> filter (λ s, unserializable s) batch in
  release_schedules cfg scheduler_id batch w =
  match released_table cfg scheduler_id batch (schedules w) with
  | inl tbl =>
      (Ok tt,
       mkWorld tbl (jobs w) (clock w) (S n + length (release_finished_ids batch))%nat
         (published w ++ release_events (clock w) n batch)
         (sent w ++ release_statements cfg scheduler_id batch)
         (logged w ++ failed))
  | inr sqlstate =>
      (Raise (PostgresError sqlstate),
       mkWorld (schedules w) (jobs w) (clock w) (S n) (published w)
         (sent w ++ [mkStatement (release_update_text cfg scheduler_id)
                       (update_params <$> release_update_args batch)])
         (logged w ++ failed))
  end.
Proof.
  intros n failed. subst n failed. unfold release_schedules.
  unfold bind at 1. unfold transaction at 1. unfold bind at 1. unfold read_clock at 1.
  unfold bind at 1. rewrite release_loop_run. simpl.
  unfold released_table, release_statements, release_events.
  unfold executemany_update, delete_owned.
  pose proof (release_args_events (clock w (clock_reads w)) batch) as Hev.
  destruct (nonempty (release_update_args batch)) eqn:Hargs;
    [destruct (sql_string_constant (py_repr scheduler_id)) as [owner|];
       [|destruct (execute_other_text _ _ _) as [tbl|sqlstate] eqn:Hengine]|];
    destruct (nonempty (release_finished_ids batch)) eqn:Hfin;
    destruct (truthy (notify_channel cfg)) eqn:Hnotify;
    unfold when, bind, send, ret, set_schedules, set_jobs; simpl;
    rewrite ?Hengine; simpl;
    rewrite ?for_each_publish; simpl; rewrite ?Hev; simpl; unfold notify, send; simpl;
    rewrite ?for_each_removed; simpl;
    rewrite <- ?app_assoc, ?app_nil_r; simpl; try reflexivity.
  all: unfold ret; simpl; rewrite ?for_each_removed; simpl;
    rewrite <- ?app_assoc, ?app_nil_r, ?list_fmap_id; simpl; try reflexivity.
Qed.

Lemma release_args_ids (batch : list Schedule) :
  (release_update_args batch).*2 = schedule_id <$> filter (λ s, still_active s) batch.
Proof.
  induction batch as [|s batch IH]; [done|].
  destruct (release_vocabulary_cons 0 s batch) as (-> & _ & _ & _).
  rewrite filter_cons, fmap_app, IH. unfold still_active.
  destruct (schedule_next_fire_time s), (serialize s); simpl; done.
Qed.

Lemma release_args_elem (batch : list Schedule) (s : Schedule) (data : bytes) :
  s ∈ batch → still_active s → serialize s = Some data →
  (data, schedule_next_fire_time s, schedule_id s) ∈ release_update_args batch.
Proof.
  intros Hin Hact Hser. unfold release_update_args. apply list_elem_of_omap.
  exists s. split; [done|]. destruct (still_active s); [|done]. by rewrite Hser.
Qed.

Lemma same_id_same_schedule (batch : list Schedule) (s s' : Schedule) :
  NoDup (schedule_id <$> batch) → s ∈ batch → s' ∈ batch →
  schedule_id s = schedule_id s' → s = s'.
Proof.
  induction batch as [|x batch IH]; intros Hnodup Hin Hin' Heq.
  - by apply elem_of_nil in Hin.
  - rewrite fmap_cons in Hnodup. apply NoDup_cons in Hnodup as [Hx Hnodup].
    apply elem_of_cons in Hin as [->|Hin]; apply elem_of_cons in Hin' as [->|Hin'].
    + done.
    + destruct Hx. rewrite Heq. by apply list_elem_of_fmap_2.
    + destruct Hx. rewrite <- Heq. by apply list_elem_of_fmap_2.
    + by apply IH.
Qed.

Lemma release_ids_disjoint (batch : list Schedule) (s : Schedule) :
  NoDup (schedule_id <$> batch) → s ∈ batch → ¬ still_active s →
  schedule_id s ∉ schedule_id <$> filter (λ s, still_active s) batch.
Proof.
  intros Hnodup Hin Hfin Hmem.
  apply list_elem_of_fmap in Hmem as (s' & Heq & Hin').
  apply list_elem_of_filter in Hin' as [Hact Hin'].
  by rewrite (same_id_same_schedule batch s s') in Hfin.
Qed.

(** *** The UPDATE, row by row *)

Lemma update_released_other (owner : string) (tbl : ScheduleTable) (arg : UpdateArg)
  (k : string) :
  k ≠ arg.2 → update_released owner tbl arg !! k = tbl !! k.
Proof.
  destruct arg as [[data fire] sid]. simpl. intros Hk. unfold update_released.
  destruct (tbl !! sid) as [r|]; [|done].
  destruct (decide (acquired_by r = Some owner)); [|done]. by rewrite lookup_insert_ne.
Qed.

Lemma update_released_foreign (owner : string) (tbl : ScheduleTable) (arg : UpdateArg)
  (k : string) (r : ScheduleRow) :
  tbl !! k = Some r → acquired_by r ≠ Some owner →
  update_released owner tbl arg !! k = Some r.
Proof.
  destruct arg as [[data fire] sid]. intros Hrow Hby. unfold update_released.
  destruct (decide (sid = k)) as [->|Hne].
  - rewrite Hrow. by rewrite decide_False.
  - destruct (tbl !! sid) as [r'|]; [|done].
    destruct (decide (acquired_by r' = Some owner)); [|done]. by rewrite lookup_insert_ne.
Qed.

Lemma update_released_absent (owner : string) (tbl : ScheduleTable) (arg : UpdateArg)
  (k : string) :
  tbl !! k = None → update_released owner tbl arg !! k = None.
Proof.
  destruct arg as [[data fire] sid]. intros Hrow. unfold update_released.
  destruct (decide (sid = k)) as [->|Hne].
  - by rewrite Hrow.
  - destruct (tbl !! sid) as [r'|]; [|done].
    destruct (decide (acquired_by r' = Some owner)); [|done]. by rewrite lookup_insert_ne.
Qed.

Lemma executemany_other (owner : string) (args : list UpdateArg) (tbl : ScheduleTable)
  (k : string) :
  k ∉ args.*2 → foldl (update_released owner) tbl args !! k = tbl !! k.
Proof.
  revert tbl. induction args as [|arg args IH]; intros tbl Hk; [done|].
  simpl. rewrite fmap_cons, not_elem_of_cons in Hk. destruct Hk as [Hk Hrest].
  rewrite IH by done. by apply update_released_other.
Qed.

Lemma executemany_foreign (owner : string) (args : list UpdateArg) (tbl : ScheduleTable)
  (k : string) (r : ScheduleRow) :
  tbl !! k = Some r → acquired_by r ≠ Some owner →
  foldl (update_released owner) tbl args !! k = Some r.
Proof.
  revert tbl. induction args as [|arg args IH]; intros tbl Hrow Hby; [done|].
  simpl. apply IH; [|done]. by apply update_released_foreign.
Qed.

Lemma executemany_absent (owner : string) (args : list UpdateArg) (tbl : ScheduleTable)
  (k : string) :
  tbl !! k = None → foldl (update_released owner) tbl args !! k = None.
Proof.
  revert tbl. induction args as [|arg args IH]; intros tbl Hrow; [done|].
  simpl. apply IH. by apply update_released_absent.
Qed.

Lemma executemany_owned (owner : string) (args : list UpdateArg) (tbl : ScheduleTable)
  (data : bytes) (fire : option Z) (k : string) (r : ScheduleRow) :
  NoDup args.*2 → (data, fire, k) ∈ args →
  tbl !! k = Some r → acquired_by r = Some owner →
  foldl (update_released owner) tbl args !! k
    = Some (mkScheduleRow (task_id r) data fire None None).
Proof.
  revert tbl. induction args as [|arg args IH]; intros tbl Hnodup Hin Hrow Hby.
  - by apply elem_of_nil in Hin.
  - rewrite fmap_cons in Hnodup. apply NoDup_cons in Hnodup as [Hfresh Hnodup].
    simpl. apply elem_of_cons in Hin as [<-|Hin].
    + simpl in Hfresh. rewrite executemany_other by done.
      unfold update_released. rewrite Hrow, decide_True by done.
      by rewrite lookup_insert_eq.
    + assert (Hne : k ≠ arg.2).
      { intros ->. destruct Hfresh. apply list_elem_of_fmap. by exists (data, fire, arg.2). }
      apply IH; [done..| |done]. by rewrite update_released_other.
Qed.

(** *** The frame of the DELETE statements *)

Lemma delete_owned_lookup (ids : list string) (owner : string) (tbl : ScheduleTable)
  (k : string) :
  filter (λ kr, ¬ owned_among ids owner kr) tbl !! k =
  match tbl !! k with
  | Some r => if decide (k ∈ ids ∧ acquired_by r = Some owner) then None else Some r
  | None => None
  end.
Proof.
  rewrite map_lookup_filter. destruct (tbl !! k) as [r|]; [|done]. simpl.
  unfold owned_among. simpl.
  destruct (decide (k ∈ ids ∧ acquired_by r = Some owner)).
  - by rewrite option_guard_False by tauto.
  - by rewrite option_guard_True.
Qed.

(** A row that the caller does not hold survives [release_jobs]. *)
Lemma release_jobs_frame (worker_id : string) (batch : list Job) (w : World)
  (k : N) (r : JobRow) :
  jobs w !! k = Some r → job_row_acquired_by r ≠ Some worker_id →
  (release_jobs cfg worker_id batch w).1 = Ok tt ∧
  jobs (release_jobs cfg worker_id batch w).2 !! k = Some r.
Proof.
  intros Hrow Hby. unfold release_jobs. run_store. split; [done|].
  rewrite map_lookup_filter, Hrow. simpl. rewrite option_guard_True; [done|].
  unfold job_owned_among. simpl. tauto.
Qed.

(** A row that the caller holds and names is deleted by [release_jobs]. *)
Lemma release_jobs_deletes (worker_id : string) (batch : list Job) (w : World)
  (j : Job) (r : JobRow) :
  j ∈ batch → jobs w !! job_id j = Some r → job_row_acquired_by r = Some worker_id →
  jobs (release_jobs cfg worker_id batch w).2 !! job_id j = None.
Proof.
  intros Hin Hrow Hby. unfold release_jobs. run_store.
  rewrite map_lookup_filter, Hrow. simpl. rewrite option_guard_False; [done|].
  unfold job_owned_among. simpl. intros Hnot. apply Hnot. split; [done|].
  apply elem_of_remove_dups. by apply list_elem_of_fmap_2.
Qed.

(** When the owner reaches the engine as itself, [release_schedules] leaves
    every row alone that the caller does not hold. *)
Lemma release_schedules_frame (scheduler_id : string) (batch : list Schedule) (w : World)
  (k : string) (r : ScheduleRow) :
  sql_string_constant (py_repr scheduler_id) = Some scheduler_id →
  schedules w !! k = Some r → acquired_by r ≠ Some scheduler_id →
  (release_schedules cfg scheduler_id batch w).1 = Ok tt ∧
  schedules (release_schedules cfg scheduler_id batch w).2 !! k = Some r.
Proof.
  intros Hclean Hrow Hby. rewrite release_schedules_run. unfold released_table.
  rewrite Hclean.
  destruct (nonempty (release_update_args batch)),
    (nonempty (release_finished_ids batch)); simpl; split; try done.
  all: rewrite ?delete_owned_lookup, ?(executemany_foreign _ _ _ _ r), ?Hrow by done.
  all: rewrite ?decide_False by tauto; done.
Qed.

Lemma still_active_spec (s : Schedule) :
  (still_active s ↔ is_Some (schedule_next_fire_time s) ∧ is_Some (serialize s)) ∧
  (¬ still_active s ↔ schedule_next_fire_time s = None ∨ serialize s = None).
Proof.
  unfold still_active.
  destruct (schedule_next_fire_time s) as [f|], (serialize s) as [data|]; simpl.
  - split; [split; [by eauto|done]|]. split; [tauto|]. by intros [|].
  - split; [split; [done|]|].
    + by intros [_ [data Hdata]].
    + split; [by right|tauto].
  - split; [split; [done|]|].
    + by intros [[f Hf] _].
    + split; [by left|tauto].
  - split; [split; [done|]|].
    + by intros [[f Hf] _].
    + split; [by left|tauto].
Qed.

Lemma removed_events_elem (clk : nat → Z) (n : nat) (ids : list string) (sid : string) :
  sid ∈ ids → ∃ t, ScheduleRemoved t sid ∈ removed_events clk n ids.
Proof.
  intros [i Hi]%list_elem_of_lookup. exists (clk (n + i)%nat).
  unfold removed_events.
  apply (elem_of_lookup_imap_2 (λ i sid, ScheduleRemoved (clk (n + i)%nat) sid) ids sid i Hi).
Qed.

Lemma removed_events_no_update (clk : nat → Z) (n : nat) (ids : list string) t sid f :
  ScheduleUpdated t sid f ∉ removed_events clk n ids.
Proof. unfold removed_events. by intros (i & y & Heq & _)%elem_of_lookup_imap_1. Qed.

Lemma released_table_read (scheduler_id owner : string) (batch : list Schedule)
  (tbl : ScheduleTable) :
  sql_string_constant (py_repr scheduler_id) = Some owner →
  ∃ tbl',
    released_table cfg scheduler_id batch tbl = inl tbl' ∧
    ∀ k, tbl' !! k =
         match foldl (update_released owner) tbl (release_update_args batch) !! k with
         | Some r =>
             if decide (k ∈ release_finished_ids batch ∧ acquired_by r = Some scheduler_id)
             then None else Some r
         | None => None
         end.
Proof.
  intros Hread. unfold released_table. rewrite Hread.
  set (args := release_update_args batch). set (fin := release_finished_ids batch).
  exists (if nonempty fin
          then filter (λ kr, ¬ owned_among fin scheduler_id kr)
                 (foldl (update_released owner) tbl args)
          else foldl (update_released owner) tbl args).
  split; [by destruct args|]. intros k.
  destruct fin as [|sid fin].
  - change (nonempty []) with false. cbv iota.
    destruct (foldl (update_released owner) tbl args !! k) as [r|]; [|done].
    destruct (decide (k ∈ [] ∧ acquired_by r = Some scheduler_id)) as [[Hk _]|]; [|done].
    by apply elem_of_nil in Hk.
  - apply delete_owned_lookup.
Qed.

Lemma released_table_error (scheduler_id sqlstate : string) (batch : list Schedule)
  (tbl : ScheduleTable) :
  released_table cfg scheduler_id batch tbl = inr sqlstate →
  sql_string_constant (py_repr scheduler_id) = None ∧
  filter (λ s, still_active s) batch ≠ [].
Proof.
  unfold released_table. intros Herr.
  destruct (nonempty (release_update_args batch)) eqn:Hargs; [|done].
  split; [by destruct (sql_string_constant (py_repr scheduler_id))|].
  intros Hnil. rewrite <- (release_args_events 0) in Hargs.
  unfold release_update_events in Hargs. by rewrite Hnil in Hargs.
Qed.

(** What does hold of the partition made by [release_schedules].  The call
    splits its batch in two: the schedules that have a next fire time and
    serialize, and the finished ones (no next fire time, or the serializer
    raised).  A serialization failure is logged and never raised: the call
    returns normally, or with an error of the engine on the UPDATE, in which
    case nothing is published and the tables are rolled back.  When it
    returns normally it has published one [ScheduleUpdated] per active
    schedule, with its new fire time, and then one [ScheduleRemoved] per
    finished schedule.  When the engine reads the interpolated text as the
    owner [owner] and the ids of the batch are distinct, the call returns
    normally, every active schedule whose row is held by [owner] - the name
    the engine read, which is the caller only when the caller's name is
    plain - has its row rewritten with the new payload and fire time and the
    lease cleared, every finished schedule whose row the caller holds has
    its row deleted, and no [ScheduleUpdated] is published for a finished
    schedule. *)
Theorem release_schedules_partition (scheduler_id : string) (batch : list Schedule)
  (w : World) :
  let n := clock_reads w in
  let now := clock w n in
  let active := filter (λ s, still_active s) batch in
  let finished := filter (λ s, ¬ still_active s) batch in
  let res := release_schedules cfg scheduler_id batch w in
  (∀ s, (still_active s ↔ is_Some (schedule_next_fire_time s) ∧ is_Some (serialize s)) ∧
        (¬ still_active s ↔ schedule_next_fire_time s = None ∨ serialize s = None)) ∧
  active ++ finished ≡ₚ batch ∧
  logged res.2 = logged w ++ (schedule_id <$> filter (λ s, unserializable s) batch) ∧
  ((res.1 = Ok tt ∧
    published res.2 =
      published w
      ++ ((λ s, ScheduleUpdated now (schedule_id s) (schedule_next_fire_time s)) <$> active)
      ++ removed_events (clock w) (S n) (schedule_id <$> finished))
   ∨ (∃ sqlstate,
        res.1 = Raise (PostgresError sqlstate) ∧
        published res.2 = published w ∧ schedules res.2 = schedules w ∧
        sql_string_constant (py_repr scheduler_id) = None ∧ active ≠ [])) ∧
  (∀ owner,
     sql_string_constant (py_repr scheduler_id) = Some owner →
     NoDup (schedule_id <$> batch) →
     res.1 = Ok tt ∧
     (∀ s data r,
        s ∈ active → serialize s = Some data →
        schedules w !! schedule_id s = Some r → acquired_by r = Some owner →
        schedules res.2 !! schedule_id s
          = Some (mkScheduleRow (task_id r) data (schedule_next_fire_time s) None None)) ∧
     (∀ s r,
        s ∈ finished →
        schedules w !! schedule_id s = Some r → acquired_by r = Some scheduler_id →
        schedules res.2 !! schedule_id s = None) ∧
     (∀ s t f,
        s ∈ finished →
        ScheduleUpdated t (schedule_id s) f ∉ drop (length (published w)) (published res.2)) ∧
     (∀ s, s ∈ finished → ∃ t, ScheduleRemoved t (schedule_id s) ∈ published res.2)).
Proof.
  intros n now active finished res.
  split; [apply still_active_spec|]. split; [apply filter_app_complement|].
  subst res. rewrite release_schedules_run.
  split; [by destruct (released_table cfg scheduler_id batch (schedules w))|].
  split.
  { destruct (released_table cfg scheduler_id batch (schedules w)) as [tbl|sqlstate] eqn:Htbl.
    - left. by split.
    - right. exists sqlstate. apply released_table_error in Htbl as [Hread Hact].
      by repeat split. }
  intros owner Hread Hnodup.
  destruct (released_table_read scheduler_id owner batch (schedules w) Hread)
    as (tbl' & -> & Hlookup).
  simpl. split; [done|].
  assert (Hids : NoDup (release_update_args batch).*2).
  { rewrite release_args_ids. eapply sublist_NoDup; [exact Hnodup|].
    apply fmap_sublist, sublist_filter. }
  split; [|split; [|split]].
  - intros s data r [Hact Hin]%list_elem_of_filter Hser Hrow Hby.
    rewrite Hlookup.
    rewrite (executemany_owned owner (release_update_args batch) (schedules w) data
               (schedule_next_fire_time s) (schedule_id s) r Hids
               (release_args_elem batch s data Hin Hact Hser) Hrow Hby).
    rewrite decide_False; [done|]. simpl. by intros [_ ?].
  - intros s r [Hfin Hin]%list_elem_of_filter Hrow Hby.
    rewrite Hlookup, executemany_other, Hrow.
    + rewrite decide_True; [done|]. split; [|done].
      unfold release_finished_ids. apply list_elem_of_fmap_2.
      by apply list_elem_of_filter.
    + rewrite release_args_ids. by apply release_ids_disjoint.
  - intros s t f [Hfin Hin]%list_elem_of_filter.
    rewrite drop_app_length. unfold release_events. rewrite elem_of_app.
    intros [Hup|Hrem]; [|by apply removed_events_no_update in Hrem].
    unfold release_update_events in Hup.
    apply list_elem_of_fmap in Hup as (s' & [= _ Hid _] & Hs').
    apply (release_ids_disjoint batch s Hnodup Hin Hfin).
    rewrite Hid. by apply list_elem_of_fmap_2.
  - intros s Hs.
    destruct (removed_events_elem (clock w) (S n) (release_finished_ids batch)
                (schedule_id s)) as [t Ht].
    { unfold release_finished_ids. by apply list_elem_of_fmap_2. }
    exists t. unfold release_events. rewrite !elem_of_app. right. by right.
Qed.

(** C10.  What [release_schedules] publishes when it returns normally is
    [release_events], a function of the clock readings and of the batch
    (the next fire time of each schedule and whether it serializes): two
    calls with the same batch and the same clock publish the same events
    whatever the two tables hold and whoever the two callers are, and the
    NOTIFY is sent exactly when the batch has a schedule to update.  So a
    caller that does not hold the row of a schedule in its batch leaves that
    row as it was and still has a [ScheduleUpdated] or a [ScheduleRemoved]
    published for it. *)
Theorem release_events_ignore_ownership (scheduler_id : string) (batch : list Schedule)
  (w : World) :
  let res := release_schedules cfg scheduler_id batch w in
  (res.1 = Ok tt →
     published res.2 = published w ++ release_events (clock w) (clock_reads w) batch ∧
     sent res.2 = sent w ++ release_statements cfg scheduler_id batch) ∧
  (∀ other_id w',
     let res' := release_schedules cfg other_id batch w' in
     clock w' = clock w → clock_reads w' = clock_reads w →
     res.1 = Ok tt → res'.1 = Ok tt →
     drop (length (published w')) (published res'.2)
       = drop (length (published w)) (published res.2)) ∧
  (∀ s r,
     sql_string_constant (py_repr scheduler_id) = Some scheduler_id →
     s ∈ batch →
     schedules w !! schedule_id s = Some r → acquired_by r ≠ Some scheduler_id →
     res.1 = Ok tt ∧
     schedules res.2 !! schedule_id s = Some r ∧
     if still_active s
     then ScheduleUpdated (clock w (clock_reads w)) (schedule_id s)
            (schedule_next_fire_time s) ∈ published res.2
     else ∃ t, ScheduleRemoved t (schedule_id s) ∈ published res.2).
Proof.
  intros res.
  assert (Hpub : ∀ o v, (release_schedules cfg o batch v).1 = Ok tt →
            published (release_schedules cfg o batch v).2
              = published v ++ release_events (clock v) (clock_reads v) batch ∧
            sent (release_schedules cfg o batch v).2
              = sent v ++ release_statements cfg o batch).
  { intros o v. rewrite release_schedules_run.
    by destruct (released_table cfg o batch (schedules v)). }
  split; [apply Hpub|]. split.
  - intros other_id w' res' Hclock Hreads Hok Hok'.
    subst res res'. rewrite (proj1 (Hpub _ _ Hok)), (proj1 (Hpub _ _ Hok')).
    by rewrite !drop_app_length, Hclock, Hreads.
  - intros s r Hclean Hin Hrow Hby.
    destruct (release_schedules_frame scheduler_id batch w (schedule_id s) r Hclean Hrow Hby)
      as [Hok Hsame].
    split; [exact Hok|]. split; [exact Hsame|].
    subst res. rewrite (proj1 (Hpub _ _ Hok)). unfold release_events.
    destruct (still_active s) eqn:Hact.
    + rewrite !elem_of_app. right. left. unfold release_update_events.
      apply (list_elem_of_fmap_2
               (λ s, ScheduleUpdated (clock w (clock_reads w)) (schedule_id s)
                       (schedule_next_fire_time s))).
      apply list_elem_of_filter. split; [by rewrite Hact|done].
    + destruct (removed_events_elem (clock w) (S (clock_reads w))
                  (release_finished_ids batch) (schedule_id s)) as [t Ht].
      { unfold release_finished_ids. apply list_elem_of_fmap_2, list_elem_of_filter.
        split; [|done]. rewrite Hact. by intros []. }
      exists t. rewrite !elem_of_app. right. by right.
Qed.

End Release.

Lemma release_schedules_partition_witness :
  let w := sample_world held_schedules ∅ in
  let res := @release_schedules sample_serializer strict_engine sample_config "A"
               sample_batch w in
  sql_string_constant (py_repr "A") = Some "A" ∧
  NoDup (schedule_id <$> sample_batch) ∧
  schedules res.2 !! "s2"
    = Some (mkScheduleRow "task" (list_byte_of_string "s2") (Some 50) None None) ∧
  schedules res.2 !! "s1" = None ∧
  schedules res.2 !! "s3" = None.
Proof.
  intros w res.
  assert (Hread : sql_string_constant (py_repr "A") = Some "A") by reflexivity.
  assert (Hnodup : NoDup (schedule_id <$> sample_batch))
    by (apply (bool_decide_unpack _); vm_compute; exact I).
  destruct (@release_schedules_partition sample_serializer strict_engine sample_config
              "A" sample_batch w) as (_ & _ & _ & _ & Hrows).
  destruct (Hrows "A" Hread Hnodup) as (_ & Hupdated & Hdeleted & _).
  split; [exact Hread|]. split; [exact Hnodup|]. split; [|split].
  - apply (Hupdated (mkSchedule "s2" "task" (Some 50) EmptyString) (list_byte_of_string "s2")
             (sample_row (Some 3) (Some "A") (Some 100))); try reflexivity.
    apply (bool_decide_unpack _). vm_compute. exact I.
  - apply (Hdeleted (mkSchedule "s1" "task" None EmptyString)
             (sample_row (Some 5) (Some "A") (Some 100))); try reflexivity.
    apply (bool_decide_unpack _). vm_compute. exact I.
  - apply (Hdeleted (mkSchedule "s3" "task" (Some 60) "unpicklable")
             (sample_row (Some 4) (Some "A") (Some 100))); try reflexivity.
    apply (bool_decide_unpack _). vm_compute. exact I.
Defined.

Lemma release_events_ignore_ownership_witness :
  let w := sample_world held_schedules ∅ in
  let res := @release_schedules sample_serializer strict_engine sample_config "B"
               sample_batch w in
  sql_string_constant (py_repr "B") = Some "B" ∧
  schedules res.2 !! "s2" = Some (sample_row (Some 3) (Some "A") (Some 100)) ∧
  ScheduleUpdated 10 "s2" (Some 50) ∈ published res.2.
Proof.
  intros w res.
  assert (Hread : sql_string_constant (py_repr "B") = Some "B") by reflexivity.
  destruct (@release_events_ignore_ownership sample_serializer strict_engine sample_config
              "B" sample_batch w) as (_ & _ & Hforeign).
  destruct (Hforeign (mkSchedule "s2" "task" (Some 50) EmptyString)
              (sample_row (Some 3) (Some "A") (Some 100)) Hread) as (_ & Hrow & Hevent).
  - apply (bool_decide_unpack _). vm_compute. exact I.
  - reflexivity.
  - discriminate.
  - split; [exact Hread|]. split; [exact Hrow|exact Hevent].
Defined.

(** C4 does not hold of [release_schedules]: the UPDATE compares
    [acquired_by] with the owner as [repr] prints it.  The caller named
    [a], backslash, [b] does not hold the lease on [s1] (the owner named [a],
    two backslashes, [b] does), yet its call rewrites the row and clears the
    lease. *)
Theorem release_schedules_clobbers_foreign_lease :
  let holder_row := sample_row (Some 3) (Some two_backslashes) (Some 100) in
  let w := sample_world {[ "s1"%string := holder_row ]} ∅ in
  let res := @release_schedules sample_serializer strict_engine sample_config one_backslash
               [mkSchedule "s1" "task" (Some 50) EmptyString] w in
  acquired_by holder_row ≠ Some one_backslash ∧
  sql_string_constant (py_repr one_backslash) = Some two_backslashes ∧
  res.1 = Ok tt ∧
  schedules res.2 !! "s1"
    = Some (mkScheduleRow "task" (list_byte_of_string "s1") (Some 50) None None).
Proof.
  intros holder_row w res. split; [discriminate|]. split; [reflexivity|].
  split; reflexivity.
Qed.

(** C6 does not hold of [release_schedules] either, by the same
    comparison.  The caller named [a], backslash, [b] holds the lease on
    [s1] and releases it with a next fire time and a payload that
    serializes: the schedule is still active, the call returns normally and
    publishes [ScheduleUpdated] for it, yet - whatever engine runs the
    statements it can read - the row is not updated: it keeps its payload
    and its fire time and stays leased to the caller. *)
Theorem release_schedules_skips_own_lease (engine : Engine) :
  let own_row := sample_row (Some 3) (Some one_backslash) (Some 100) in
  let w := sample_world {[ "s1"%string := own_row ]} ∅ in
  let s := mkSchedule "s1" "task" (Some 50) EmptyString in
  let res := @release_schedules sample_serializer engine sample_config one_backslash [s] w in
  acquired_by own_row = Some one_backslash ∧
  @still_active sample_serializer s = true ∧
  sql_string_constant (py_repr one_backslash) = Some two_backslashes ∧
  res.1 = Ok tt ∧
  schedules res.2 !! "s1" = Some own_row ∧
  published res.2 = [ScheduleUpdated 10 "s1" (Some 50)].
Proof.
  intros own_row w s res. split; [reflexivity|]. split; [reflexivity|].
  split; [reflexivity|]. split; [reflexivity|]. split; reflexivity.
Qed.

(** The same id twice in a batch, once with a next fire time and once
    without, released by the holder [A]: the UPDATE clears the lease before
    the DELETE tests it, so the row stays, rewritten, while both events are
    published for the id. *)
Lemma release_schedules_duplicate_id (engine : Engine) :
  let w := sample_world {[ "s1"%string := sample_row (Some 3) (Some "A") (Some 100) ]} ∅ in
  let res := @release_schedules sample_serializer engine sample_config "A"
               [mkSchedule "s1" "task" (Some 50) EmptyString;
                mkSchedule "s1" "task" None EmptyString] w in
  res.1 = Ok tt ∧
  schedules res.2 !! "s1"
    = Some (mkScheduleRow "task" (list_byte_of_string "s1") (Some 50) None None) ∧
  published res.2 = [ScheduleUpdated 10 "s1" (Some 50); ScheduleRemoved 11 "s1"].
Proof. intros w res. split; [reflexivity|]. split; reflexivity. Qed.

(** C8 does not hold of the UPDATE of [release_schedules]: the text
    sent to the engine ends with the owner, and the owner is not among the
    bound values; the DELETE of the same call binds it as [$2]. *)
Theorem release_update_text_carries_owner :
  let w := sample_world held_schedules ∅ in
  let run owner :=
    sent (@release_schedules sample_serializer strict_engine sample_config owner
            sample_batch w).2 in
  run "A" =
    [mkStatement
       ("UPDATE public.schedules SET serialized_data = $1, next_fire_time = $2, "
        +:+ "acquired_by = NULL, acquired_until = NULL WHERE id = $3 AND acquired_by = 'A'")
       [[PBytes (list_byte_of_string "s2"); PTime (Some 50); PText "s2"]];
     mkStatement "DELETE FROM public.schedules WHERE id = any($1::text[]) AND acquired_by = $2"
       [[PTextArray ["s1"; "s3"]; PText "A"]];
     mkStatement "NOTIFY apscheduler, 'schedule'" [[]]] ∧
  text <$> run "A" ≠ text <$> run "B".
Proof. intros w run. split; [reflexivity|]. vm_compute. discriminate. Qed.

(** The DELETE of [release_jobs] binds the owner: its text is the same for
    every caller. *)
Lemma release_jobs_statement (cfg : Config) (worker_id : string) (batch : list Job)
  (w : World) :
  sent (release_jobs cfg worker_id batch w).2 =
  sent w ++ [mkStatement (release_jobs_text cfg)
               [[PText worker_id; PUuidArray (remove_dups (job_id <$> batch))]]].
Proof. reflexivity. Qed.

(** ** Racing acquirers *)

Section Race.
Context (delay W : Z).

Lemma quiet_inv (c : Cluster) : quiet c → race_inv W c.
Proof.
  intros [Hin Hout]. split; rewrite ?Hin, ?Hout.
  - intros o k Hk. by apply elem_of_nil in Hk.
  - intros o1 o2 tx1 tx2 k Htx. by rewrite lookup_empty in Htx.
  - intros o tx k o' Htx. by rewrite lookup_empty in Htx.
  - intros o tx Htx. by rewrite lookup_empty in Htx.
  - intros o tx k Htx. by rewrite lookup_empty in Htx.
Qed.

(** Replacing the transaction of [owner] by one that has locked the same
    rows and, possibly, the row [extra]. *)
Lemma inv_after_visit (c : Cluster) (owner : string) (tx tx' : Txn) (extra : list string) :
  race_inv W c →
  inflight c !! owner = Some tx →
  txn_now tx' = txn_now tx → txn_until tx' = txn_until tx →
  txn_locked tx' = txn_locked tx ++ extra →
  (∀ k, k ∈ extra → ¬ locked_by_other owner k c ∧ still_available (txn_now tx) k c) →
  race_inv W (mkCluster (committed c) (<[owner := tx']> (inflight c)) (handed_out c)).
Proof.
  intros [Hhanded Hdisjoint Hfresh Hwindow Hrows] Htx Hnow Huntil Hlocked Hextra.
  assert (Hown : ∀ k, k ∈ txn_locked tx' → k ∈ txn_locked tx ∨ k ∈ extra).
  { intros k. rewrite Hlocked. apply elem_of_app. }
  split; simpl.
  - exact Hhanded.
  - intros o1 o2 tx1 tx2 k H1 H2 Hk1 Hk2.
    destruct (decide (o1 = o2)) as [|Hne]; [done|exfalso].
    rewrite lookup_insert in H1, H2.
    destruct (decide (owner = o1)) as [<-|Hne1]; destruct (decide (owner = o2)) as [<-|Hne2];
      simplify_eq.
    + destruct (Hown k Hk1) as [Hk|Hk].
      * by apply Hne, (Hdisjoint owner o2 tx tx2 k).
      * destruct (Hextra k Hk) as [Hfree _]. apply Hfree. by exists o2, tx2.
    + destruct (Hown k Hk2) as [Hk|Hk].
      * by apply Hne, (Hdisjoint o1 owner tx1 tx k).
      * destruct (Hextra k Hk) as [Hfree _]. apply Hfree. by exists o1, tx1.
    + by apply Hne, (Hdisjoint o1 o2 tx1 tx2 k).
  - intros o tx0 k o' H0 Hk Hout. rewrite lookup_insert in H0.
    destruct (decide (owner = o)) as [<-|Hne]; simplify_eq;
      [|by apply (Hfresh o tx0 k o')].
    destruct (Hown k Hk) as [Hold|Hnew]; [by apply (Hfresh owner tx k o')|].
    destruct (Hextra k Hnew) as [_ (r & Hrow & Hav)].
    destruct (Hhanded o' k Hout) as (r' & u & Hrow' & _ & Hu & HW).
    rewrite Hrow in Hrow'. injection Hrow' as <-.
    apply available_spec in Hav as [_ [Hnone|(u' & Hu' & Hlt)]]; [congruence|].
    rewrite Hu in Hu'. injection Hu' as <-.
    destruct (Hwindow owner tx Htx) as [Hle _]. lia.
  - intros o tx0 H0. rewrite lookup_insert in H0.
    destruct (decide (owner = o)) as [<-|Hne]; simplify_eq; [|by apply (Hwindow o)].
    rewrite Hnow, Huntil. by apply (Hwindow owner).
  - intros o tx0 k H0 Hk. rewrite lookup_insert in H0.
    destruct (decide (owner = o)) as [<-|Hne]; simplify_eq; [|by apply (Hrows o tx0)].
    destruct (Hown k Hk) as [Hold|Hnew]; [by apply (Hrows owner tx)|].
    destruct (Hextra k Hnew) as [_ (r & Hrow & _)]. by rewrite Hrow.
Qed.

Lemma inv_after_end (c : Cluster) (owner : string) :
  race_inv W c →
  race_inv W (mkCluster (committed c) (delete owner (inflight c)) (handed_out c)).
Proof.
  intros [Hhanded Hdisjoint Hfresh Hwindow Hrows]. split; simpl.
  - exact Hhanded.
  - intros o1 o2 tx1 tx2 k [_ H1]%lookup_delete_Some [_ H2]%lookup_delete_Some.
    by apply (Hdisjoint o1 o2 tx1 tx2 k).
  - intros o tx k o' [_ H0]%lookup_delete_Some. by apply (Hfresh o tx k o').
  - intros o tx [_ H0]%lookup_delete_Some. by apply (Hwindow o).
  - intros o tx k [_ H0]%lookup_delete_Some. by apply (Hrows o).
Qed.

Lemma inv_after_commit (c : Cluster) (owner : string) (tx : Txn) :
  race_inv W c →
  inflight c !! owner = Some tx →
  race_inv W
    (mkCluster (lease_rows (txn_locked tx) owner (txn_until tx) (committed c))
       (delete owner (inflight c))
       (handed_out c ++ ((λ k, (owner, k)) <$> txn_locked tx))).
Proof.
  intros [Hhanded Hdisjoint Hfresh Hwindow Hrows] Htx. split; simpl.
  - intros o k [Hold|Hnew]%elem_of_app.
    + destruct (Hhanded o k Hold) as (r & u & Hrow & Hby & Hu & HW).
      exists r, u. rewrite lease_rows_lookup, decide_False; [done|].
      intros Hk. by apply (Hfresh owner tx k o).
    + apply list_elem_of_fmap in Hnew as (k' & [= -> ->] & Hk).
      destruct (Hrows owner tx k' Htx Hk) as [r Hrow].
      exists (lease_row owner (txn_until tx) r), (txn_until tx).
      rewrite lease_rows_lookup, decide_True, Hrow by done.
      repeat split; try done. by apply (Hwindow owner).
  - intros o1 o2 tx1 tx2 k [_ H1]%lookup_delete_Some [_ H2]%lookup_delete_Some.
    by apply (Hdisjoint o1 o2 tx1 tx2 k).
  - intros o tx0 k o' [Hne H0]%lookup_delete_Some Hk [Hold|Hnew]%elem_of_app.
    + by apply (Hfresh o tx0 k o').
    + apply list_elem_of_fmap in Hnew as (k' & [= -> ->] & Hk').
      by apply Hne, (Hdisjoint owner o tx tx0 k').
  - intros o tx0 [_ H0]%lookup_delete_Some. by apply (Hwindow o).
  - intros o tx0 k [_ H0]%lookup_delete_Some Hk.
    destruct (Hrows o tx0 k H0 Hk) as [r Hrow].
    rewrite lease_rows_lookup, Hrow. by destruct (decide (k ∈ txn_locked tx)).
Qed.

Lemma step_inv (c c' : Cluster) : race_inv W c → step delay W c c' → race_inv W c'.
Proof.
  intros Hinv Hstep. destruct Hstep as
    [c owner t now limit Hnone Hnow Huntil
    |c owner tx k rest Htx Htodo Hroom Hskip
    |c owner tx k rest Htx Htodo Hroom Hfree Hav
    |c owner tx Htx Hdone
    |c owner tx Htx].
  - destruct Hinv as [Hhanded Hdisjoint Hfresh Hwindow Hrows]. split; simpl.
    + exact Hhanded.
    + intros o1 o2 tx1 tx2 k H1 H2 Hk1 Hk2. rewrite lookup_insert in H1, H2.
      destruct (decide (owner = o1)); destruct (decide (owner = o2)); simplify_eq;
        try done; try (by apply elem_of_nil in Hk1); try (by apply elem_of_nil in Hk2).
      by apply (Hdisjoint o1 o2 tx1 tx2 k).
    + intros o tx k o' H0 Hk. rewrite lookup_insert in H0.
      destruct (decide (owner = o)); simplify_eq; [by apply elem_of_nil in Hk|].
      by apply (Hfresh o tx k o').
    + intros o tx H0. rewrite lookup_insert in H0.
      destruct (decide (owner = o)); simplify_eq; [done|]. by apply (Hwindow o).
    + intros o tx k H0 Hk. rewrite lookup_insert in H0.
      destruct (decide (owner = o)); simplify_eq; [by apply elem_of_nil in Hk|].
      by apply (Hrows o tx).
  - apply (inv_after_visit c owner tx _ []); try done.
    + simpl. by rewrite app_nil_r.
    + intros k' Hk'. by apply elem_of_nil in Hk'.
  - apply (inv_after_visit c owner tx _ [k]); try done.
    intros k' ->%list_elem_of_singleton. by split.
  - by apply inv_after_commit.
  - by apply inv_after_end.
Qed.

Lemma run_inv (c0 c : Cluster) : race_inv W c0 → rtc (step delay W) c0 c → race_inv W c.
Proof. intros Hinv Hrun. induction Hrun as [|c0 c1 c Hstep _ IH]; eauto using step_inv. Qed.

Lemma alone_not_locked tbl owner tx out k : ¬ locked_by_other owner k (alone tbl owner tx out).
Proof.
  intros (o & tx' & Hne & Htx & _). simpl in Htx.
  apply lookup_singleton_Some in Htx as [-> _]. done.
Qed.

Lemma solo_visits tbl owner now limit until out (todo locked : list string) :
  (∀ k, k ∈ todo → ∃ r, tbl !! k = Some r ∧ available now r) →
  (length locked ≤ limit)%nat →
  rtc (step delay W)
    (alone tbl owner (mkTxn now limit until todo locked) out)
    (alone tbl owner
       (mkTxn now limit until (drop (limit - length locked) todo)
          (locked ++ take (limit - length locked) todo)) out).
Proof.
  revert locked. induction todo as [|k todo IH]; intros locked Hav Hroom.
  - rewrite drop_nil, take_nil, app_nil_r. apply rtc_refl.
  - destruct (decide (length locked = limit)) as [Hfull|Hless].
    + replace (limit - length locked)%nat with O by lia. simpl.
      rewrite app_nil_r. apply rtc_refl.
    + replace (limit - length locked)%nat with (S (limit - length (locked ++ [k])))
        by (rewrite length_app; simpl; lia).
      simpl. eapply rtc_l.
      * apply (step_lock delay W (alone tbl owner (mkTxn now limit until (k :: todo) locked) out)
                 owner (mkTxn now limit until (k :: todo) locked) k todo).
        -- apply lookup_singleton_eq.
        -- done.
        -- simpl. lia.
        -- apply alone_not_locked.
        -- apply Hav. by left.
      * simpl. unfold visit. simpl. rewrite insert_singleton_eq.
        replace (locked ++ k :: take (limit - length (locked ++ [k])) todo)
          with ((locked ++ [k]) ++ take (limit - length (locked ++ [k])) todo)
          by (by rewrite <- app_assoc).
        apply IH.
        -- intros k' Hk'. apply Hav. by right.
        -- rewrite length_app. simpl. lia.
Qed.

(** A transaction that runs alone leases what the statement of
    [acquire_schedules] leases. *)
Lemma solo_acquire (c : Cluster) (owner : string) (t now : Z) (limit : nat) :
  inflight c = ∅ → now ≤ W → W ≤ t + delay →
  let ids := schedule_ids ∅ now limit (committed c) in
  rtc (step delay W) c
    (mkCluster (lease_rows ids owner (t + delay) (committed c)) ∅
       (handed_out c ++ ((λ k, (owner, k)) <$> ids))).
Proof.
  intros Hnone Hnow Huntil ids. destruct c as [tbl open out]. simpl in *. subst open.
  eapply rtc_l.
  { apply (step_begin delay W (mkCluster tbl ∅ out) owner t now limit); [|done..].
    apply lookup_empty. }
  simpl. rewrite insert_empty.
  eapply (transitivity (R := rtc (step delay W))).
  { apply (solo_visits tbl owner now limit (t + delay) out
             (candidates ∅ now tbl).*1 []); [|simpl; lia].
    intros k ([k' r] & -> & Hin)%list_elem_of_fmap. apply candidates_elem in Hin.
    exists r. tauto. }
  simpl. rewrite Nat.sub_0_r.
  set (tx := mkTxn now limit (t + delay) (drop limit (candidates ∅ now tbl).*1)
               (take limit (candidates ∅ now tbl).*1)).
  eapply rtc_l.
  { apply (step_commit delay W (alone tbl owner tx out) owner tx);
      [apply lookup_singleton_eq|].
    simpl. destruct (decide (limit ≤ length (candidates ∅ now tbl).*1)%nat).
    - right. by rewrite length_take_le.
    - left. apply drop_ge. lia. }
  simpl. rewrite delete_singleton_eq. unfold ids, schedule_ids.
  rewrite (fmap_take fst). apply rtc_refl.
Qed.
(** C2.  Any number of owners race [acquire_schedules] from a state without
    open transactions, their transactions interleaved row by row in any
    order, some perhaps aborted, in a window [W] that every statement time
    precedes and every lease granted outlasts: no schedule id is handed to
    two distinct owners. *)
Theorem racing_acquirers_exclusive (c0 c : Cluster) :
  quiet c0 → rtc (step delay W) c0 c →
  ∀ k o1 o2, (o1, k) ∈ handed_out c → (o2, k) ∈ handed_out c → o1 = o2.
Proof.
  intros Hquiet Hrun k o1 o2 H1 H2.
  destruct (run_inv c0 c (quiet_inv c0 Hquiet) Hrun) as [Hhanded _ _ _ _].
  destruct (Hhanded o1 k H1) as (r1 & _ & Hrow1 & Hby1 & _).
  destruct (Hhanded o2 k H2) as (r2 & _ & Hrow2 & Hby2 & _).
  congruence.
Qed.

End Race.

Lemma racing_acquirers_exclusive_witness :
  let c0 := mkCluster sample_schedules ∅ [] in
  ∃ c, quiet c0 ∧ rtc (step 30 20) c0 c ∧
       handed_out c = [("A", "s2"); ("B", "s3")]%string ∧
       ∀ k o1 o2, (o1, k) ∈ handed_out c → (o2, k) ∈ handed_out c → o1 = o2.
Proof.
  intros c0.
  assert (Hquiet : quiet c0) by (split; reflexivity).
  assert (Hrun : ∃ c, rtc (step 30 20) c0 c ∧ handed_out c = [("A", "s2"); ("B", "s3")]%string).
  { eexists. split.
    - eapply rtc_l; [apply (step_begin 30 20 c0 "A" 10 10 1); [reflexivity|lia|lia]|].
      eapply rtc_l.
      { eapply (step_begin 30 20 _ "B" 11 11 1); [reflexivity|lia|lia]. }
      eapply rtc_l.
      { eapply (step_lock 30 20 _ "A" _ "s2"); [reflexivity|reflexivity|simpl; lia| |].
        - intros (o & tx & Hne & Htx & Hk). simpl in Htx.
          rewrite lookup_insert in Htx. destruct (decide ("B"%string = o)); simplify_eq.
          + by apply elem_of_nil in Hk.
          + rewrite lookup_insert in Htx. destruct (decide ("A"%string = o)); simplify_eq.
        - eexists. split; [reflexivity|]. reflexivity. }
      eapply rtc_l.
      { eapply (step_skip 30 20 _ "B" _ "s2"); [reflexivity|reflexivity|simpl; lia|].
        left. eexists "A"%string, _. split; [discriminate|]. split; [reflexivity|].
        simpl. apply list_elem_of_singleton. reflexivity. }
      eapply rtc_l.
      { eapply (step_lock 30 20 _ "B" _ "s3"); [reflexivity|reflexivity|simpl; lia| |].
        - intros (o & tx & Hne & Htx & Hk). simpl in Htx.
          rewrite lookup_insert in Htx. destruct (decide ("B"%string = o)); simplify_eq.
          rewrite lookup_insert in Htx. destruct (decide ("A"%string = o)); simplify_eq.
          + simpl in Hk. apply list_elem_of_singleton in Hk. discriminate.
          + rewrite lookup_insert in Htx. destruct (decide ("B"%string = o)); simplify_eq.
            rewrite lookup_insert in Htx. destruct (decide ("A"%string = o)); simplify_eq.
        - eexists. split; [reflexivity|]. reflexivity. }
      eapply rtc_l.
      { eapply (step_commit 30 20 _ "A"); [reflexivity|]. right. reflexivity. }
      eapply rtc_l.
      { eapply (step_commit 30 20 _ "B"); [reflexivity|]. right. reflexivity. }
      apply rtc_refl.
    - reflexivity. }
  destruct Hrun as (c & Hrun & Hout). exists c.
  split; [exact Hquiet|]. split; [exact Hrun|]. split; [exact Hout|].
  exact (racing_acquirers_exclusive 30 20 c0 c Hquiet Hrun).
Defined.

(** ** The notification listener *)

Module ListenerFacts.
Import Listener.

(** The keep-alive loop has no normal exit. *)
Lemma keep_alive_never_normal (fuel : nat) (st : Run) : (keep_alive fuel st).1 ≠ Normal.
Proof.
  revert st. induction fuel as [|fuel IH]; intros st; simpl; [done|].
  destruct (call Select1 st) as [[] st'] eqn:Hcall; simpl; [apply IH|done|done].
Qed.

(** It only pings. *)
Lemma keep_alive_pings (fuel : nat) (st : Run) :
  ∃ n, (keep_alive fuel st).2.2 = st.2 ++ replicate n Select1.
Proof.
  revert st. induction fuel as [|fuel IH]; intros st; simpl.
  - exists O. by rewrite app_nil_r.
  - unfold call. destruct st as [[|[] answers] trace]; simpl.
    + exists O. by rewrite app_nil_r.
    + destruct (IH (answers, trace ++ [Select1])) as [n Hn]. exists (S n).
      rewrite Hn. simpl. by rewrite <- app_assoc.
    + exists 1%nat. done.
Qed.

(** So a session never ends normally either, and neither does the outer
    loop get a second turn. *)
Lemma session_never_normal (fuel : nat) (st : Run) : (session fuel st).1 ≠ Normal.
Proof.
  unfold session, with_connection, try_finally.
  destruct (call Acquire st) as [[] st1]; simpl; try done.
  destruct (call AddListener st1) as [[] st2]; simpl.
  - pose proof (keep_alive_never_normal fuel st2) as Hloop.
    destruct (keep_alive fuel st2) as [[] st3]; simpl in *; try done.
    destruct (call RemoveListener st3) as [[] st4]; simpl; try done.
    + by destruct (call Release st4) as [[] st5].
    + by destruct (call Release st4) as [[] st5].
  - by destruct (call Release st2) as [[] st3].
  - done.
Qed.

Lemma listen_is_one_session (fuel : nat) (st : Run) :
  listen_notifications (S fuel) st = session (S fuel) st.
Proof.
  simpl. pose proof (session_never_normal (S fuel) st) as Hsession.
  by destruct (session (S fuel) st) as [[] st'].
Qed.

Lemma subscriptions_app (t1 t2 : list Action) :
  subscriptions (t1 ++ t2) = (subscriptions t1 + subscriptions t2)%nat.
Proof. unfold subscriptions. by rewrite filter_app, length_app. Qed.

Lemma subscriptions_pings (n : nat) : subscriptions (replicate n Select1) = O.
Proof. induction n as [|n IH]; [done|]. exact IH. Qed.

Lemma call_subscriptions (a : Action) (st : Run) :
  (subscriptions (call a st).2.2
   ≤ subscriptions st.2 + (if decide (a = AddListener) then 1 else 0))%nat.
Proof.
  unfold call. destruct st as [[|[] answers] trace]; simpl; [lia| |].
  all: rewrite subscriptions_app; unfold subscriptions at 2; rewrite filter_cons;
    destruct (decide (a = AddListener)); simpl; lia.
Qed.

Lemma keep_alive_subscriptions (fuel : nat) (st : Run) :
  subscriptions (keep_alive fuel st).2.2 = subscriptions st.2.
Proof.
  destruct (keep_alive_pings fuel st) as [n ->].
  rewrite subscriptions_app, subscriptions_pings. lia.
Qed.

Lemma session_subscriptions (fuel : nat) (st : Run) :
  (subscriptions (session fuel st).2.2 ≤ S (subscriptions st.2))%nat.
Proof.
  unfold session, with_connection, try_finally.
  pose proof (call_subscriptions Acquire st) as H1.
  destruct (call Acquire st) as [c1 st1]. simpl in H1.
  destruct c1; simpl; [|lia|lia].
  pose proof (call_subscriptions AddListener st1) as H2.
  destruct (call AddListener st1) as [c2 st2]. simpl in H2.
  destruct c2; simpl.
  - pose proof (keep_alive_subscriptions fuel st2) as H3.
    destruct (keep_alive fuel st2) as [c3 st3]. simpl in H3.
    pose proof (call_subscriptions RemoveListener st3) as H4.
    destruct c3; simpl; [| |lia].
    all: destruct (call RemoveListener st3) as [c4 st4]; simpl in H4;
      pose proof (call_subscriptions Release st4) as H5;
      destruct c4; simpl; try lia;
      destruct (call Release st4) as [c5 st5]; simpl in H5; destruct c5; simpl; lia.
  - pose proof (call_subscriptions Release st2) as H3.
    destruct (call Release st2) as [c3 st3]. simpl in H3. destruct c3; simpl; lia.
  - lia.
Qed.

(** The listener subscribes at most once, whatever the backend answers, and
    never returns normally: a failure is not followed by a new
    subscription. *)
Lemma listener_never_resubscribes (answers : list bool) :
  (run answers).1 ≠ Normal ∧ (subscriptions (run answers).2 ≤ 1)%nat.
Proof.
  unfold run. rewrite listen_is_one_session. split; [apply session_never_normal|].
  apply (session_subscriptions _ (answers, [])).
Qed.

(** C7 does not hold of [_listen_notifications]: the backend accepts
    the connection, the subscription and one keep-alive query, fails the
    second keep-alive query and would accept whatever follows.  The listener
    removes its subscription, gives the connection back and ends with the
    exception: it does not acquire a connection or subscribe again. *)
Theorem listener_failure_ends_task :
  run [true; true; true; false; true; true; true; true; true; true]
  = (Raised, [Acquire; AddListener; Select1; Select1; RemoveListener; Release]).
Proof. reflexivity. Qed.

End ListenerFacts.

(** ** Schema setup *)

Module SchemaFacts.
Import Schema.

(** C9 as it stands does not hold with [start_from_scratch] set: the relations are
    dropped before the version is read, so a stored version 2 does not make
    setup fail, and the schedules stored are gone. *)
Lemma setup_from_scratch_skips_version_check :
  fetch_version later_release = Some 2 ∧
  setup (scratch sample_config) later_release = (Ok tt, fresh) ∧
  schedules_rel later_release ≠ schedules_rel fresh.
Proof.
  split; [reflexivity|]. split; [reflexivity|].
  intros Heq. apply (f_equal (λ rel, (default (∅, []) rel).1 !! "s1"%string)) in Heq.
  discriminate.
Qed.

(** C9, amended.  With [start_from_scratch] off, setup on a database where
    setup has completed changes nothing: one metadata row holding version 1,
    the two work tables and their indexes as they were; and a stored version
    greater than 1 makes it fail with [RuntimeError], nothing changed.  With
    [start_from_scratch] on, setup always succeeds and leaves the three
    relations newly created and empty, one metadata row holding version 1.
    Under either setting a second setup right after a first one on a blank
    database changes nothing. *)
Theorem setup_idempotent (cfg : Config) (c : Catalog) :
  (start_from_scratch cfg = false → installed c → setup cfg c = (Ok tt, c)) ∧
  (start_from_scratch cfg = false → ∀ v, fetch_version c = Some v → v > 1 →
     ∃ message, setup cfg c = (Raise (RuntimeError message), c)) ∧
  (start_from_scratch cfg = true → setup cfg c = (Ok tt, fresh)) ∧
  (setup cfg blank = (Ok tt, fresh) ∧ setup cfg fresh = (Ok tt, fresh) ∧
   installed fresh ∧ metadata fresh = Some [1]).
Proof.
  split; [|split; [|split]].
  - intros Hflag (s & j & ->). unfold setup, setup_body. by rewrite Hflag.
  - intros Hflag v Hv Hgt. unfold setup, setup_body. rewrite Hflag.
    assert (Hsame : create_metadata c = c).
    { unfold create_metadata. unfold fetch_version in Hv. by destruct (metadata c). }
    rewrite Hsame, Hv, bool_decide_true by done. eauto.
  - intros Hflag. unfold setup, setup_body. by rewrite Hflag.
  - unfold setup, setup_body. destruct (start_from_scratch cfg); simpl.
    all: repeat split; try done; by exists ∅, ∅.
Qed.

Lemma setup_idempotent_witness :
  start_from_scratch sample_config = false ∧
  installed in_use ∧
  fetch_version later_release = Some 2 ∧ 2 > 1 ∧
  setup sample_config in_use = (Ok tt, in_use) ∧
  (∃ message,
     setup sample_config later_release = (Raise (RuntimeError message), later_release)).
Proof.
  assert (Hinst : installed in_use) by (by exists sample_schedules, ∅).
  assert (Hgt : 2 > 1) by lia.
  split; [reflexivity|]. split; [exact Hinst|]. split; [reflexivity|]. split; [exact Hgt|].
  split.
  - exact (proj1 (setup_idempotent sample_config in_use) eq_refl Hinst).
  - exact (proj1 (proj2 (setup_idempotent sample_config later_release)) eq_refl 2 eq_refl Hgt).
Defined.

End SchemaFacts.

(** * Further properties of the store *)

(** ** The interpolated owner *)

Lemma plain_no_quote (s : string) : plain s → contains squote s = false.
Proof.
  induction s as [|c s IH]; [done|]. simpl. unfold plain_char.
  rewrite !andb_True, !negb_True. intros [[[_ Hq] _] Hs].
  unfold contains in *. cbn [list_ascii_of_string existsb]. rewrite IH by done.
  destruct (Ascii.eqb_spec squote c) as [<-|Hne]; [|done].
  by rewrite Ascii.eqb_refl in Hq.
Qed.

Lemma py_escape_char_plain (c : ascii) :
  plain_char c → py_escape_char squote c = String c EmptyString.
Proof.
  unfold plain_char, py_escape_char. rewrite !andb_True, !negb_True.
  intros [[Hp Hq] Hb].
  destruct (Ascii.eqb c squote); [done|]. destruct (Ascii.eqb c backslash); [done|].
  simpl. destruct (Ascii.eqb c "009") eqn:H9.
  { apply Ascii.eqb_eq in H9. by subst. }
  destruct (Ascii.eqb c "010") eqn:H10.
  { apply Ascii.eqb_eq in H10. by subst. }
  destruct (Ascii.eqb c "013") eqn:H13.
  { apply Ascii.eqb_eq in H13. by subst. }
  by destruct (py_printable c).
Qed.

Lemma py_escape_plain (s : string) : plain s → py_escape squote s = s.
Proof.
  induction s as [|c s IH]; [done|]. simpl. rewrite andb_True. intros [Hc Hs].
  by rewrite py_escape_char_plain, IH.
Qed.

Lemma quote_free_body_closed (s : string) :
  contains squote s = false → quote_free_body (s +:+ String squote EmptyString) = Some s.
Proof.
  induction s as [|c s IH]; [intros _; reflexivity|]. unfold contains in *.
  cbn [list_ascii_of_string existsb String.append quote_free_body].
  destruct (Ascii.eqb_spec squote c) as [<-|Hne]; [done|].
  simpl. intros Hs. rewrite (IH Hs).
  destruct (Ascii.eqb_spec c squote) as [->|_]; [by destruct Hne|reflexivity].
Qed.

Lemma owner_read_back_plain (s : string) :
  plain s → sql_string_constant (py_repr s) = Some s.
Proof.
  intros Hs. pose proof (plain_no_quote s Hs) as Hq.
  unfold py_repr, py_quote. rewrite Hq. simpl.
  rewrite py_escape_plain by done. by apply quote_free_body_closed.
Qed.

Lemma py_escape_char_length (q c : ascii) : (1 ≤ String.length (py_escape_char q c))%nat.
Proof.
  unfold py_escape_char.
  repeat match goal with |- context [if ?b then _ else _] => destruct b end; simpl; lia.
Qed.

Lemma append_length (a b : string) :
  String.length (a +:+ b) = (String.length a + String.length b)%nat.
Proof. induction a as [|c a IH]; simpl; [done|]. by rewrite IH. Qed.

Lemma py_escape_length (q : ascii) (s : string) :
  (String.length s ≤ String.length (py_escape q s))%nat.
Proof.
  induction s as [|c s IH]; simpl; [lia|]. rewrite append_length.
  pose proof (py_escape_char_length q c). lia.
Qed.

Lemma py_escape_char_no_quote (c : ascii) :
  c ≠ squote → contains squote (py_escape_char squote c) = false.
Proof.
  intros Hc. unfold py_escape_char.
  destruct (Ascii.eqb_spec c squote) as [->|_]; [done|].
  destruct (Ascii.eqb_spec c backslash) as [->|_]; [reflexivity|]. simpl.
  destruct (Ascii.eqb c "009"); [reflexivity|].
  destruct (Ascii.eqb c "010"); [reflexivity|].
  destruct (Ascii.eqb c "013"); [reflexivity|].
  destruct (py_printable c).
  - unfold contains. cbn [list_ascii_of_string existsb].
    destruct (Ascii.eqb_spec squote c) as [Heq|_]; [|done]. by destruct Hc.
  - unfold contains. cbn [list_ascii_of_string existsb].
    assert (Hhex : ∀ n, (n < 16)%N → Ascii.eqb squote (hex_digit n) = false).
    { intros n Hn. 
      assert (Hcases : n ∈ (N.of_nat <$> seq 0 16)).
      { apply list_elem_of_fmap. exists (N.to_nat n). split; [lia|].
        apply elem_of_seq. lia. }
      simpl in Hcases. set_unfold. 
      repeat (destruct Hcases as [->|Hcases]; [reflexivity|]). done. }
    rewrite !Hhex; [done| |].
    + apply N.mod_lt. lia.
    + apply N.Div0.div_lt_upper_bound.
      pose proof (N_ascii_bounded c). lia.
Qed.

Lemma contains_append (c : ascii) (a b : string) :
  contains c (a +:+ b) = contains c a || contains c b.
Proof.
  unfold contains. induction a as [|x a IH]; simpl; [done|].
  by rewrite IH, orb_assoc.
Qed.

Lemma py_escape_no_quote (s : string) :
  contains squote s = false → contains squote (py_escape squote s) = false.
Proof.
  induction s as [|c s IH]; [done|]. unfold contains at 1.
  cbn [list_ascii_of_string existsb py_escape].
  intros [Hc Hs]%orb_false_elim. rewrite contains_append, IH by done.
  rewrite py_escape_char_no_quote; [done|]. intros ->. by rewrite Ascii.eqb_refl in Hc.
Qed.

Lemma py_escape_quote (s : string) :
  contains squote s = true → contains squote (py_escape squote s) = true.
Proof.
  induction s as [|c s IH]; [done|]. unfold contains at 1.
  cbn [list_ascii_of_string existsb py_escape].
  rewrite contains_append. intros [Hc|Hs]%orb_true_elim.
  - apply Ascii.eqb_eq in Hc as <-. reflexivity.
  - rewrite IH by done. apply orb_true_r.
Qed.

Lemma quote_free_body_open (t : string) :
  contains squote t = true → quote_free_body (t +:+ String squote EmptyString) = None.
Proof.
  induction t as [|c t IH]; [done|]. unfold contains in *.
  cbn [list_ascii_of_string existsb String.append quote_free_body].
  destruct (Ascii.eqb_spec squote c) as [<-|Hne]; simpl.
  - intros _. by destruct t.
  - intros Ht. rewrite (IH Ht).
    destruct (Ascii.eqb_spec c squote) as [->|_]; [by destruct Hne|reflexivity].
Qed.

Lemma py_escape_fixed_plain (s : string) :
  contains squote s = false → py_escape squote s = s → plain s.
Proof.
  induction s as [|c s IH]; [done|]. unfold contains at 1.
  cbn [list_ascii_of_string existsb py_escape plain].
  intros [Hc Hs]%orb_false_elim Hfix.
  assert (Hq : Ascii.eqb c squote = false) by (by rewrite Ascii.eqb_sym).
  pose proof (py_escape_length squote s) as Hlen.
  unfold py_escape_char in Hfix. rewrite Hq in Hfix. simpl in Hfix.
  destruct (Ascii.eqb_spec c backslash) as [->|Hb].
  { simpl in Hfix. injection Hfix as Hfix.
    apply (f_equal String.length) in Hfix. simpl in Hfix.
    rewrite append_length in Hfix. simpl in Hfix. lia. }
  destruct (Ascii.eqb_spec c "009") as [->|_]; [discriminate|].
  destruct (Ascii.eqb_spec c "010") as [->|_]; [discriminate|].
  destruct (Ascii.eqb_spec c "013") as [->|_]; [discriminate|].
  destruct (py_printable c) eqn:Hp.
  - simpl in Hfix. injection Hfix as Hfix. unfold plain_char.
    rewrite Hp, Hq. simpl.
    destruct (Ascii.eqb_spec c backslash) as [->|_]; [done|]. simpl. by apply IH.
  - simpl in Hfix. injection Hfix as Hc' _. by destruct Hb.
Qed.

(** X1.  The owner that [release_schedules] formats into its UPDATE with
    [{scheduler_id!r}] is read back by the engine as the same text exactly
    when it is plain: printable characters other than the single quote and
    the backslash. *)
Theorem owner_read_back (s : string) :
  sql_string_constant (py_repr s) = Some s ↔ plain s.
Proof.
  split; [|apply owner_read_back_plain].
  unfold py_repr, py_quote.
  destruct (contains squote s) eqn:Hq; simpl.
  - destruct (contains dquote s) eqn:Hd; simpl; [|done].
    by rewrite quote_free_body_open by (by apply py_escape_quote).
  - rewrite quote_free_body_closed by (by apply py_escape_no_quote).
    intros [= Hfix]. by apply py_escape_fixed_plain.
Qed.

Section PlainOwner.
Context `{Serializer} `{Engine} (cfg : Config).

(** X2.  For a caller with a plain name [release_schedules] returns
    normally, leaves every row that the caller does not hold as it was, never
    creates a row and does not touch the jobs. *)
Theorem release_schedules_plain_owner (scheduler_id : string) (batch : list Schedule)
  (w : World) :
  plain scheduler_id →
  let res := release_schedules cfg scheduler_id batch w in
  res.1 = Ok tt ∧
  (∀ k r, schedules w !! k = Some r → acquired_by r ≠ Some scheduler_id →
          schedules res.2 !! k = Some r) ∧
  (∀ k, schedules w !! k = None → schedules res.2 !! k = None) ∧
  jobs res.2 = jobs w.
Proof.
  intros Hplain res. apply owner_read_back_plain in Hplain.
  subst res. rewrite release_schedules_run.
  destruct (released_table_read cfg scheduler_id scheduler_id batch (schedules w) Hplain)
    as (tbl & -> & Hlookup).
  simpl. split; [done|]. split; [|split; [|done]].
  - intros k r Hrow Hby. rewrite Hlookup, (executemany_foreign _ _ _ _ r) by done.
    rewrite decide_False; [done|]. by intros [_ ?].
  - intros k Hrow. by rewrite Hlookup, executemany_absent.
Qed.

End PlainOwner.

Lemma release_schedules_plain_owner_witness :
  let w := sample_world held_schedules ∅ in
  let res := @release_schedules sample_serializer strict_engine sample_config "B"
               sample_batch w in
  plain "B" ∧ res.1 = Ok tt ∧
  schedules res.2 !! "s1" = Some (sample_row (Some 5) (Some "A") (Some 100)).
Proof.
  intros w res.
  assert (Hplain : plain "B") by exact I.
  destruct (@release_schedules_plain_owner sample_serializer strict_engine sample_config
              "B" sample_batch w Hplain) as (Hok & Hframe & _).
  split; [exact Hplain|]. split; [exact Hok|].
  apply (Hframe "s1" (sample_row (Some 5) (Some "A") (Some 100))); [reflexivity|discriminate].
Defined.

(** ** get_schedules, add_schedule, remove_schedules and clear together *)

Global Instance id_le_total `{Collation} : Total id_le.
Proof. intros x y. unfold id_le. apply collate_total. Qed.

Global Instance id_le_trans `{Collation} : Transitive id_le.
Proof. intros x y z. unfold id_le. apply collate_trans. Qed.

Lemma NoDup_only {A} (l : list A) (x : A) :
  NoDup l → (∀ k, k ∈ l ↔ k = x) → l = [x].
Proof.
  intros Hnodup Hall. destruct l as [|a l].
  - pose proof (proj2 (Hall x) eq_refl) as Hx. by apply elem_of_nil in Hx.
  - apply NoDup_cons in Hnodup as [Ha _].
    assert (a = x) as -> by (apply Hall; by left).
    destruct l as [|b l]; [done|]. destruct Ha.
    assert (b = x) as -> by (apply Hall; right; by left). by left.
Qed.

Lemma filter_all {A} (P : A → Prop) `{∀ x, Decision (P x)} (l : list A) :
  (∀ x, P x) → filter P l = l.
Proof.
  intros Hall. induction l as [|x l IH]; [done|].
  rewrite filter_cons, decide_True by done. by rewrite IH.
Qed.

Section MoreSchedules.
Context `{Serializer} `{Engine} `{Collation} (cfg : Config).

Lemma deserialize_all_run (records : list bytes) (w : World) :
  deserialize_all records w =
  (match mapM deserialize records with
   | Some found => Ok found
   | None => Raise DeserializationError
   end, w).
Proof.
  induction records as [|record records IH]; [done|]. simpl.
  destruct (deserialize record) as [s|]; [|done]. simpl.
  unfold bind. rewrite IH. by destruct (mapM deserialize records).
Qed.

Lemma selected_schedules_elem (ids : option (list string)) (tbl : ScheduleTable) k r :
  (k, r) ∈ selected_schedules ids tbl ↔ tbl !! k = Some r ∧ requested ids k.
Proof.
  unfold selected_schedules.
  rewrite merge_sort_Permutation, list_elem_of_filter, elem_of_map_to_list. simpl. tauto.
Qed.

Lemma selected_schedules_NoDup (ids : option (list string)) (tbl : ScheduleTable) :
  NoDup (selected_schedules ids tbl).*1.
Proof.
  unfold selected_schedules. rewrite merge_sort_Permutation.
  apply NoDup_fmap_fst; [|apply NoDup_filter, NoDup_map_to_list].
  intros k r1 r2 [_ Hr1]%list_elem_of_filter [_ Hr2]%list_elem_of_filter.
  apply elem_of_map_to_list in Hr1, Hr2. congruence.
Qed.

Lemma get_schedules_run (ids : option (list string)) (w : World) :
  get_schedules cfg ids w =
  (match mapM deserialize
           ((λ kr : string * ScheduleRow, serialized_data kr.2)
              <$> selected_schedules ids (schedules w)) with
   | Some found => Ok found
   | None => Raise DeserializationError
   end,
   mkWorld (schedules w) (jobs w) (clock w) (clock_reads w) (published w)
     (sent w ++ [mkStatement (get_schedules_text cfg ids)
                   [if some_ids ids then [PTextArray (default [] ids)] else []]])
     (logged w)).
Proof.
  unfold get_schedules. unfold bind at 1. unfold send at 1. unfold bind at 1.
  by rewrite deserialize_all_run.
Qed.

(** X3.  [get_schedules] reads without changing anything: the rows it
    fetches are the stored rows whose id is among [ids] - every stored row
    when [ids] is [None] or empty -, each once, in the order of the
    collation on ids; it returns their payloads deserialized in that order,
    or raises [DeserializationError] when one of those payloads does not
    deserialize; tables and published events are as before.  Asking for an
    empty collection of ids is asking for everything. *)
Theorem get_schedules_sorted_complete (ids : option (list string)) (w : World) :
  let rows := selected_schedules ids (schedules w) in
  let res := get_schedules cfg ids w in
  (∀ k r, (k, r) ∈ rows ↔
          schedules w !! k = Some r ∧ (some_ids ids = false ∨ k ∈ default [] ids)) ∧
  NoDup rows.*1 ∧
  StronglySorted (λ x y : string * ScheduleRow, collate x.1 y.1) rows ∧
  ((∃ found, res.1 = Ok found ∧
             Forall2 (λ kr s, deserialize (serialized_data kr.2) = Some s) rows found)
   ∨ (res.1 = Raise DeserializationError ∧
      ∃ k r, (k, r) ∈ rows ∧ deserialize (serialized_data r) = None)) ∧
  schedules res.2 = schedules w ∧ jobs res.2 = jobs w ∧ published res.2 = published w ∧
  get_schedules cfg (Some []) w = get_schedules cfg None w.
Proof.
  intros rows res. split; [|split; [|split; [|split]]].
  - intros k r. subst rows. rewrite selected_schedules_elem. unfold requested.
    destruct (some_ids ids); [split; [intros [? ?]; eauto|intros [? [?|?]]; done]|].
    split; [intros [? _]; eauto|intros [? _]; done].
  - apply selected_schedules_NoDup.
  - apply (StronglySorted_merge_sort id_le).
  - subst res. rewrite get_schedules_run. simpl. fold rows.
    destruct (mapM deserialize _) as [found|] eqn:Hmap.
    + left. exists found. split; [done|]. apply mapM_Some in Hmap.
      by apply Forall2_fmap_l in Hmap.
    + right. split; [done|]. apply mapM_None in Hmap.
      apply Exists_exists in Hmap as (d & Hd & Hnone).
      apply list_elem_of_fmap in Hd as ([k r] & -> & Hin). by exists k, r.
  - subst res. rewrite get_schedules_run. done.
Qed.

(** X4.  Two ways in which [add_schedule] adds nothing.  A schedule that
    does not serialize makes it raise [SerializationError] before anything is
    sent, under every policy: the world is as before.  And when the id is
    taken and the policy is neither [exception] nor [replace], it returns
    normally with the table as it was and no event published - yet the
    statements sent are the INSERT followed, when a channel is configured, by
    the NOTIFY. *)
Theorem add_schedule_adds_nothing (s : Schedule) (w : World) :
  (serialize s = None →
   ∀ policy, add_schedule cfg s policy w = (Raise SerializationError, w)) ∧
  (∀ data r,
     serialize s = Some data → schedules w !! schedule_id s = Some r →
     let res := add_schedule cfg s do_nothing w in
     res.1 = Ok tt ∧ schedules res.2 = schedules w ∧ published res.2 = published w ∧
     sent res.2 = add_schedule_sent cfg [insert_text cfg] s data w).
Proof.
  split.
  - intros Hser policy. unfold add_schedule. run_store. by rewrite Hser.
  - intros data r Hser Hrow. unfold add_schedule, insert_schedule, add_schedule_sent.
    run_store. rewrite Hser. simpl. rewrite Hrow. simpl.
    destruct (truthy (notify_channel cfg)); unfold ret, send; simpl;
      rewrite <- ?app_assoc, ?app_nil_r; by destruct w.
Qed.

(** X5.  Adding a schedule under a new id and then removing that id gives
    back the table as it was before the two calls, whatever the policy; the
    events published are one [ScheduleAdded] and then one [ScheduleRemoved]
    for that id, stamped with the two successive clock readings. *)
Theorem add_then_remove_restores (s : Schedule) (data : bytes) (policy : ConflictPolicy)
  (w : World) :
  serialize s = Some data → schedules w !! schedule_id s = None →
  let w1 := (add_schedule cfg s policy w).2 in
  let res := remove_schedules cfg [schedule_id s] w1 in
  res.1 = Ok tt ∧ schedules res.2 = schedules w ∧
  published res.2 =
    published w
    ++ [ScheduleAdded (clock w (clock_reads w)) (schedule_id s) (schedule_next_fire_time s);
        ScheduleRemoved (clock w (S (clock_reads w))) (schedule_id s)].
Proof.
  intros Hser Hfresh w1 res. subst res w1.
  rewrite (add_schedule_fresh_run cfg s data policy w Hser Hfresh).
  rewrite remove_schedules_run. simpl.
  set (row := mkScheduleRow (schedule_task_id s) data (schedule_next_fire_time s) None None).
  set (now := clock w (S (clock_reads w))).
  split; [done|]. split.
  - apply map_eq. intros k. apply option_eq. intros r.
    rewrite map_lookup_filter_Some. unfold removable. simpl.
    destruct (decide (k = schedule_id s)) as [->|Hne].
    + rewrite lookup_insert_eq, Hfresh. split; [|done].
      intros [[= <-] Hkept]. destruct Hkept. split; [by left|done].
    + rewrite lookup_insert_ne by done. split; [by intros [? _]|].
      intros Hrow. split; [done|]. intros [Hk%list_elem_of_singleton _]. done.
  - rewrite <- app_assoc. do 2 f_equal. simpl.
    assert ((filter (removable [schedule_id s] now)
               (map_to_list (<[schedule_id s := row]> (schedules w)))).*1
            = [schedule_id s]) as ->; [|done].
    apply NoDup_only; [apply removed_ids_NoDup|]. intros k. rewrite removed_ids_spec.
    split.
    + by intros (r & _ & Hk%list_elem_of_singleton & _).
    + intros ->. exists row. split; [apply lookup_insert_eq|]. split; [by left|done].
Qed.

(** X6.  A schedule added under a new id is among the schedules that
    [get_schedules] returns next, provided the serializer gives it back from
    its payload and every row stored before deserializes; the list returned
    has one entry more than the table had rows. *)
Theorem add_then_get_returns (s : Schedule) (data : bytes) (policy : ConflictPolicy)
  (w : World) :
  serialize s = Some data → deserialize data = Some s →
  schedules w !! schedule_id s = None →
  (∀ k r, schedules w !! k = Some r → is_Some (deserialize (serialized_data r))) →
  let w1 := (add_schedule cfg s policy w).2 in
  ∃ found, (get_schedules cfg None w1).1 = Ok found ∧ s ∈ found ∧
           length found = S (size (schedules w)).
Proof.
  intros Hser Hback Hfresh Hall w1. subst w1.
  rewrite (add_schedule_fresh_run cfg s data policy w Hser Hfresh).
  rewrite get_schedules_run. simpl.
  set (tbl := <[schedule_id s := mkScheduleRow (schedule_task_id s) data
                                    (schedule_next_fire_time s) None None]> (schedules w)).
  destruct (mapM deserialize _) as [found|] eqn:Hmap.
  - exists found. split; [done|]. apply mapM_Some in Hmap.
    apply Forall2_fmap_l in Hmap. split.
    + assert (Hin : (schedule_id s,
                     mkScheduleRow (schedule_task_id s) data (schedule_next_fire_time s)
                       None None) ∈ selected_schedules None tbl).
      { apply selected_schedules_elem. split; [apply lookup_insert_eq|done]. }
      apply list_elem_of_lookup in Hin as [i Hi].
      destruct (Forall2_lookup_l _ _ _ _ _ Hmap Hi) as (s' & Hs' & Hd).
      simpl in Hd. rewrite Hback in Hd. injection Hd as <-.
      by apply list_elem_of_lookup_2 in Hs'.
    + rewrite <- (Forall2_length _ _ _ Hmap). unfold selected_schedules.
      rewrite merge_sort_Permutation.
      rewrite filter_all by done. rewrite length_map_to_list.
      by apply map_size_insert_None.
  - exfalso. apply mapM_None in Hmap. apply Exists_exists in Hmap as (d & Hd & Hnone).
    apply list_elem_of_fmap in Hd as ([k r] & -> & [Hrow _]%selected_schedules_elem).
    simpl in Hnone. destruct (decide (k = schedule_id s)) as [->|Hne].
    + unfold tbl in Hrow. rewrite lookup_insert_eq in Hrow. injection Hrow as <-.
      simpl in Hnone. congruence.
    + unfold tbl in Hrow. rewrite lookup_insert_ne in Hrow by done.
      destruct (Hall k r Hrow) as [? Hsome]. congruence.
Qed.

Lemma clear_run (w : World) :
  clear cfg w =
  (Ok tt,
   mkWorld ∅ ∅ (clock w) (clock_reads w) (published w)
     (sent w ++ [mkStatement (truncate_schedules_text cfg) [[]];
                 mkStatement (truncate_jobs_text cfg) [[]]])
     (logged w)).
Proof. unfold clear. run_store. by rewrite <- app_assoc. Qed.

(** X7.  [clear] returns normally and leaves both tables empty, leased rows
    included, without publishing an event for any row it drops; afterwards
    [get_schedules] returns the empty list and a transaction of
    [acquire_schedules] leases nothing. *)
Theorem clear_truncates (w : World) :
  let res := clear cfg w in
  res.1 = Ok tt ∧ schedules res.2 = ∅ ∧ jobs res.2 = ∅ ∧
  published res.2 = published w ∧
  (get_schedules cfg None res.2).1 = Ok [] ∧
  ∀ owner limit, 0 ≤ limit → (acquire_transaction cfg owner limit res.2).1 = Ok [].
Proof.
  intros res. subst res. rewrite clear_run. simpl.
  split; [done|]. split; [done|]. split; [done|]. split; [done|]. split.
  - rewrite get_schedules_run. simpl. unfold selected_schedules.
    by rewrite map_to_list_empty.
  - intros owner limit Hlimit. rewrite acquire_transaction_run by done. simpl.
    unfold leased_data, lease_rows. by rewrite map_imap_empty, map_to_list_empty.
Qed.

End MoreSchedules.

Lemma add_schedule_adds_nothing_witness :
  let bad := mkSchedule "s4" "task" (Some 7) "unpicklable" in
  let taken := mkSchedule "s1" "other task" (Some 7) EmptyString in
  let w := sample_world sample_schedules ∅ in
  @serialize sample_serializer bad = None ∧
  @serialize sample_serializer taken = Some (list_byte_of_string "s1") ∧
  @add_schedule sample_serializer sample_config bad replace w
    = (Raise SerializationError, w) ∧
  schedules (@add_schedule sample_serializer sample_config taken do_nothing w).2
    = sample_schedules.
Proof.
  intros bad taken w.
  assert (Hbad : @serialize sample_serializer bad = None) by reflexivity.
  assert (Hser : @serialize sample_serializer taken = Some (list_byte_of_string "s1"))
    by reflexivity.
  split; [exact Hbad|]. split; [exact Hser|]. split.
  - exact (proj1 (@add_schedule_adds_nothing sample_serializer sample_config bad w)
             Hbad replace).
  - exact (proj1 (proj2 (proj2 (@add_schedule_adds_nothing sample_serializer sample_config
                                   taken w) _ (sample_row (Some 5) None None)
                                  Hser eq_refl))).
Defined.

Lemma add_then_remove_restores_witness :
  let w := sample_world sample_schedules ∅ in
  @serialize sample_serializer new_schedule = Some (list_byte_of_string "s9") ∧
  schedules w !! "s9" = None ∧
  schedules (remove_schedules sample_config ["s9"]
               (@add_schedule sample_serializer sample_config new_schedule exception w).2).2
    = sample_schedules.
Proof.
  intros w.
  assert (Hser : @serialize sample_serializer new_schedule
                 = Some (list_byte_of_string "s9")) by reflexivity.
  assert (Hfresh : schedules w !! schedule_id new_schedule = None) by reflexivity.
  split; [exact Hser|]. split; [exact Hfresh|].
  exact (proj1 (proj2 (@add_then_remove_restores sample_serializer sample_config
                         new_schedule _ exception w Hser Hfresh))).
Defined.

Lemma add_then_get_returns_witness :
  let w := sample_world ∅ ∅ in
  @serialize sample_serializer new_schedule = Some (list_byte_of_string "s9") ∧
  @deserialize sample_serializer (list_byte_of_string "s9") = Some new_schedule ∧
  ∃ found,
    (@get_schedules sample_serializer c_collation sample_config None
       (@add_schedule sample_serializer sample_config new_schedule exception w).2).1
      = Ok found ∧
    new_schedule ∈ found ∧ length found = 1%nat.
Proof.
  intros w.
  assert (Hser : @serialize sample_serializer new_schedule
                 = Some (list_byte_of_string "s9")) by reflexivity.
  assert (Hback : @deserialize sample_serializer (list_byte_of_string "s9")
                  = Some new_schedule) by reflexivity.
  assert (Hfresh : schedules w !! schedule_id new_schedule = None) by reflexivity.
  assert (Hall : ∀ k r, schedules w !! k = Some r →
                        is_Some (@deserialize sample_serializer (serialized_data r))).
  { intros k r Hrow. simpl in Hrow. by rewrite lookup_empty in Hrow. }
  split; [exact Hser|]. split; [exact Hback|].
  exact (@add_then_get_returns sample_serializer c_collation sample_config new_schedule _
           exception w Hser Hback Hfresh Hall).
Defined.

Lemma clear_truncates_witness :
  let w := sample_world sample_schedules sample_jobs in
  0 ≤ 5 ∧
  (acquire_transaction sample_config "A" 5 (clear sample_config w).2).1 = Ok [].
Proof.
  intros w. assert (Hlimit : 0 ≤ 5) by lia. split; [exact Hlimit|].
  exact (proj2 (proj2 (proj2 (proj2 (proj2
           (@clear_truncates sample_serializer c_collation sample_config w)))))
           "A" 5 Hlimit).
Defined.

(** ** More on acquire_schedules *)

Lemma lease_rows_nil (owner : string) (until : Z) (tbl : ScheduleTable) :
  lease_rows [] owner until tbl = tbl.
Proof.
  apply map_eq. intros k. rewrite lease_rows_lookup.
  rewrite decide_False; [by destruct (tbl !! k)|]. apply not_elem_of_nil.
Qed.

Lemma leased_data_nil (tbl : ScheduleTable) : leased_data [] tbl = [].
Proof.
  unfold leased_data.
  assert (filter (λ kr : string * ScheduleRow, kr.1 ∈ []) (map_to_list tbl) = []) as ->;
    [|done].
  induction (map_to_list tbl) as [|x l IH]; [done|].
  rewrite filter_cons, decide_False; [done|]. apply not_elem_of_nil.
Qed.

Lemma candidates_none (now : Z) (tbl : ScheduleTable) :
  (∀ k r, tbl !! k = Some r → available now r = false) → candidates ∅ now tbl = [].
Proof.
  intros Hnone. destruct (candidates ∅ now tbl) as [|[k r] l] eqn:Hc; [done|].
  assert (Hin : (k, r) ∈ candidates ∅ now tbl) by (rewrite Hc; by left).
  apply candidates_elem in Hin as (Hrow & Hav & _).
  by rewrite (Hnone k r Hrow) in Hav.
Qed.

Lemma schedule_ids_elem (now : Z) (n : nat) (tbl : ScheduleTable) (k : string) :
  k ∈ schedule_ids ∅ now n tbl → ∃ r, tbl !! k = Some r ∧ available now r.
Proof.
  unfold schedule_ids. intros ([k' r] & -> & Hin)%list_elem_of_fmap.
  apply (subseteq_take _ _) in Hin. apply candidates_elem in Hin as (Hrow & Hav & _).
  by exists r.
Qed.

Section MoreAcquire.
Context `{Serializer} `{Engine} (cfg : Config).

(** A turn that finds nothing to lease. *)
Lemma acquire_cycle_idle (owner : string) (limit : Z) (w : World) :
  0 ≤ limit →
  schedule_ids ∅ (clock w (S (clock_reads w))) (Z.to_nat limit) (schedules w) = [] →
  ∃ w', acquire_cycle cfg owner limit w = (Ok [], w') ∧
        schedules w' = schedules w ∧ jobs w' = jobs w ∧ clock w' = clock w ∧
        clock_reads w' = S (S (clock_reads w)) ∧ published w' = published w.
Proof.
  intros Hlimit Hnone. unfold acquire_cycle. unfold bind.
  rewrite acquire_transaction_run by done. rewrite Hnone, lease_rows_nil, leased_data_nil.
  simpl. eexists. split; [done|]. by simpl.
Qed.

(** X8.  [acquire_schedules] does not return while there is nothing to
    lease: with [limit = 0], or with a store in which no row is available at
    any time the clock shows, every turn of its loop comes back empty, so
    after any number of turns the call is still waiting; it has raised
    nothing, left the table as it was, published nothing and read the clock
    twice per turn. *)
Theorem acquire_schedules_keeps_polling (polls : nat) (owner : string) (limit : Z)
  (w : World) :
  0 ≤ limit →
  limit = 0 ∨ (∀ n k r, schedules w !! k = Some r → available (clock w n) r = false) →
  let res := acquire_schedules cfg polls owner limit w in
  res.1 = Ok None ∧ schedules res.2 = schedules w ∧ published res.2 = published w ∧
  clock_reads res.2 = (clock_reads w + 2 * polls)%nat.
Proof.
  intros Hlimit Hidle. revert w Hidle.
  induction polls as [|polls IH]; intros w Hidle res.
  - subst res. simpl. unfold ret. simpl. repeat split; try done; lia.
  - subst res. rewrite acquire_schedules_turn.
    destruct (acquire_cycle_idle owner limit w Hlimit)
      as (w' & -> & Hs & _ & Hc & Hr & Hp).
    { destruct Hidle as [->|Hidle]; [done|].
      unfold schedule_ids. rewrite candidates_none; [by rewrite take_nil|].
      intros k r. apply Hidle. }
    simpl. destruct (IH w') as (Hok & Hs' & Hp' & Hr').
    { destruct Hidle as [->|Hidle]; [by left|right]. rewrite Hs, Hc. apply Hidle. }
    rewrite Hok, Hs', Hp', Hr', Hs, Hp, Hr. repeat split; try done; lia.
Qed.

(** X9.  The leases of [acquire_schedules] are committed before the payloads
    are deserialized: when one of the rows selected holds a payload that
    does not deserialize, the call raises [DeserializationError] and that
    row stays leased to the caller until the lease runs out. *)
Theorem acquire_commits_before_deserializing (polls : nat) (owner : string) (limit : Z)
  (w : World) (k : string) (r : ScheduleRow) :
  0 ≤ limit →
  k ∈ schedule_ids ∅ (clock w (S (clock_reads w))) (Z.to_nat limit) (schedules w) →
  schedules w !! k = Some r →
  deserialize (serialized_data r) = None →
  let res := acquire_schedules cfg (S polls) owner limit w in
  res.1 = Raise DeserializationError ∧
  schedules res.2 !! k
    = Some (lease_row owner (clock w (clock_reads w) + lock_expiration_delay cfg) r).
Proof.
  intros Hlimit Hk Hrow Hbad res. subst res. rewrite acquire_schedules_turn.
  unfold acquire_cycle, bind. rewrite acquire_transaction_run by done.
  rewrite deserialize_all_run. simpl.
  set (now := clock w (S (clock_reads w))) in *.
  set (ids := schedule_ids ∅ now (Z.to_nat limit) (schedules w)) in *.
  assert (Hnone : mapM deserialize
            (leased_data ids (lease_rows ids owner
               (clock w (clock_reads w) + lock_expiration_delay cfg) (schedules w))) = None).
  { apply mapM_None, Exists_exists. exists (serialized_data r). split; [|done].
    unfold leased_data. apply list_elem_of_fmap.
    exists (k, lease_row owner (clock w (clock_reads w) + lock_expiration_delay cfg) r).
    split; [done|]. apply list_elem_of_filter. split; [done|].
    apply elem_of_map_to_list. by rewrite lease_rows_lookup, decide_True, Hrow. }
  rewrite Hnone. simpl. split; [done|].
  by rewrite lease_rows_lookup, decide_True, Hrow.
Qed.

(** X10.  A transaction of [acquire_schedules] writes lease columns only:
    the ids stored and, for each row, its task id, payload and next fire time
    are as before, the jobs table is untouched and no event is published.  A
    negative limit is refused by the engine (SQLSTATE 2201W) and the table is
    as it was. *)
Theorem acquire_keeps_rows (owner : string) (limit : Z) (w : World) :
  let res := acquire_transaction cfg owner limit w in
  (∀ k, (λ r, (task_id r, serialized_data r, next_fire_time r)) <$> schedules res.2 !! k
        = (λ r, (task_id r, serialized_data r, next_fire_time r)) <$> schedules w !! k) ∧
  jobs res.2 = jobs w ∧ published res.2 = published w ∧
  (limit < 0 → res.1 = Raise (PostgresError "2201W") ∧ schedules res.2 = schedules w).
Proof.
  intros res. subst res. destruct (decide (0 ≤ limit)) as [Hlimit|Hneg].
  - rewrite acquire_transaction_run by done. simpl. repeat split; try done; try lia.
    intros k. rewrite lease_rows_lookup.
    destruct (decide (k ∈ _)); [|done]. by destruct (schedules w !! k).
  - assert (Hlt : limit < 0) by lia.
    unfold acquire_transaction, acquire_statement. run_store.
    rewrite bool_decide_true by lia. simpl. repeat split; done.
Qed.

(** X11.  Two transactions of [acquire_schedules] one after the other, by
    any two callers: while the clock reading of the second is not past the
    end of the leases the first one wrote, the second selects none of the
    rows the first selected.  Once it is past - at once when
    [lock_expiration_delay] is not positive and the clock moves on - a row
    of the first that is still due is selected again, when the limit of the
    second leaves room for every candidate. *)
Theorem consecutive_acquires_disjoint (owner1 owner2 : string) (limit1 limit2 : Z)
  (w : World) :
  0 ≤ limit1 → 0 ≤ limit2 →
  let n := clock_reads w in
  let w1 := (acquire_transaction cfg owner1 limit1 w).2 in
  let first := schedule_ids ∅ (clock w (S n)) (Z.to_nat limit1) (schedules w) in
  let second := schedule_ids ∅ (clock w (S (S (S n)))) (Z.to_nat limit2) (schedules w1) in
  (acquire_transaction cfg owner2 limit2 w1).1 = Ok (leased_data second
     (lease_rows second owner2 (clock w (S (S n)) + lock_expiration_delay cfg)
        (schedules w1))) ∧
  (clock w (S (S (S n))) ≤ clock w n + lock_expiration_delay cfg →
   ∀ k, k ∈ first → k ∉ second) ∧
  (clock w n + lock_expiration_delay cfg < clock w (S (S (S n))) →
   ∀ k r f, k ∈ first → schedules w !! k = Some r →
            next_fire_time r = Some f → f ≤ clock w (S (S (S n))) →
            (length (candidates ∅ (clock w (S (S (S n)))) (schedules w1))
             ≤ Z.to_nat limit2)%nat →
            k ∈ second).
Proof.
  intros Hl1 Hl2 n w1 first second. subst w1 second.
  rewrite (acquire_transaction_run cfg owner1 limit1 w Hl1). simpl. fold n first.
  split; [by rewrite acquire_transaction_run by done|]. split.
  - intros Hwindow k Hk Hk2. apply schedule_ids_elem in Hk2 as (r' & Hrow & Hav).
    rewrite lease_rows_lookup, decide_True in Hrow by done.
    destruct (schedules w !! k) as [r|]; [|done]. injection Hrow as <-.
    apply available_spec in Hav as [_ [Hnone|(u & [= <-] & Hu)]]; [done|]. lia.
  - intros Hexpired k r f Hk Hrow Hf Hdue Hall. unfold schedule_ids.
    rewrite take_ge by done. apply list_elem_of_fmap.
    exists (k, lease_row owner1 (clock w n + lock_expiration_delay cfg) r).
    split; [done|]. apply candidates_elem.
    split; [by rewrite lease_rows_lookup, decide_True, Hrow|]. split; [|set_solver].
    apply available_spec. simpl. split; [by exists f|]. right. eauto.
Qed.

(** X12.  Acquiring and then releasing, by an owner whose name is plain, a
    batch with distinct ids: the release returns normally; a schedule of the
    batch that was among the rows just leased and comes back with a next
    fire time [f] and a payload has its row rewritten with both and its lease
    cleared, so that from then on it is available exactly at the times
    [t ≥ f]; one that comes back without a next fire time has its row
    deleted; and a row whose id is not in the batch is as the acquisition
    left it. *)
Theorem acquire_then_release_rearms (owner : string) (limit : Z) (batch : list Schedule)
  (w : World) :
  0 ≤ limit → plain owner → NoDup (schedule_id <$> batch) →
  let ids := schedule_ids ∅ (clock w (S (clock_reads w))) (Z.to_nat limit) (schedules w) in
  let w1 := (acquire_transaction cfg owner limit w).2 in
  let res := release_schedules cfg owner batch w1 in
  res.1 = Ok tt ∧
  (∀ s data r f,
     s ∈ batch → schedule_id s ∈ ids → schedules w !! schedule_id s = Some r →
     schedule_next_fire_time s = Some f → serialize s = Some data →
     let row := mkScheduleRow (task_id r) data (Some f) None None in
     schedules res.2 !! schedule_id s = Some row ∧
     ∀ t, available t row = bool_decide (f ≤ t)) ∧
  (∀ s, s ∈ batch → schedule_id s ∈ ids → schedule_next_fire_time s = None →
        schedules res.2 !! schedule_id s = None) ∧
  (∀ k, k ∉ schedule_id <$> batch → schedules res.2 !! k = schedules w1 !! k).
Proof.
  intros Hlimit Hplain Hnodup ids w1 res. subst res w1.
  rewrite acquire_transaction_run by done. simpl. fold ids.
  set (until := clock w (clock_reads w) + lock_expiration_delay cfg).
  rewrite release_schedules_run. simpl.
  destruct (released_table_read cfg owner owner batch (lease_rows ids owner until (schedules w))
              (owner_read_back_plain owner Hplain)) as (tbl' & -> & Hlookup).
  simpl. split; [done|].
  assert (Hids : NoDup (release_update_args batch).*2).
  { rewrite release_args_ids. eapply sublist_NoDup; [exact Hnodup|].
    apply fmap_sublist, sublist_filter. }
  split; [|split].
  - intros s data r f Hin Hk Hrow Hf Hser.
    assert (Hact : still_active s) by (unfold still_active; by rewrite Hf, Hser).
    split; [|intros t; unfold available, fire_due, lease_free; simpl;
             by rewrite andb_true_r].
    rewrite Hlookup.
    rewrite (executemany_owned owner (release_update_args batch) _ data
               (schedule_next_fire_time s) (schedule_id s) (lease_row owner until r) Hids
               (release_args_elem batch s data Hin Hact Hser)).
    + rewrite decide_False; [by rewrite Hf|]. simpl. by intros [_ ?].
    + by rewrite lease_rows_lookup, decide_True, Hrow.
    + done.
  - intros s Hin Hk Hf.
    assert (Hfin : ¬ still_active s).
    { unfold still_active. rewrite Hf. simpl. tauto. }
    destruct (schedule_ids_elem _ _ _ _ Hk) as (r & Hrow & _).
    rewrite Hlookup, executemany_other.
    + rewrite lease_rows_lookup, decide_True, Hrow by done. simpl.
      rewrite decide_True; [done|]. split; [|done].
      unfold release_finished_ids. apply list_elem_of_fmap_2.
      by apply list_elem_of_filter.
    + rewrite release_args_ids. by apply release_ids_disjoint.
  - intros k Hk. rewrite Hlookup, executemany_other.
    + destruct (lease_rows ids owner until (schedules w) !! k) as [r|]; [|done].
      rewrite decide_False; [done|]. intros [Hfin _]. destruct Hk.
      unfold release_finished_ids in Hfin.
      apply list_elem_of_fmap in Hfin as (s & -> & [_ Hs]%list_elem_of_filter).
      by apply list_elem_of_fmap_2.
    + rewrite release_args_ids. intros (s & -> & [_ Hs]%list_elem_of_filter)%list_elem_of_fmap.
      destruct Hk. by apply list_elem_of_fmap_2.
Qed.

End MoreAcquire.

Lemma acquire_schedules_keeps_polling_witness :
  let w := sample_world sample_schedules ∅ in
  0 ≤ 0 ∧
  (@acquire_schedules sample_serializer sample_config 3 "A" 0 w).1 = Ok None ∧
  clock_reads (@acquire_schedules sample_serializer sample_config 3 "A" 0 w).2 = 6%nat.
Proof.
  intros w. assert (Hlimit : 0 ≤ 0) by lia. split; [exact Hlimit|].
  destruct (@acquire_schedules_keeps_polling sample_serializer sample_config 3 "A" 0 w
              Hlimit (or_introl eq_refl)) as (Hres & _ & _ & Hreads).
  split; [exact Hres|exact Hreads].
Defined.

Lemma acquire_commits_before_deserializing_witness :
  let w := sample_world sample_schedules ∅ in
  let res := @acquire_schedules sample_serializer sample_config 1 "B" 5 w in
  0 ≤ 5 ∧
  "s1" ∈ schedule_ids ∅ 11 5 sample_schedules ∧
  @deserialize sample_serializer [] = None ∧
  res.1 = Raise DeserializationError ∧
  schedules res.2 !! "s1" = Some (sample_row (Some 5) (Some "B") (Some 40)).
Proof.
  intros w res. assert (Hlimit : 0 ≤ 5) by lia.
  assert (Hk : "s1" ∈ schedule_ids ∅ (clock w (S (clock_reads w))) (Z.to_nat 5)
                        (schedules w)).
  { apply (bool_decide_unpack _). vm_compute. exact I. }
  assert (Hbad : @deserialize sample_serializer
                   (serialized_data (sample_row (Some 5) None None)) = None)
    by reflexivity.
  split; [exact Hlimit|]. split; [exact Hk|]. split; [exact Hbad|].
  exact (@acquire_commits_before_deserializing sample_serializer sample_config 0 "B" 5 w
           "s1" (sample_row (Some 5) None None) Hlimit Hk eq_refl Hbad).
Defined.

Lemma acquire_keeps_rows_witness :
  let w := sample_world sample_schedules ∅ in
  -1 < 0 ∧
  (acquire_transaction sample_config "A" (-1) w).1 = Raise (PostgresError "2201W") ∧
  schedules (acquire_transaction sample_config "A" (-1) w).2 = sample_schedules.
Proof.
  intros w. assert (Hlimit : -1 < 0) by lia. split; [exact Hlimit|].
  exact (proj2 (proj2 (proj2 (acquire_keeps_rows sample_config "A" (-1) w))) Hlimit).
Defined.

Lemma consecutive_acquires_disjoint_witness :
  let w := sample_world sample_schedules ∅ in
  let w1 := (acquire_transaction sample_config "A" 5 w).2 in
  0 ≤ 5 ∧ 13 ≤ 10 + 30 ∧
  "s1" ∈ schedule_ids ∅ 11 5 sample_schedules ∧
  "s1" ∉ schedule_ids ∅ 13 5 (schedules w1).
Proof.
  intros w w1. assert (Hlimit : 0 ≤ 5) by lia.
  assert (Hwindow : 13 ≤ 10 + 30) by lia.
  assert (Hk : "s1" ∈ schedule_ids ∅ 11 5 sample_schedules).
  { apply (bool_decide_unpack _). vm_compute. exact I. }
  split; [exact Hlimit|]. split; [exact Hwindow|]. split; [exact Hk|].
  exact (proj1 (proj2 (consecutive_acquires_disjoint sample_config "A" "B" 5 5 w
                         Hlimit Hlimit)) Hwindow "s1" Hk).
Defined.

Lemma acquire_then_release_rearms_witness :
  let w := sample_world sample_schedules ∅ in
  let w1 := (acquire_transaction sample_config "B" 5 w).2 in
  let res := @release_schedules sample_serializer strict_engine sample_config "B"
               sample_batch w1 in
  0 ≤ 5 ∧ plain "B" ∧ NoDup (schedule_id <$> sample_batch) ∧
  res.1 = Ok tt ∧
  schedules res.2 !! "s2"
    = Some (mkScheduleRow "task" (list_byte_of_string "s2") (Some 50) None None) ∧
  schedules res.2 !! "s1" = None.
Proof.
  intros w w1 res. assert (Hlimit : 0 ≤ 5) by lia.
  assert (Hplain : plain "B") by exact I.
  assert (Hnodup : NoDup (schedule_id <$> sample_batch)).
  { apply (bool_decide_unpack _). vm_compute. exact I. }
  assert (Hs2 : "s2" ∈ schedule_ids ∅ (clock w (S (clock_reads w))) (Z.to_nat 5)
                         (schedules w)).
  { apply (bool_decide_unpack _). vm_compute. exact I. }
  assert (Hs1 : "s1" ∈ schedule_ids ∅ (clock w (S (clock_reads w))) (Z.to_nat 5)
                         (schedules w)).
  { apply (bool_decide_unpack _). vm_compute. exact I. }
  destruct (@acquire_then_release_rearms sample_serializer strict_engine sample_config
              "B" 5 sample_batch w Hlimit Hplain Hnodup) as (Hok & Hactive & Hfinished & _).
  split; [exact Hlimit|]. split; [exact Hplain|]. split; [exact Hnodup|].
  split; [exact Hok|]. split.
  - apply (Hactive (mkSchedule "s2" "task" (Some 50) EmptyString)
             (list_byte_of_string "s2") (sample_row (Some 3) (Some "A") (Some 8)) 50).
    + apply (bool_decide_unpack _). vm_compute. exact I.
    + exact Hs2.
    + reflexivity.
    + reflexivity.
    + reflexivity.
  - apply (Hfinished (mkSchedule "s1" "task" None EmptyString)).
    + apply (bool_decide_unpack _). vm_compute. exact I.
    + exact Hs1.
    + reflexivity.
Defined.

(** ** The job store *)

Global Instance created_le_total : Total created_le.
Proof. intros x y. unfold created_le. lia. Qed.

Global Instance created_le_trans : Transitive created_le.
Proof. intros x y z. unfold created_le. lia. Qed.

Global Instance uuid_le_total : Total uuid_le.
Proof. intros x y. unfold uuid_le. lia. Qed.

Global Instance uuid_le_trans : Transitive uuid_le.
Proof. intros x y z. unfold uuid_le. lia. Qed.

Lemma job_lease_free_spec (now : Z) (r : JobRow) :
  job_lease_free now r ↔
  job_row_acquired_until r = None ∨ ∃ u, job_row_acquired_until r = Some u ∧ u < now.
Proof.
  unfold job_lease_free. destruct (job_row_acquired_until r) as [u|].
  - rewrite bool_decide_spec. split; [intros Hu; right; by exists u|].
    by intros [Hu|(u' & [= <-] & Hu)].
  - split; [by left|done].
Qed.

Lemma job_candidates_elem (now : Z) (tbl : JobTable) k r :
  (k, r) ∈ job_candidates now tbl ↔ tbl !! k = Some r ∧ job_lease_free now r.
Proof.
  unfold job_candidates.
  rewrite merge_sort_Permutation, list_elem_of_filter, elem_of_map_to_list. simpl. tauto.
Qed.

Lemma job_candidates_sorted (now : Z) (tbl : JobTable) :
  StronglySorted created_le (job_candidates now tbl).
Proof. apply (StronglySorted_merge_sort created_le). Qed.

Lemma job_candidates_NoDup (now : Z) (tbl : JobTable) : NoDup (job_candidates now tbl).*1.
Proof.
  unfold job_candidates. rewrite merge_sort_Permutation.
  apply NoDup_fmap_fst; [|apply NoDup_filter, NoDup_map_to_list].
  intros k r1 r2 [_ Hr1]%list_elem_of_filter [_ Hr2]%list_elem_of_filter.
  apply elem_of_map_to_list in Hr1, Hr2. congruence.
Qed.

Lemma fetch_first_sublist {A} (limit : option nat) (rows : list A) :
  sublist (fetch_first limit rows) rows.
Proof. destruct limit as [n|]; simpl; [apply sublist_take|done]. Qed.

Lemma lease_jobs_lookup (ids : list N) (owner : string) (until : Z) (tbl : JobTable)
  (k : N) :
  lease_jobs ids owner until tbl !! k =
  if decide (k ∈ ids) then lease_job owner until <$> tbl !! k else tbl !! k.
Proof.
  unfold lease_jobs. rewrite map_lookup_imap.
  destruct (tbl !! k); simpl; by destruct (decide (k ∈ ids)).
Qed.

(** The payloads the UPDATE returns are those of the selected jobs. *)
Lemma leased_job_data_selected (rows : list (N * JobRow)) (owner : string) (until : Z)
  (tbl : JobTable) :
  NoDup rows.*1 →
  (∀ k r, (k, r) ∈ rows → tbl !! k = Some r) →
  leased_job_data rows.*1 (lease_jobs rows.*1 owner until tbl)
    ≡ₚ (λ kr : N * JobRow, job_row_serialized_data kr.2) <$> rows.
Proof.
  intros Hnodup Hrows. unfold leased_job_data.
  set (g := λ kr : N * JobRow, (kr.1, lease_job owner until kr.2)).
  transitivity ((λ kr : N * JobRow, job_row_serialized_data kr.2) <$> (g <$> rows)).
  - apply fmap_Permutation, NoDup_Permutation.
    + apply NoDup_filter, NoDup_map_to_list.
    + apply (NoDup_fmap_1 fst). rewrite <- list_fmap_compose. exact Hnodup.
    + intros [k r']. rewrite list_elem_of_filter, elem_of_map_to_list, lease_jobs_lookup.
      simpl. split.
      * intros [Hk Hrow]. rewrite decide_True in Hrow by exact Hk.
        apply list_elem_of_fmap in Hk as ([k0 r0] & -> & Hin). simpl in *.
        rewrite (Hrows _ _ Hin) in Hrow. simpl in Hrow. injection Hrow as <-.
        apply list_elem_of_fmap. by exists (k0, r0).
      * intros ([k0 r0] & [= -> ->] & Hin)%list_elem_of_fmap.
        assert (Hk : k0 ∈ rows.*1) by (apply list_elem_of_fmap; by exists (k0, r0)).
        split; [exact Hk|]. rewrite decide_True by exact Hk.
        by rewrite (Hrows _ _ Hin).
  - rewrite <- list_fmap_compose.
    by rewrite (list_fmap_ext _ (λ kr : N * JobRow, job_row_serialized_data kr.2)).
Qed.

Lemma selected_jobs_elem (ids : option (list N)) (tbl : JobTable) k r :
  (k, r) ∈ selected_jobs ids tbl ↔ tbl !! k = Some r ∧ requested ids k.
Proof.
  unfold selected_jobs.
  rewrite merge_sort_Permutation, list_elem_of_filter, elem_of_map_to_list. simpl. tauto.
Qed.

Lemma selected_jobs_NoDup (ids : option (list N)) (tbl : JobTable) :
  NoDup (selected_jobs ids tbl).*1.
Proof.
  unfold selected_jobs. rewrite merge_sort_Permutation.
  apply NoDup_fmap_fst; [|apply NoDup_filter, NoDup_map_to_list].
  intros k r1 r2 [_ Hr1]%list_elem_of_filter [_ Hr2]%list_elem_of_filter.
  apply elem_of_map_to_list in Hr1, Hr2. congruence.
Qed.

(** Asking for one id that is stored fetches that row. *)
Lemma selected_jobs_one (tbl : JobTable) (k : N) (r : JobRow) :
  tbl !! k = Some r → selected_jobs (Some [k]) tbl = [(k, r)].
Proof.
  intros Hrow. apply NoDup_only.
  - eapply NoDup_fmap_1, selected_jobs_NoDup.
  - intros [k' r']. rewrite selected_jobs_elem. unfold requested. simpl.
    rewrite list_elem_of_singleton. split.
    + intros [Hrow' ->]. congruence.
    + intros [= -> ->]. done.
Qed.

Lemma selected_jobs_missing (tbl : JobTable) (k : N) :
  tbl !! k = None → selected_jobs (Some [k]) tbl = [].
Proof.
  intros Hrow. destruct (selected_jobs (Some [k]) tbl) as [|[k' r'] l] eqn:Hsel; [done|].
  assert (Hin : (k', r') ∈ selected_jobs (Some [k]) tbl) by (rewrite Hsel; by left).
  apply selected_jobs_elem in Hin as [Hrow' Hk]. unfold requested in Hk. simpl in Hk.
  apply list_elem_of_singleton in Hk as ->. congruence.
Qed.

Section MoreJobs.
Context `{JobSerializer} (cfg : Config).

Lemma deserialize_jobs_run (records : list bytes) (w : World) :
  deserialize_jobs records w =
  (match mapM deserialize_job records with
   | Some found => Ok found
   | None => Raise DeserializationError
   end, w).
Proof.
  induction records as [|record records IH]; [done|]. simpl.
  destruct (deserialize_job record) as [s|]; [|done]. simpl.
  unfold bind. rewrite IH. by destruct (mapM deserialize_job records).
Qed.

Lemma get_jobs_run (ids : option (list N)) (w : World) :
  get_jobs cfg ids w =
  (match mapM deserialize_job
           ((λ kr : N * JobRow, job_row_serialized_data kr.2)
              <$> selected_jobs ids (jobs w)) with
   | Some found => Ok found
   | None => Raise DeserializationError
   end,
   mkWorld (schedules w) (jobs w) (clock w) (clock_reads w) (published w)
     (sent w ++ [mkStatement (get_jobs_text cfg ids)
                   [if some_ids ids then [PUuidArray (default [] ids)] else []]])
     (logged w)).
Proof.
  unfold get_jobs. unfold bind at 1. unfold send at 1. unfold bind at 1.
  by rewrite deserialize_jobs_run.
Qed.

Lemma add_job_fresh_run (job : Job) (data : bytes) (w : World) :
  serialize_job job = Some data → jobs w !! job_id job = None →
  let now := clock w (clock_reads w) in
  add_job cfg job w =
  (Ok tt,
   mkWorld (schedules w)
     (<[job_id job := mkJobRow data (job_task_id job) (job_tags job) now None None]> (jobs w))
     (clock w) (S (clock_reads w))
     (published w ++ [JobAdded now (job_id job) (job_task_id job) (job_schedule_id job)])
     ((sent w ++ [mkStatement (add_job_text cfg)
                    [[PInt (Z.of_N (job_id job)); PText (job_task_id job); PTime (Some now);
                      PBytes data; PTextArray (job_tags job)]]])
      ++ (if truthy (notify_channel cfg)
          then [mkStatement
                  ("NOTIFY " +:+ default EmptyString (notify_channel cfg) +:+ ", 'job'") [[]]]
          else []))
     (logged w)).
Proof.
  intros Hser Hrow now. unfold add_job, insert_job. run_store. rewrite Hser. simpl.
  rewrite Hrow. simpl.
  destruct (truthy (notify_channel cfg)); unfold ret, send; simpl;
    rewrite <- ?app_assoc, ?app_nil_r; simpl; reflexivity.
Qed.

Lemma acquire_jobs_transaction_run (worker : string) (limit : option Z) (w : World) :
  0 ≤ default 0 limit →
  let now := clock w (clock_reads w) in
  let until := now + lock_expiration_delay cfg in
  let ids := job_ids now (Z.to_nat <$> limit) (jobs w) in
  let tbl := lease_jobs ids worker until (jobs w) in
  acquire_jobs_transaction cfg worker limit w =
  (Ok (leased_job_data ids tbl),
   mkWorld (schedules w) tbl (clock w) (S (clock_reads w)) (published w)
     (sent w ++ [mkStatement (acquire_jobs_text cfg)
                   [[PTime (Some now); limit_param limit; PText worker;
                     PTime (Some until)]]])
     (logged w)).
Proof.
  intros Hlimit now until ids tbl.
  unfold acquire_jobs_transaction, acquire_jobs_statement. run_store.
  by rewrite bool_decide_false by lia.
Qed.

(** X13.  [add_job] stamps the job with the clock: under a new id it inserts
    the row with that time as [created_at] and no lease, leaves every other
    row and the schedules alone and publishes one [JobAdded] carrying the
    same time.  Under an id that is stored it raises the engine's
    [UniqueViolationError] as it is, and with a job that does not serialize
    it raises [SerializationError] before any statement is sent; in both
    cases the tables are as before and nothing is published. *)
Theorem add_job_inserts_or_fails (job : Job) (w : World) :
  let now := clock w (clock_reads w) in
  let res := add_job cfg job w in
  (∀ data, serialize_job job = Some data → jobs w !! job_id job = None →
     res.1 = Ok tt ∧
     jobs res.2 !! job_id job
       = Some (mkJobRow data (job_task_id job) (job_tags job) now None None) ∧
     (∀ k, k ≠ job_id job → jobs res.2 !! k = jobs w !! k) ∧
     schedules res.2 = schedules w ∧
     published res.2
       = published w ++ [JobAdded now (job_id job) (job_task_id job) (job_schedule_id job)]) ∧
  (∀ data r, serialize_job job = Some data → jobs w !! job_id job = Some r →
     res.1 = Raise UniqueViolationError ∧
     jobs res.2 = jobs w ∧ schedules res.2 = schedules w ∧ published res.2 = published w) ∧
  (serialize_job job = None →
     res.1 = Raise SerializationError ∧
     jobs res.2 = jobs w ∧ schedules res.2 = schedules w ∧ published res.2 = published w ∧
     sent res.2 = sent w).
Proof.
  intros now res. subst res. split; [|split].
  - intros data Hser Hrow. rewrite (add_job_fresh_run job data w Hser Hrow). simpl.
    split; [done|]. split; [by rewrite lookup_insert_eq|]. split; [|done].
    intros k Hk. by rewrite lookup_insert_ne.
  - intros data r Hser Hrow. unfold add_job, insert_job. run_store. rewrite Hser. simpl.
    by rewrite Hrow.
  - intros Hser. unfold add_job. run_store. by rewrite Hser.
Qed.

(** X14.  One transaction of [acquire_jobs] with no limit or a limit that is
    not negative commits after one clock reading [now], and the rows it
    leases are rows of the jobs table whose lease end is NULL or before
    [now]; they are pairwise distinct, in ascending order of [created_at],
    at most [limit] when a limit is given, and a row without a running lease
    is left out only when a limit is given and reached by rows created no
    later - without a limit every such row is leased.  Afterwards exactly
    these rows carry the caller as [acquired_by] and [now] plus the lease
    duration as [acquired_until]; every other row, the schedules and the
    published events are as before; the payloads returned are those of the
    leased rows.  A negative limit is refused by the engine (SQLSTATE 2201W)
    and leaves the table as it was. *)
Theorem acquire_jobs_leases_free (worker : string) (limit : option Z) (w : World) :
  let now := clock w (clock_reads w) in
  let until := now + lock_expiration_delay cfg in
  (0 ≤ default 0 limit →
   ∃ (rows : list (N * JobRow)) (data : list bytes) (w' : World),
     acquire_jobs_transaction cfg worker limit w = (Ok data, w') ∧
     data ≡ₚ (λ kr : N * JobRow, job_row_serialized_data kr.2) <$> rows ∧
     (∀ k r, (k, r) ∈ rows →
        jobs w !! k = Some r ∧
        (job_row_acquired_until r = None
         ∨ ∃ u, job_row_acquired_until r = Some u ∧ u < now)) ∧
     (∀ n, limit = Some n → (length rows ≤ Z.to_nat n)%nat) ∧
     NoDup rows.*1 ∧
     StronglySorted created_le rows ∧
     (∀ k r, jobs w !! k = Some r → job_lease_free now r → k ∉ rows.*1 →
        ∃ n, limit = Some n ∧ length rows = Z.to_nat n ∧
             Forall (λ kr, created_le kr (k, r)) rows) ∧
     (∀ k, jobs w' !! k =
           if decide (k ∈ rows.*1) then lease_job worker until <$> jobs w !! k
           else jobs w !! k) ∧
     schedules w' = schedules w ∧ published w' = published w ∧
     clock_reads w' = S (clock_reads w)) ∧
  (default 0 limit < 0 →
   (acquire_jobs_transaction cfg worker limit w).1 = Raise (PostgresError "2201W") ∧
   jobs (acquire_jobs_transaction cfg worker limit w).2 = jobs w).
Proof.
  intros now until. split.
  - intros Hlimit.
    set (cands := job_candidates now (jobs w)).
    set (rows := fetch_first (Z.to_nat <$> limit) cands).
    pose proof (job_candidates_sorted now (jobs w)) as Hsorted. fold cands in Hsorted.
    assert (Hsub : sublist rows cands) by apply fetch_first_sublist.
    assert (Hfst : NoDup rows.*1).
    { eapply sublist_NoDup; [apply job_candidates_NoDup|]. by apply fmap_sublist. }
    assert (Hin : ∀ k r, (k, r) ∈ rows → (k, r) ∈ cands).
    { intros k r Hk. by apply (sublist_subseteq _ _ Hsub). }
    exists rows. eexists. eexists.
    split; [apply acquire_jobs_transaction_run; exact Hlimit|]. simpl.
    split; [|split; [|split; [|split; [|split; [|split; [|split]]]]]].
    + apply leased_job_data_selected; [exact Hfst|]. intros k r Hk.
      apply Hin, job_candidates_elem in Hk. tauto.
    + intros k r Hk. apply Hin, job_candidates_elem in Hk as (Hrow & Hfree).
      split; [done|]. by apply job_lease_free_spec.
    + intros n ->. unfold rows. simpl. rewrite length_take. lia.
    + exact Hfst.
    + unfold rows. destruct limit as [n|]; simpl; [|exact Hsorted].
      rewrite <- (take_drop (Z.to_nat n) cands) in Hsorted.
      by apply StronglySorted_app in Hsorted as (_ & Hsorted & _).
    + intros k r Hrow Hfree Hout.
      assert (Hc : (k, r) ∈ cands) by (by apply job_candidates_elem).
      destruct limit as [n|]; simpl in *.
      * exists n. split; [done|]. unfold rows in *. simpl in *.
        rewrite <- (take_drop (Z.to_nat n) cands) in Hc, Hsorted.
        apply StronglySorted_app in Hsorted as (Hcross & _ & _).
        apply elem_of_app in Hc as [Hc|Hc].
        { destruct Hout. apply list_elem_of_fmap. by exists (k, r). }
        split.
        -- apply length_take_le.
           destruct (decide (Z.to_nat n ≤ length cands)%nat); [done|].
           rewrite drop_ge in Hc by lia. by apply elem_of_nil in Hc.
        -- apply Forall_forall. intros kr Hkr. by apply Hcross.
      * destruct Hout. apply list_elem_of_fmap. by exists (k, r).
    + intros k. apply lease_jobs_lookup.
    + done.
  - intros Hneg. unfold acquire_jobs_transaction, acquire_jobs_statement. run_store.
    by rewrite bool_decide_true by lia.
Qed.

(** X15.  The life of a job: added under a new id, it is fetched by
    [get_jobs] for that id; a transaction of [acquire_jobs] without a limit
    then leases it to the worker, from the second clock reading for the lease
    duration, and [get_jobs] still returns it; [release_jobs] by another
    worker leaves the row as it is, [release_jobs] by the worker that holds
    it deletes the row, and [get_jobs] for that id then returns nothing.
    None of the three later calls publishes an event. *)
Theorem job_added_acquired_released (job : Job) (data : bytes) (worker : string)
  (w : World) :
  serialize_job job = Some data → deserialize_job data = Some job →
  jobs w !! job_id job = None →
  let n := clock_reads w in
  let row := mkJobRow data (job_task_id job) (job_tags job) (clock w n) None None in
  let until := clock w (S n) + lock_expiration_delay cfg in
  let w1 := (add_job cfg job w).2 in
  let w2 := (acquire_jobs_transaction cfg worker None w1).2 in
  let w3 := (release_jobs cfg worker [job] w2).2 in
  (get_jobs cfg (Some [job_id job]) w1).1 = Ok [job] ∧
  jobs w2 !! job_id job = Some (lease_job worker until row) ∧
  (get_jobs cfg (Some [job_id job]) w2).1 = Ok [job] ∧
  (∀ other, other ≠ worker →
     jobs (release_jobs cfg other [job] w2).2 !! job_id job
       = Some (lease_job worker until row)) ∧
  jobs w3 !! job_id job = None ∧
  (get_jobs cfg (Some [job_id job]) w3).1 = Ok [] ∧
  published w3 = published w1.
Proof.
  intros Hser Hback Hfresh n row until w1 w2 w3.
  assert (Hw1 : jobs w1 !! job_id job = Some row).
  { unfold w1. rewrite (add_job_fresh_run job data w Hser Hfresh). simpl.
    by rewrite lookup_insert_eq. }
  assert (Hclock : clock w1 = clock w ∧ clock_reads w1 = S n).
  { unfold w1. by rewrite (add_job_fresh_run job data w Hser Hfresh). }
  destruct Hclock as [Hclock Hreads].
  assert (Hcand : job_id job ∈ job_ids (clock w (S n)) None (jobs w1)).
  { unfold job_ids. simpl. apply list_elem_of_fmap. exists (job_id job, row).
    split; [done|]. by apply job_candidates_elem. }
  assert (Hw2 : jobs w2 !! job_id job = Some (lease_job worker until row)).
  { unfold w2. rewrite acquire_jobs_transaction_run by done. simpl.
    rewrite lease_jobs_lookup, Hclock, Hreads. rewrite decide_True by exact Hcand.
    by rewrite Hw1. }
  assert (Hpub : published w2 = published w1).
  { unfold w2. by rewrite acquire_jobs_transaction_run by done. }
  assert (Hw3 : jobs w3 !! job_id job = None).
  { unfold w3.
    apply (release_jobs_deletes cfg worker [job] w2 job (lease_job worker until row));
      [by left|exact Hw2|done]. }
  assert (Hframe : ∀ other, other ≠ worker →
            jobs (release_jobs cfg other [job] w2).2 !! job_id job
              = Some (lease_job worker until row)).
  { intros other Hother.
    apply (release_jobs_frame cfg other [job] w2 (job_id job) _ Hw2). simpl. congruence. }
  assert (Hpub3 : published w3 = published w1).
  { rewrite <- Hpub. unfold w3, release_jobs. by run_store. }
  clearbody w3 w2 w1.
  split; [|split; [exact Hw2|split; [|split; [exact Hframe|split; [exact Hw3|split]]]]].
  - rewrite get_jobs_run. simpl. rewrite (selected_jobs_one _ _ _ Hw1). simpl.
    by rewrite Hback.
  - rewrite get_jobs_run. simpl. rewrite (selected_jobs_one _ _ _ Hw2). simpl.
    by rewrite Hback.
  - rewrite get_jobs_run. simpl. by rewrite (selected_jobs_missing _ _ Hw3).
  - exact Hpub3.
Qed.

(** X16.  [get_jobs] reads without changing anything: the rows it fetches
    are the stored jobs whose id is among [ids] - every stored job when
    [ids] is [None] or empty, leased or not -, each once, in ascending order
    of id; it returns their payloads deserialized in that order, or raises
    [DeserializationError] when one of those payloads does not deserialize;
    tables and published events are as before. *)
Theorem get_jobs_sorted_complete (ids : option (list N)) (w : World) :
  let rows := selected_jobs ids (jobs w) in
  let res := get_jobs cfg ids w in
  (∀ k r, (k, r) ∈ rows ↔
          jobs w !! k = Some r ∧ (some_ids ids = false ∨ k ∈ default [] ids)) ∧
  NoDup rows.*1 ∧
  StronglySorted (λ x y : N * JobRow, (x.1 ≤ y.1)%N) rows ∧
  ((∃ found, res.1 = Ok found ∧
             Forall2 (λ kr j, deserialize_job (job_row_serialized_data kr.2) = Some j)
               rows found)
   ∨ (res.1 = Raise DeserializationError ∧
      ∃ k r, (k, r) ∈ rows ∧ deserialize_job (job_row_serialized_data r) = None)) ∧
  schedules res.2 = schedules w ∧ jobs res.2 = jobs w ∧ published res.2 = published w ∧
  get_jobs cfg (Some []) w = get_jobs cfg None w.
Proof.
  intros rows res. split; [|split; [|split; [|split]]].
  - intros k r. subst rows. rewrite selected_jobs_elem. unfold requested.
    destruct (some_ids ids); [split; [intros [? ?]; eauto|intros [? [?|?]]; done]|].
    split; [intros [? _]; eauto|intros [? _]; done].
  - apply selected_jobs_NoDup.
  - apply (StronglySorted_merge_sort uuid_le).
  - subst res. rewrite get_jobs_run. simpl. fold rows.
    destruct (mapM deserialize_job _) as [found|] eqn:Hmap.
    + left. exists found. split; [done|]. apply mapM_Some in Hmap.
      by apply Forall2_fmap_l in Hmap.
    + right. split; [done|]. apply mapM_None in Hmap.
      apply Exists_exists in Hmap as (d & Hd & Hnone).
      apply list_elem_of_fmap in Hd as ([k r] & -> & Hin). by exists k, r.
  - subst res. rewrite get_jobs_run. done.
Qed.

End MoreJobs.

Lemma add_job_inserts_or_fails_witness :
  let w := sample_world ∅ sample_jobs in
  @serialize_job sample_job_serializer (sample_job 7)
    = Some (Byte.x07 :: list_byte_of_string "task") ∧
  jobs w !! 7%N = None ∧
  jobs w !! 1%N = Some (sample_job_row 1 4 (Some "W") (Some 100)) ∧
  published (@add_job sample_job_serializer sample_config (sample_job 7) w).2
    = [JobAdded 10 7 "task" None] ∧
  (@add_job sample_job_serializer sample_config (sample_job 1) w).1
    = Raise UniqueViolationError.
Proof.
  intros w.
  assert (Hser : @serialize_job sample_job_serializer (sample_job 7)
                 = Some (Byte.x07 :: list_byte_of_string "task")) by reflexivity.
  assert (Hfresh : jobs w !! job_id (sample_job 7) = None) by reflexivity.
  assert (Hser1 : @serialize_job sample_job_serializer (sample_job 1)
                  = Some (Byte.x01 :: list_byte_of_string "task")) by reflexivity.
  assert (Htaken : jobs w !! job_id (sample_job 1)
                   = Some (sample_job_row 1 4 (Some "W") (Some 100))) by reflexivity.
  split; [exact Hser|]. split; [exact Hfresh|]. split; [exact Htaken|]. split.
  - exact (proj2 (proj2 (proj2 (proj2
             (proj1 (@add_job_inserts_or_fails sample_job_serializer sample_config
                       (sample_job 7) w) _ Hser Hfresh))))).
  - exact (proj1 (proj1 (proj2 (@add_job_inserts_or_fails sample_job_serializer sample_config
                                  (sample_job 1) w)) _ _ Hser1 Htaken)).
Defined.

Lemma acquire_jobs_leases_free_witness :
  let w := sample_world ∅ sample_jobs in
  0 ≤ default 0 (Some 1) ∧ default 0 (Some (-1)) < 0 ∧
  (∃ rows data w',
     acquire_jobs_transaction sample_config "V" (Some 1) w = (Ok data, w') ∧
     data ≡ₚ (λ kr : N * JobRow, job_row_serialized_data kr.2) <$> rows ∧
     (length rows ≤ 1)%nat) ∧
  (acquire_jobs_transaction sample_config "V" (Some (-1)) w).1
    = Raise (PostgresError "2201W").
Proof.
  intros w.
  assert (Hlimit : 0 ≤ default 0 (Some 1)) by (simpl; lia).
  assert (Hneg : default 0 (Some (-1)) < 0) by (simpl; lia).
  split; [exact Hlimit|]. split; [exact Hneg|]. split.
  - destruct (proj1 (acquire_jobs_leases_free sample_config "V" (Some 1) w) Hlimit)
      as (rows & data & w' & Hrun & Hdata & _ & Hlen & _).
    exists rows, data, w'. split; [exact Hrun|]. split; [exact Hdata|].
    exact (Hlen 1 eq_refl).
  - exact (proj1 (proj2 (acquire_jobs_leases_free sample_config "V" (Some (-1)) w) Hneg)).
Defined.

Lemma job_added_acquired_released_witness :
  let w := sample_world ∅ sample_jobs in
  let w1 := (@add_job sample_job_serializer sample_config (sample_job 7) w).2 in
  let w2 := (acquire_jobs_transaction sample_config "V" None w1).2 in
  let w3 := (release_jobs sample_config "V" [sample_job 7] w2).2 in
  @serialize_job sample_job_serializer (sample_job 7)
    = Some (Byte.x07 :: list_byte_of_string "task") ∧
  @deserialize_job sample_job_serializer (Byte.x07 :: list_byte_of_string "task")
    = Some (sample_job 7) ∧
  jobs w !! 7%N = None ∧
  (@get_jobs sample_job_serializer sample_config (Some [7%N]) w2).1 = Ok [sample_job 7] ∧
  jobs w3 !! 7%N = None.
Proof.
  intros w w1 w2 w3.
  assert (Hser : @serialize_job sample_job_serializer (sample_job 7)
                 = Some (Byte.x07 :: list_byte_of_string "task")) by reflexivity.
  assert (Hback : @deserialize_job sample_job_serializer
                    (Byte.x07 :: list_byte_of_string "task") = Some (sample_job 7))
    by reflexivity.
  assert (Hfresh : jobs w !! job_id (sample_job 7) = None) by reflexivity.
  destruct (@job_added_acquired_released sample_job_serializer sample_config
              (sample_job 7) _ "V" w Hser Hback Hfresh)
    as (_ & _ & Hget & _ & Hgone & _).
  split; [exact Hser|]. split; [exact Hback|]. split; [exact Hfresh|].
  split; [exact Hget|exact Hgone].
Defined.

(** ** More on _setup *)

Module SetupFacts.
Import Schema.

(** X17.  With [start_from_scratch] off, [_setup] trusts the version row: a
    stored version of 1 or less - 0 or a negative number included - makes
    it return normally without creating or changing anything, even when one
    of the two work tables does not exist. *)
Theorem setup_trusts_version_row (cfg : Config) (c : Catalog) (v : Z) :
  start_from_scratch cfg = false → fetch_version c = Some v → v ≤ 1 →
  setup cfg c = (Ok tt, c).
Proof.
  intros Hflag Hv Hle. unfold setup, setup_body. rewrite Hflag.
  assert (Hsame : create_metadata c = c).
  { unfold create_metadata. unfold fetch_version in Hv. by destruct (metadata c). }
  rewrite Hsame, Hv. by rewrite bool_decide_false by lia.
Qed.

(** X18.  With [start_from_scratch] off and no version row stored - no
    metadata table, or an empty one -, [_setup] succeeds exactly when
    neither work table exists, and then leaves the freshly installed
    catalogue; when one of them exists, the CREATE TABLE fails with SQLSTATE
    42P07 and the transaction is rolled back: no metadata table is created
    and no version row is stored, so the next setup fails in the same way. *)
Theorem setup_without_version_row (cfg : Config) (c : Catalog) :
  start_from_scratch cfg = false → fetch_version c = None →
  (schedules_rel c = None ∧ jobs_rel c = None → setup cfg c = (Ok tt, fresh)) ∧
  (is_Some (schedules_rel c) ∨ is_Some (jobs_rel c) →
   setup cfg c = (Raise (PostgresError "42P07"), c) ∧
   setup cfg (setup cfg c).2 = (Raise (PostgresError "42P07"), c)).
Proof.
  intros Hflag Hv.
  assert (Hrun : setup cfg c =
                 match schedules_rel c, jobs_rel c with
                 | None, None => (Ok tt, fresh)
                 | _, _ => (Raise (PostgresError "42P07"), c)
                 end).
  { unfold setup, setup_body. rewrite Hflag.
    unfold fetch_version, create_metadata in *.
    destruct c as [[[|v rows]|] [s|] [j|]]; simpl in *; done. }
  split.
  - intros [Hs Hj]. by rewrite Hrun, Hs, Hj.
  - intros Hsome.
    assert (Hfail : setup cfg c = (Raise (PostgresError "42P07"), c)).
    { rewrite Hrun. destruct Hsome as [[s Hs]|[j Hj]].
      - by rewrite Hs.
      - rewrite Hj. by destruct (schedules_rel c). }
    by rewrite !Hfail.
Qed.

Lemma setup_trusts_version_row_witness :
  start_from_scratch sample_config = false ∧ fetch_version version_only = Some 1 ∧
  1 ≤ 1 ∧ setup sample_config version_only = (Ok tt, version_only) ∧
  schedules_rel version_only = None.
Proof.
  assert (Hle : 1 ≤ 1) by lia.
  split; [reflexivity|]. split; [reflexivity|]. split; [exact Hle|]. split; [|reflexivity].
  exact (setup_trusts_version_row sample_config version_only 1 eq_refl eq_refl Hle).
Defined.

Lemma setup_without_version_row_witness :
  start_from_scratch sample_config = false ∧ fetch_version tables_only = None ∧
  is_Some (schedules_rel tables_only) ∧
  setup sample_config tables_only = (Raise (PostgresError "42P07"), tables_only) ∧
  setup sample_config blank = (Ok tt, fresh).
Proof.
  assert (Hsome : is_Some (schedules_rel tables_only)) by (by eexists).
  split; [reflexivity|]. split; [reflexivity|]. split; [exact Hsome|]. split.
  - exact (proj1 (proj2 (setup_without_version_row sample_config tables_only
                           eq_refl eq_refl) (or_introl Hsome))).
  - exact (proj1 (setup_without_version_row sample_config blank eq_refl eq_refl)
             (conj eq_refl eq_refl)).
Defined.

End SetupFacts.

(** ** Opening and closing the store *)

Module LifecycleFacts.
Import Lifecycle.

Lemma times_app (d : Did) (l1 l2 : list Did) :
  times d (l1 ++ l2) = (times d l1 + times d l2)%nat.
Proof. unfold times. by rewrite filter_app, length_app. Qed.

Lemma uses_app (cfg : Config) (us1 us2 : list Use) (h : Handle) :
  uses cfg (us1 ++ us2) h =
  match uses cfg us1 h with
  | (None, h') => uses cfg us2 h'
  | failed => failed
  end.
Proof.
  revert h. induction us1 as [|u us1 IH]; intros h; simpl; [done|].
  destruct (match u with Enter lib => aenter cfg lib h | Leave => aexit cfg h end)
    as [[failure|] h']; [done|]. apply IH.
Qed.

Ltac kept :=
  split; simpl in *;
  rewrite ?times_app; unfold times in *; simpl in *;
  repeat match goal with
         | H : ?x = _ |- context [?x] => rewrite H
         end;
  rewrite ?bool_decide_true by lia; rewrite ?bool_decide_false by lia;
  simpl; try done; try lia.

Lemma aenter_well_kept (cfg : Config) (lib : option string) (h : Handle) :
  well_kept cfg h → well_kept cfg (aenter cfg lib h).2.
Proof.
  intros [Hlisten Hcount]. unfold well_kept, aenter.
  destruct (negb (String.eqb (or_unknown lib) "asyncio")); [by split|].
  destruct (decide (loans h = O)) as [Hzero|Hheld].
  - rewrite Hzero in Hlisten. simpl in Hlisten. rewrite Hlisten in Hcount.
    destruct (Schema.setup cfg (database h)) as [[[]|e] db]; simpl.
    + rewrite Hzero. simpl. destruct (truthy (notify_channel cfg)); kept.
    + kept.
  - simpl. rewrite bool_decide_false by lia. simpl.
    assert (Hpos : (0 < loans h)%nat) by lia.
    rewrite bool_decide_true in Hlisten by done. kept.
Qed.

Lemma aexit_well_kept (cfg : Config) (h : Handle) :
  well_kept cfg h → well_kept cfg (aexit cfg h).2.
Proof.
  intros [Hlisten Hcount]. unfold well_kept, aexit.
  destruct (loans h) as [|n] eqn:Hloans; [by kept|].
  rewrite bool_decide_true in Hlisten by lia. simpl in Hlisten.
  destruct n as [|n]; simpl.
  - destruct (truthy (notify_channel cfg)); kept.
  - kept.
Qed.

(** X19.  Whatever the callers do - open, nest, close, close once too often,
    open under another library, run into a failing setup -, the handle
    stays well kept: the listener runs exactly while the store is held open
    and a channel is configured, and every listener that was spawned has
    been cancelled, except the one that is running.  So there are never two
    listeners, and none is left behind when the last holder closes the
    store. *)
Theorem uses_keep_the_store_well (cfg : Config) (us : list Use) (h : Handle) :
  well_kept cfg h → well_kept cfg (uses cfg us h).2.
Proof.
  revert h. induction us as [|u us IH]; intros h Hkept; simpl; [done|].
  assert (Hstep : well_kept cfg
            (match u with Enter lib => aenter cfg lib h | Leave => aexit cfg h end).2).
  { destruct u; [by apply aenter_well_kept|by apply aexit_well_kept]. }
  destruct (match u with Enter lib => aenter cfg lib h | Leave => aexit cfg h end)
    as [[failure|] h']; [done|]. by apply IH.
Qed.

Lemma enters_nested (cfg : Config) (k : nat) (h : Handle) :
  loans h ≠ O →
  uses cfg (replicate k (Enter (Some "asyncio"))) h =
  (None, mkHandle (k + loans h) (schedules_event h) (jobs_event h) (listening h)
           (database h) (history h)).
Proof.
  revert h. induction k as [|k IH]; intros h Hheld; simpl; [by destruct h|].
  unfold aenter. simpl. rewrite decide_False by done.
  rewrite bool_decide_false by lia. simpl. rewrite IH by done. simpl.
  do 2 f_equal. lia.
Qed.

Lemma leaves_nested (cfg : Config) (k j : nat) (h : Handle) :
  loans h = (k + S j)%nat →
  uses cfg (replicate k Leave) h =
  (None, mkHandle (S j) (schedules_event h) (jobs_event h) (listening h)
           (database h) (history h)).
Proof.
  revert h. induction k as [|k IH]; intros h Hloans; simpl.
  - destruct h. simpl in *. by subst.
  - unfold aexit. rewrite Hloans. simpl. rewrite bool_decide_false by lia. simpl.
    by rewrite IH.
Qed.

(** X20.  A store opened [n + 1] times in a row under asyncio and closed as
    often, from a state where nobody holds it and on a database where setup
    succeeds: every call returns normally; setup has run once, with the first
    open; with a channel configured the listener was spawned once, with the
    first open, and cancelled once, with the last close, which also removed
    the two events; without a channel nothing was spawned and the events
    stay.  Afterwards nobody holds the store, the database is as that one
    setup left it, and closing once more fails the assertion. *)
Theorem nested_use_sets_up_once (cfg : Config) (n : nat) (h : Handle) :
  loans h = O → listening h = false →
  (Schema.setup cfg (database h)).1 = Ok tt →
  let us := replicate (S n) (Enter (Some "asyncio")) ++ replicate (S n) Leave in
  let notified := truthy (notify_channel cfg) in
  let h' :=
    mkHandle 0 (if notified then None else Some false) (if notified then None else Some false)
      false (Schema.setup cfg (database h)).2
      (history h ++ [RanSetup] ++ (if notified then [Spawned; Cancelled] else [])) in
  uses cfg us h = (None, h') ∧ uses cfg (us ++ [Leave]) h = (Some AssertionError, h').
Proof.
  intros Hzero Hquiet Hsetup us notified h'.
  assert (Hrun : uses cfg us h = (None, h')).
  { subst us. rewrite (replicate_S_end n Leave). cbn [replicate].
    cbn [app uses]. unfold aenter at 1. simpl. rewrite decide_True by done.
    destruct (Schema.setup cfg (database h)) as [[[]|e] db] eqn:Hdb; [|done]. simpl.
    rewrite Hzero. simpl.
    subst h' notified. destruct (truthy (notify_channel cfg)) eqn:Hchannel; simpl.
    - rewrite uses_app, enters_nested by done. simpl.
      rewrite uses_app, (leaves_nested cfg n O) by (simpl; lia). simpl.
      unfold aexit. simpl. rewrite Hchannel. by rewrite <- !app_assoc.
    - rewrite uses_app, enters_nested by done. simpl.
      rewrite uses_app, (leaves_nested cfg n O) by (simpl; lia). simpl.
      unfold aexit. simpl. rewrite Hchannel. by rewrite Hquiet. }
  split; [exact Hrun|]. by rewrite uses_app, Hrun.
Qed.

Lemma uses_keep_the_store_well_witness :
  well_kept sample_config unopened ∧
  well_kept sample_config
    (uses sample_config [Enter (Some "asyncio"); Leave; Leave; Enter (Some "trio")]
       unopened).2.
Proof.
  assert (Hkept : well_kept sample_config unopened) by (by split).
  split; [exact Hkept|].
  exact (uses_keep_the_store_well sample_config
           [Enter (Some "asyncio"); Leave; Leave; Enter (Some "trio")] unopened Hkept).
Defined.

Lemma nested_use_sets_up_once_witness :
  loans unopened = O ∧ listening unopened = false ∧
  (Schema.setup sample_config (database unopened)).1 = Ok tt ∧
  uses sample_config
    (replicate 3 (Enter (Some "asyncio")) ++ replicate 3 Leave) unopened
  = (None, mkHandle 0 None None false Schema.fresh [RanSetup; Spawned; Cancelled]).
Proof.
  split; [reflexivity|]. split; [reflexivity|]. split; [reflexivity|].
  exact (proj1 (nested_use_sets_up_once sample_config 2 unopened eq_refl eq_refl eq_refl)).
Defined.

End LifecycleFacts.

(** ** The listener after a failure *)

Module ListenerStops.
Import Listener.

(** A keep-alive loop whose first [n] pings succeed and whose next one
    fails. *)
Lemma keep_alive_fails (fuel n : nat) (post : list bool) (trace : list Action) :
  (n < fuel)%nat →
  keep_alive fuel (replicate n true ++ false :: post, trace)
  = (Raised, (post, trace ++ replicate (S n) Select1)).
Proof.
  revert n trace. induction fuel as [|fuel IH]; intros n trace Hfuel; [lia|].
  destruct n as [|n]; simpl; [done|].
  unfold call. simpl. rewrite IH by lia. simpl. by rewrite <- app_assoc.
Qed.

(** The trace of a listener whose first [m] calls succeed. *)
Lemma session_fails (fuel m : nat) (post : list bool) :
  (2 ≤ length post)%nat → (m ≤ S fuel)%nat →
  ∃ rest,
    session fuel (replicate m true ++ false :: post, []) =
    (Raised,
     (rest,
      match m with
      | O => [Acquire]
      | S O => [Acquire; AddListener; Release]
      | S (S n) =>
          [Acquire; AddListener] ++ replicate (S n) Select1 ++ [RemoveListener; Release]
      end)).
Proof.
  intros Hpost Hfuel.
  destruct post as [|b1 [|b2 post]]; simpl in Hpost; try lia.
  destruct m as [|[|n]].
  - by eexists.
  - destruct b1; by eexists.
  - unfold session, with_connection, try_finally.
    change (replicate (S (S n)) true ++ false :: b1 :: b2 :: post)
      with (true :: true :: (replicate n true ++ false :: b1 :: b2 :: post)).
    unfold call at 1. cbn [fst snd]. unfold call at 1. cbn [fst snd app].
    rewrite keep_alive_fails by lia.
    unfold call. simpl. destruct b1, b2; simpl; rewrite <- ?app_assoc; by eexists.
Qed.

(** X21.  The listener stops at the first failure, wherever it strikes: when
    the first [m] calls succeed and the next one fails, the coroutine ends
    with that exception - after zero, one or two more calls, whose outcome
    does not matter - and it never acquires a connection or subscribes a
    second time.  A failed [pool.acquire()] ends it at once; a failed
    [add_listener] is followed by the release of the connection; a failed
    keep-alive query is followed by [remove_listener] and the release. *)
Theorem listener_stops_at_first_failure (m : nat) (post : list bool) :
  (2 ≤ length post)%nat →
  run (replicate m true ++ false :: post) =
  (Raised,
   match m with
   | O => [Acquire]
   | S O => [Acquire; AddListener; Release]
   | S (S n) => [Acquire; AddListener] ++ replicate (S n) Select1 ++ [RemoveListener; Release]
   end).
Proof.
  intros Hpost. unfold run. rewrite ListenerFacts.listen_is_one_session.
  destruct (session_fails (S (length (replicate m true ++ false :: post))) m post Hpost)
    as [rest ->]; [|done].
  rewrite length_app, length_replicate. lia.
Qed.

Lemma listener_stops_at_first_failure_witness :
  (2 ≤ length [true; true; true])%nat ∧
  run ([true; true; true; true] ++ false :: [true; true; true])
  = (Raised, [Acquire; AddListener; Select1; Select1; Select1; RemoveListener; Release]).
Proof.
  assert (Hpost : (2 ≤ length [true; true; true])%nat) by (simpl; lia).
  split; [exact Hpost|].
  exact (listener_stops_at_first_failure 4 [true; true; true] Hpost).
Defined.

End ListenerStops.

(** ** The loop of acquire_jobs *)

Lemma lease_jobs_nil (owner : string) (until : Z) (tbl : JobTable) :
  lease_jobs [] owner until tbl = tbl.
Proof.
  apply map_eq. intros k. rewrite lease_jobs_lookup.
  rewrite decide_False; [done|]. apply not_elem_of_nil.
Qed.

Lemma leased_job_data_nil (tbl : JobTable) : leased_job_data [] tbl = [].
Proof.
  unfold leased_job_data.
  assert (filter (λ kr : N * JobRow, kr.1 ∈ []) (map_to_list tbl) = []) as ->; [|done].
  induction (map_to_list tbl) as [|x l IH]; [done|].
  rewrite filter_cons, decide_False; [done|]. apply not_elem_of_nil.
Qed.

Lemma job_ids_none (now : Z) (limit : option nat) (tbl : JobTable) :
  (∀ k r, tbl !! k = Some r → job_lease_free now r = false) → job_ids now limit tbl = [].
Proof.
  intros Hnone. unfold job_ids.
  assert (job_candidates now tbl = []) as ->; [|by destruct limit as [[|n]|]].
  destruct (job_candidates now tbl) as [|[k r] l] eqn:Hc; [done|].
  assert (Hin : (k, r) ∈ job_candidates now tbl) by (rewrite Hc; by left).
  apply job_candidates_elem in Hin as (Hrow & Hfree).
  by rewrite (Hnone k r Hrow) in Hfree.
Qed.

Section AcquireJobs.
Context `{JobSerializer} (cfg : Config).

Lemma acquire_jobs_turn (polls : nat) (worker : string) (limit : option Z) (w : World) :
  acquire_jobs cfg (S polls) worker limit w =
  match acquire_jobs_cycle cfg worker limit w with
  | (Ok found, w') =>
      if nonempty found then (Ok (Some found), w')
      else acquire_jobs cfg polls worker limit w'
  | (Raise e, w') => (Raise e, w')
  end.
Proof.
  simpl. unfold bind at 1.
  destruct (acquire_jobs_cycle cfg worker limit w) as [[found|e] w']; [|done].
  by destruct (nonempty found).
Qed.

(** X22.  The loop of [acquire_jobs], with no limit or a limit that is not
    negative.  When the first transaction selects rows and their payloads
    deserialize, the call returns at once, after one clock reading, as many
    jobs as rows were selected, each the content of a selected row.  While
    no job is free of a lease at any time the clock shows, every turn comes
    back empty: after any number of turns the call is still waiting, has
    raised nothing, left the table as it was and read the clock once per
    turn. *)
Theorem acquire_jobs_returns_or_polls (polls : nat) (worker : string) (limit : option Z)
  (w : World) :
  0 ≤ default 0 limit →
  let ids := job_ids (clock w (clock_reads w)) (Z.to_nat <$> limit) (jobs w) in
  (ids ≠ [] →
   (∀ k r, k ∈ ids → jobs w !! k = Some r →
           is_Some (deserialize_job (job_row_serialized_data r))) →
   ∃ found,
     (acquire_jobs cfg (S polls) worker limit w).1 = Ok (Some found) ∧
     length found = length ids ∧
     (∀ j, j ∈ found →
           ∃ k r, k ∈ ids ∧ jobs w !! k = Some r ∧
                  deserialize_job (job_row_serialized_data r) = Some j) ∧
     clock_reads (acquire_jobs cfg (S polls) worker limit w).2 = S (clock_reads w)) ∧
  ((∀ n k r, jobs w !! k = Some r → job_lease_free (clock w n) r = false) →
   (acquire_jobs cfg polls worker limit w).1 = Ok None ∧
   jobs (acquire_jobs cfg polls worker limit w).2 = jobs w ∧
   published (acquire_jobs cfg polls worker limit w).2 = published w ∧
   clock_reads (acquire_jobs cfg polls worker limit w).2 = (clock_reads w + polls)%nat).
Proof.
  intros Hlimit ids. split.
  - intros Hsome Hall. rewrite acquire_jobs_turn. unfold acquire_jobs_cycle, bind.
    rewrite acquire_jobs_transaction_run by done. rewrite deserialize_jobs_run.
    fold ids.
    set (now := clock w (clock_reads w)).
    set (tbl := lease_jobs ids worker (now + lock_expiration_delay cfg) (jobs w)).
    set (rows := fetch_first (Z.to_nat <$> limit) (job_candidates now (jobs w))).
    assert (Hsub : sublist rows (job_candidates now (jobs w)))
      by apply fetch_first_sublist.
    assert (Hperm : leased_job_data ids tbl
                    ≡ₚ (λ kr : N * JobRow, job_row_serialized_data kr.2) <$> rows).
    { apply leased_job_data_selected.
      - eapply sublist_NoDup; [apply job_candidates_NoDup|]. by apply fmap_sublist.
      - intros k r Hk. apply (sublist_subseteq _ _ Hsub), job_candidates_elem in Hk. tauto. }
    assert (Hfrom : ∀ d, d ∈ leased_job_data ids tbl →
              ∃ k r, k ∈ ids ∧ jobs w !! k = Some r ∧ d = job_row_serialized_data r).
    { intros d Hd. rewrite Hperm in Hd.
      apply list_elem_of_fmap in Hd as ([k r] & -> & Hin). exists k, r.
      split; [by apply (list_elem_of_fmap_2 fst) in Hin|].
      apply (sublist_subseteq _ _ Hsub), job_candidates_elem in Hin. tauto. }
    destruct (mapM deserialize_job (leased_job_data ids tbl)) as [found|] eqn:Hmap.
    + apply mapM_Some in Hmap.
      assert (Hlen : length found = length ids).
      { rewrite <- (Forall2_length _ _ _ Hmap), Hperm. unfold ids, job_ids.
        by rewrite !length_fmap. }
      assert (Hne : nonempty found = true).
      { destruct found; [|done]. destruct ids; [done|simpl in Hlen; lia]. }
      rewrite Hne. simpl. exists found. split; [done|]. split; [done|]. split; [|done].
      intros j Hj. apply list_elem_of_lookup in Hj as [i Hi].
      destruct (Forall2_lookup_r _ _ _ _ _ Hmap Hi) as (d & Hd & Hdj).
      apply list_elem_of_lookup_2, Hfrom in Hd as (k & r & Hk & Hrow & ->).
      by exists k, r.
    + exfalso. apply mapM_None, Exists_exists in Hmap as (d & Hd & Hnone).
      apply Hfrom in Hd as (k & r & Hk & Hrow & ->).
      destruct (Hall k r Hk Hrow) as [j Hj]. congruence.
  - clear ids. revert w. induction polls as [|polls IH]; intros w Hidle.
    + simpl. unfold ret. simpl. repeat split; try done; lia.
    + rewrite acquire_jobs_turn. unfold acquire_jobs_cycle, bind.
      rewrite acquire_jobs_transaction_run by done. rewrite deserialize_jobs_run.
      rewrite job_ids_none by (intros k r; apply Hidle).
      rewrite lease_jobs_nil, leased_job_data_nil. simpl.
      match goal with |- context [acquire_jobs cfg polls worker limit ?w1] =>
        destruct (IH w1) as (Hok & Hjobs & Hpub & Hreads); [exact Hidle|]
      end.
      rewrite Hok, Hjobs, Hpub, Hreads. simpl. repeat split; try done; lia.
Qed.

End AcquireJobs.

Lemma acquire_jobs_returns_or_polls_witness :
  let w := sample_world ∅ sample_jobs in
  0 ≤ default 0 (Some 1) ∧
  job_ids 10 (Some 1%nat) sample_jobs ≠ [] ∧
  ∃ found,
    (@acquire_jobs sample_job_serializer sample_config 1 "V" (Some 1) w).1
      = Ok (Some found) ∧
    length found = 1%nat.
Proof.
  intros w.
  assert (Hlimit : 0 ≤ default 0 (Some 1)) by (simpl; lia).
  assert (Hsome : job_ids (clock w (clock_reads w)) (Z.to_nat <$> Some 1) (jobs w) ≠ [])
    by (vm_compute; discriminate).
  assert (Hall : ∀ k r,
            k ∈ job_ids (clock w (clock_reads w)) (Z.to_nat <$> Some 1) (jobs w) →
            jobs w !! k = Some r →
            is_Some (@deserialize_job sample_job_serializer (job_row_serialized_data r))).
  { intros k r Hk Hrow.
    assert (Hids : job_ids (clock w (clock_reads w)) (Z.to_nat <$> Some 1) (jobs w) = [2%N])
      by (vm_compute; reflexivity).
    rewrite Hids in Hk. apply list_elem_of_singleton in Hk as ->.
    assert (Hr : jobs w !! 2%N = Some (sample_job_row 2 3 None None)) by reflexivity.
    rewrite Hr in Hrow. injection Hrow as <-. by eexists. }
  split; [exact Hlimit|]. split; [exact Hsome|].
  destruct (proj1 (@acquire_jobs_returns_or_polls sample_job_serializer sample_config 0 "V"
                     (Some 1) w Hlimit) Hsome Hall) as (found & Hres & Hlen & _).
  exists found. split; [exact Hres|exact Hlen].
Defined.
